(** * amexdefault: the evaluation metric, the time-series compressor and the
    preprocessing step of [Development/predict_kai.py]

    The script is embedded function by function.  Numeric arrays hold exact
    numbers: rationals ([Q]) where the code only adds, multiplies, divides and
    compares, reals ([R]) where a square root is taken (the standard scaler).
    Rounding of binary floating point is outside these exact models; the
    metric is given a second time over an arbitrary arithmetic, binary64
    among its instances, for what rounding could change.
    Library calls (numpy, pandas, scikit-learn) are modelled by what their
    documentation fixes; every such choice is stated next to its definition. *)

From Stdlib Require Import String Ascii ZArith QArith Qreals Reals List Bool Arith.
From Stdlib Require Import Lia Psatz Permutation Sorting.Sorted.
From Stdlib Require Import Setoid Morphisms OrdersEx.
From Stdlib Require PrimFloat Uint63.
Import ListNotations.

(** ** Outcomes

    A call either returns a value or stops with a fault.  [ZeroDivide] is the
    outcome of an array division whose divisor is zero: numpy does not raise
    there, it emits a RuntimeWarning and yields [nan] or [inf], which every
    later arithmetic step of [amex_metric] keeps non-finite; the model stops at
    the division instead of carrying the non-finite number to the return. *)

Inductive fault : Type :=
| IndexError
| ZeroDivide
| KeyError
| TypeError
| ValueError.

Inductive res (A : Type) : Type :=
| Ok (a : A)
| Raise (e : fault).

Arguments Ok {A} a.
Arguments Raise {A} e.

Definition bind {A B : Type} (m : res A) (k : A -> res B) : res B :=
  match m with
  | Ok a => k a
  | Raise e => Raise e
  end.

Notation "x <- m ;; k" := (bind m (fun x => k))
  (at level 61, m at next level, right associativity).

Fixpoint mapM {A B : Type} (f : A -> res B) (l : list A) : res (list B) :=
  match l with
  | [] => Ok []
  | x :: r => y <- f x ;; ys <- mapM f r ;; Ok (y :: ys)
  end.

(** ** The metric evaluator: [amex_metric] *)

Module Metric.

Local Open Scope Q_scope.

(** Element-wise [/] of numpy on floats. *)
Definition fdiv (a b : Q) : res Q :=
  if Qeq_bool b 0 then Raise ZeroDivide else Ok (a / b).

(** [ndarray.sum] on an integer array and on a float array. *)
Fixpoint sumZ (l : list Z) : Z :=
  match l with
  | [] => 0%Z
  | x :: r => (x + sumZ r)%Z
  end.

Fixpoint sumQ (l : list Q) : Q :=
  match l with
  | [] => 0
  | x :: r => x + sumQ r
  end.

(** [ndarray.cumsum]: the running sums, one per position. *)
Fixpoint cumsum_from (acc : Q) (l : list Q) : list Q :=
  match l with
  | [] => []
  | x :: r => (acc + x) :: cumsum_from (acc + x) r
  end.

Definition cumsum (l : list Q) : list Q := cumsum_from 0 l.

(** [np.argsort(y_pred)]: the indices that put [y_pred] in ascending order.
    The default kind of numpy (an introsort) does not promise an order for
    equal keys; the model is the insertion sort it runs on every partition of
    at most 16 elements, which moves an element left only past strictly larger
    ones and so keeps equal keys in input order (what [kind="stable"]
    promises for every length).  What depends on the order of equal keys in
    longer arrays is stated over [line72] below, which leaves it open. *)
Definition ltQ (a b : Q) : bool :=
  match a ?= b with
  | Lt => true
  | _ => false
  end.

Fixpoint place (i : nat) (v : Q) (l : list (nat * Q)) : list (nat * Q) :=
  match l with
  | [] => [(i, v)]
  | (j, w) :: r =>
      if ltQ v w then (i, v) :: (j, w) :: r else (j, w) :: place i v r
  end.

Fixpoint argsort_from (i : nat) (y : list Q) (acc : list (nat * Q))
  : list (nat * Q) :=
  match y with
  | [] => acc
  | v :: r => argsort_from (S i) r (place i v acc)
  end.

Definition argsort (y : list Q) : list nat := map fst (argsort_from 0 y []).

(** [a[indices]] with an integer index array: out of range is an IndexError. *)
Definition take (a : list Z) (indices : list nat) : res (list Z) :=
  mapM (fun i => match nth_error a i with
                 | Some t => Ok t
                 | None => Raise IndexError
                 end) indices.

(** [a[mask]] with a boolean mask of the same length. *)
Fixpoint masked (a : list Z) (mask : list bool) : list Z :=
  match a, mask with
  | t :: a', b :: mask' => if b then t :: masked a' mask' else masked a' mask'
  | _, _ => []
  end.

(** [((lorentz - cum_norm_weight) * weight)], element by element. *)
Fixpoint gini_terms (lorentz cum_norm_weight weight : list Q) : list Q :=
  match lorentz, cum_norm_weight, weight with
  | l :: ls, c :: cs, w :: ws => (l - c) * w :: gini_terms ls cs ws
  | _, _, _ => []
  end.

(** Line 89: [10 * n_neg * (1 - 19 / (n_pos + 20 * n_neg))]. *)
Definition gini_max (n_pos n_neg : Z) : res Q :=
  r <- fdiv 19 (inject_Z (n_pos + 20 * n_neg)) ;;
  Ok (10 * inject_Z n_neg * (1 - r)).

(** Lines 68-94 once the order [indices] of line 72 is known. *)
Definition amex_metric_at (indices : list nat) (y_true : list Z) : res Q :=
  let n_pos := sumZ y_true in
  let n_neg := (Z.of_nat (length y_true) - n_pos)%Z in
  target <- take y_true indices ;;
  let weight := map (fun t => 20 - inject_Z t * 19) target in
  norm_weight <- mapM (fun w => fdiv w (sumQ weight)) weight ;;
  let cum_norm_weight := cumsum norm_weight in
  let four_pct_filter := map (fun c => Qle_bool c (4 # 100)) cum_norm_weight in
  d <- fdiv (inject_Z (sumZ (masked target four_pct_filter))) (inject_Z n_pos) ;;
  pos_share <- mapM (fun t => fdiv (inject_Z t) (inject_Z n_pos)) target ;;
  let lorentz := cumsum pos_share in
  let gini := sumQ (gini_terms lorentz cum_norm_weight weight) in
  gmax <- gini_max n_pos n_neg ;;
  g <- fdiv gini gmax ;;
  Ok ((1 # 2) * (g + d)).

(** Line 72: [indices = np.argsort(y_pred)[::-1]]. *)
Definition sort_indices (y_pred : list Q) : list nat := rev (argsort y_pred).

Definition amex_metric (y_true : list Z) (y_pred : list Q) : res Q :=
  amex_metric_at (sort_indices y_pred) y_true.

(** *** The metric as the specification words it

    One pass over the records in sorted order, carrying the weight and the
    positives seen so far; the weight of a record is 20 for a negative and 1
    for a positive, the total weight is [n_pos + 20 * n_neg]. *)
Definition record_weight (t : Z) : Q := if (t =? 0)%Z then 20 else 1.

Fixpoint capture_from (total : Q) (seen_w : Q) (target : list Z) : Z :=
  match target with
  | [] => 0%Z
  | t :: r =>
      let seen_w' := seen_w + record_weight t in
      ((if Qle_bool (seen_w' / total) (4 # 100) then t else 0)
       + capture_from total seen_w' r)%Z
  end.

Fixpoint gini_from (total n_pos : Q) (seen_w seen_pos : Q) (target : list Z) : Q :=
  match target with
  | [] => 0
  | t :: r =>
      let seen_w' := seen_w + record_weight t in
      let seen_pos' := seen_pos + inject_Z t in
      record_weight t * (seen_pos' / n_pos - seen_w' / total)
      + gini_from total n_pos seen_w' seen_pos' r
  end.

Definition metric_spec (target : list Z) : Q :=
  let n_pos := inject_Z (sumZ target) in
  let n_neg := inject_Z (Z.of_nat (length target) - sumZ target) in
  let total := n_pos + 20 * n_neg in
  let d := inject_Z (capture_from total 0 target) / n_pos in
  let g := gini_from total n_pos 0 0 target
           / (10 * n_neg * (1 - 19 / (n_pos + 20 * n_neg))) in
  (1 # 2) * (g + d).

(** The records of [y_true] in the order [indices]. *)
Definition reorder (y_true : list Z) (indices : list nat) : list Z :=
  map (fun i => nth i y_true 0%Z) indices.

(** *** Orders on indices, for the claims about ties *)

(** Descending score, equal scores by ascending input position. *)
Definition before_stable (y : list Q) (i j : nat) : Prop :=
  nth j y 0 < nth i y 0 \/ (nth i y 0 == nth j y 0 /\ (i < j)%nat).

(** Descending score, equal scores by descending input position. *)
Definition before_reversed (y : list Q) (i j : nat) : Prop :=
  nth j y 0 < nth i y 0 \/ (nth i y 0 == nth j y 0 /\ (j < i)%nat).

(** A descending sort that keeps equal scores in input order: insertion from
    the right end, each index going in front of the ones it must precede. *)
Fixpoint place_desc (i : nat) (v : Q) (l : list (nat * Q)) : list (nat * Q) :=
  match l with
  | [] => [(i, v)]
  | (j, w) :: r =>
      if ltQ v w then (j, w) :: place_desc i v r else (i, v) :: (j, w) :: r
  end.

Fixpoint stable_desc_from (i : nat) (y : list Q) : list (nat * Q) :=
  match y with
  | [] => []
  | v :: r => place_desc i v (stable_desc_from (S i) r)
  end.

Definition stable_desc_indices (y : list Q) : list nat :=
  map fst (stable_desc_from 0 y).

(** Ascending score, equal scores by ascending position: the order in which
    [argsort_from] keeps its accumulator; and its descending counterpart. *)
Definition asc_pair (p q : nat * Q) : Prop :=
  snd p < snd q \/ (snd p == snd q /\ (fst p < fst q)%nat).

Definition desc_pair (p q : nat * Q) : Prop :=
  snd q < snd p \/ (snd p == snd q /\ (fst p < fst q)%nat).

Definition order_preserving (f : Q -> Q) : Prop :=
  forall x y, x < y <-> f x < f y.

(** A rescaling of the scores, applied to an accumulator entry. *)
Definition rescale_pair (f : Q -> Q) (p : nat * Q) : nat * Q :=
  (fst p, f (snd p)).

Definition binary (y_true : list Z) : Prop :=
  Forall (fun t => t = 0%Z \/ t = 1%Z) y_true.

(** *** The metric in the arithmetic of the arrays

    numpy computes lines 77-94 in binary64, where every operation rounds and
    [cum_norm_weight <= 0.04] is decided on rounded sums.  Here the metric is
    written once more over an arbitrary arithmetic [A]: conversion from
    integers, the four operations, the comparison, the array sum and the two
    literals.  No law is assumed of them, so whatever is proved of
    [amex_metric_in] holds of binary64 as it holds of exact numbers; [y_true]
    is an integer array, as [train_labels["target"]] is. *)

Record arith (F : Type) : Type := mkArith {
  f_of_int : Z -> F;
  f_add : F -> F -> F;
  f_sub : F -> F -> F;
  f_mul : F -> F -> F;
  f_div : F -> F -> F;
  f_leb : F -> F -> bool;
  f_sum : list F -> F;
  f_four_pct : F;
  f_half : F
}.

Arguments f_of_int {F} _ _.
Arguments f_add {F} _ _ _.
Arguments f_sub {F} _ _ _.
Arguments f_mul {F} _ _ _.
Arguments f_div {F} _ _ _.
Arguments f_leb {F} _ _ _.
Arguments f_sum {F} _ _.
Arguments f_four_pct {F} _.
Arguments f_half {F} _.

Section InArithmetic.

Variable F : Type.
Variable A : arith F.

(** [ndarray.cumsum]: the first entry as it is, every later entry the one
    before plus the element. *)
Definition step (acc : option F) (x : F) : F :=
  match acc with
  | None => x
  | Some a => f_add A a x
  end.

Fixpoint scan (acc : option F) (l : list F) : list F :=
  match l with
  | [] => []
  | x :: r => step acc x :: scan (Some (step acc x)) r
  end.

Definition cumsum_in (l : list F) : list F := scan None l.

(** Line 77, for one record: [20.0 - target * 19.0]. *)
Definition weight_in (t : Z) : F :=
  f_sub A (f_of_int A 20) (f_mul A (f_of_int A t) (f_of_int A 19)).

(** Line 86, element by element. *)
Fixpoint gini_terms_in (lorentz cum_norm_weight weight : list F) : list F :=
  match lorentz, cum_norm_weight, weight with
  | l :: ls, c :: cs, w :: ws =>
      f_mul A (f_sub A l c) w :: gini_terms_in ls cs ws
  | _, _, _ => []
  end.

(** Line 89: the integers [10 * n_neg] and [n_pos + 20 * n_neg] are
    computed as integers and then converted. *)
Definition gini_max_in (n_pos n_neg : Z) : F :=
  f_mul A (f_of_int A (10 * n_neg))
        (f_sub A (f_of_int A 1)
               (f_div A (f_of_int A 19) (f_of_int A (n_pos + 20 * n_neg)))).

(** Lines 68-94 once the order [indices] of line 72 is known.  Reading
    [y_true] out of range is an IndexError.  A division is the operation of
    the arithmetic whatever the divisor (binary64 answers [nan] or [inf] to
    a zero one and carries it to the return, where [amex_metric_at] stops);
    the definition is used where both classes are present. *)
Definition amex_metric_in (indices : list nat) (y_true : list Z) : res F :=
  let n_pos := sumZ y_true in
  let n_neg := (Z.of_nat (length y_true) - n_pos)%Z in
  target <- take y_true indices ;;
  let weight := map weight_in target in
  let total := f_sum A weight in
  let cum_norm_weight := cumsum_in (map (fun w => f_div A w total) weight) in
  let four_pct_filter :=
    map (fun c => f_leb A c (f_four_pct A)) cum_norm_weight in
  let d := f_div A (f_of_int A (sumZ (masked target four_pct_filter)))
                 (f_of_int A n_pos) in
  let lorentz :=
    cumsum_in (map (fun t => f_div A (f_of_int A t) (f_of_int A n_pos))
                   target) in
  let gini := f_sum A (gini_terms_in lorentz cum_norm_weight weight) in
  let g := f_div A gini (gini_max_in n_pos n_neg) in
  Ok (f_mul A (f_half A) (f_add A g d)).

(** The same value as the specification words it: the records are visited
    once, in sorted order; a negative weighs 20 and a positive 1; the running
    normalized weight and the running positive share are carried along; a
    record counts towards the capture when the running weight, itself
    included, is at most 0.04, and contributes its weight times the gap
    between the two running values to the Gini sum. *)
Definition record_weight_in (t : Z) : F :=
  if (t =? 0)%Z then f_of_int A 20 else f_of_int A 1.

Fixpoint walk (total : F) (n_pos : Z) (seen_w seen_pos : option F)
         (target : list Z) : Z * list F :=
  match target with
  | [] => (0%Z, [])
  | t :: r =>
      let w := record_weight_in t in
      let seen_w' := step seen_w (f_div A w total) in
      let seen_pos' :=
        step seen_pos (f_div A (f_of_int A t) (f_of_int A n_pos)) in
      let rest := walk total n_pos (Some seen_w') (Some seen_pos') r in
      (((if f_leb A seen_w' (f_four_pct A) then t else 0) + fst rest)%Z,
       f_mul A (f_sub A seen_pos' seen_w') w :: snd rest)
  end.

Definition metric_words (y_true target : list Z) : F :=
  let n_pos := sumZ y_true in
  let n_neg := (Z.of_nat (length y_true) - n_pos)%Z in
  let total := f_sum A (map record_weight_in target) in
  let visited := walk total n_pos None None target in
  let d := f_div A (f_of_int A (fst visited)) (f_of_int A n_pos) in
  let g := f_div A (f_sum A (snd visited)) (gini_max_in n_pos n_neg) in
  f_mul A (f_half A) (f_add A g d).

(** The arithmetic computes the two weights without error: [20 - 0 * 19] is
    20 and [20 - 1 * 19] is 1 (so it is in binary64, these being small
    integers). *)
Definition weights_exact : Prop :=
  weight_in 0 = f_of_int A 20 /\ weight_in 1 = f_of_int A 1.

End InArithmetic.

Arguments step {F} A acc x.
Arguments scan {F} A acc l.
Arguments cumsum_in {F} A l.
Arguments weight_in {F} A t.
Arguments gini_terms_in {F} A lorentz cum_norm_weight weight.
Arguments gini_max_in {F} A n_pos n_neg.
Arguments amex_metric_in {F} A indices y_true.
Arguments record_weight_in {F} A t.
Arguments walk {F} A total n_pos seen_w seen_pos target.
Arguments metric_words {F} A y_true target.
Arguments weights_exact {F} A.

(** Exact arithmetic. *)
Definition exact_arith : arith Q :=
  mkArith Q inject_Z Qplus Qminus Qmult Qdiv Qle_bool sumQ (4 # 100) (1 # 2).

(** binary64.  An [int64] is converted by rounding to nearest; the literals
    0.04 and 0.5 are the correctly rounded quotients; [ndarray.sum] adds in
    numpy's pairwise order: fewer than 8 elements one after the other, up to
    128 elements in eight interleaved partial sums that are then added in
    pairs, the remainder one after the other, and longer arrays in two halves,
    the first a multiple of 8 long.  [f64_with] leaves the summation open,
    for what holds of every order of adding. *)
Definition f64_of_int (z : Z) : PrimFloat.float :=
  if (z <? 0)%Z
  then PrimFloat.opp (PrimFloat.of_uint63 (Uint63.of_Z (- z)))
  else PrimFloat.of_uint63 (Uint63.of_Z z).

Fixpoint add_all (acc : PrimFloat.float) (l : list PrimFloat.float)
  : PrimFloat.float :=
  match l with
  | [] => acc
  | x :: r => add_all (PrimFloat.add acc x) r
  end.

(** The eight partial sums after the blocks of 8 in [l] have been added to
    the accumulators [r]. *)
Fixpoint add_blocks (blocks : nat) (r l : list PrimFloat.float)
  : list PrimFloat.float :=
  match blocks with
  | O => r
  | S b =>
      add_blocks b
        (map (fun p => PrimFloat.add (fst p) (snd p)) (combine r (firstn 8 l)))
        (skipn 8 l)
  end.

Definition block_sum (l : list PrimFloat.float) : PrimFloat.float :=
  let n := length l in
  let full := (n / 8)%nat in
  let r := add_blocks (full - 1) (firstn 8 l) (skipn 8 l) in
  let at_ k := nth k r PrimFloat.zero in
  let res :=
    PrimFloat.add
      (PrimFloat.add (PrimFloat.add (at_ 0%nat) (at_ 1%nat))
                     (PrimFloat.add (at_ 2%nat) (at_ 3%nat)))
      (PrimFloat.add (PrimFloat.add (at_ 4%nat) (at_ 5%nat))
                     (PrimFloat.add (at_ 6%nat) (at_ 7%nat))) in
  add_all res (skipn (8 * full) l).

Fixpoint pairwise_sum (fuel : nat) (l : list PrimFloat.float)
  : PrimFloat.float :=
  let n := length l in
  if (n <? 8)%nat then add_all PrimFloat.zero l
  else if (n <=? 128)%nat then block_sum l
  else
    match fuel with
    | O => block_sum l
    | S fuel' =>
        let half := (n / 2)%nat in
        let n2 := (half - half mod 8)%nat in
        PrimFloat.add (pairwise_sum fuel' (firstn n2 l))
                      (pairwise_sum fuel' (skipn n2 l))
    end.

Definition f64_sum (l : list PrimFloat.float) : PrimFloat.float :=
  pairwise_sum (length l) l.

Definition f64_with (sum : list PrimFloat.float -> PrimFloat.float)
  : arith PrimFloat.float :=
  mkArith PrimFloat.float f64_of_int
          PrimFloat.add PrimFloat.sub PrimFloat.mul PrimFloat.div
          PrimFloat.leb sum
          (PrimFloat.div (f64_of_int 4) (f64_of_int 100))
          (PrimFloat.div (f64_of_int 1) (f64_of_int 2)).

Definition f64_arith : arith PrimFloat.float := f64_with f64_sum.

(** *** The order of line 72, whatever the sort

    [np.argsort] returns some arrangement of all positions in which the
    predictions never decrease; which one, among equal predictions, its
    default sort kind leaves open.  [indices] is that arrangement read
    backwards.  The predictions are compared exactly, as finite binary64
    values are. *)
Definition ascending (y_pred : list Q) (asc : list nat) : Prop :=
  Permutation asc (seq 0 (length y_pred))
  /\ StronglySorted (fun i j => nth i y_pred 0 <= nth j y_pred 0) asc.

Definition line72 (y_pred : list Q) (indices : list nat) : Prop :=
  exists asc, ascending y_pred asc /\ indices = rev asc.

(** An ascending arrangement that keeps equal predictions in input order,
    as a stable sort leaves them. *)
Definition stable_ascending (y_pred : list Q) (asc : list nat) : Prop :=
  StronglySorted
    (fun i j => nth i y_pred 0 < nth j y_pred 0
                \/ (nth i y_pred 0 == nth j y_pred 0 /\ (i < j)%nat)) asc.

(** *** The wrapper for LightGBM: [lgb_amex_metric] *)

(** A [lgb.Dataset], of which the wrapper reads the labels only. *)
Record Dataset : Type := mkDataset {
  get_label : list Z
}.

(** Lines 97-105: the evaluation name, the value and the
    higher-is-better flag.  LightGBM passes the predictions first. *)
Definition lgb_amex_metric (y_pred : list Q) (y_true : Dataset)
  : string * res Q * bool :=
  ("Score"%string, amex_metric (get_label y_true) y_pred, true).

(** *** A perfectly ranked sample: ten positives, then twelve negatives

    The total weight is 250 and the tenth positive closes a cumulative weight
    of 10/250, the threshold itself. *)
Definition ranked_labels : list Z := repeat 1%Z 10 ++ repeat 0%Z 12.

Definition ranked_scores : list Q :=
  map (fun i => inject_Z (22 - Z.of_nat i)) (seq 0 22).

(** The cumulative normalized weights of lines 77-78 in the arithmetic [A]. *)
Definition cum_norm_weight_in {F : Type} (A : arith F) (target : list Z)
  : list F :=
  let weight := map (weight_in A) target in
  cumsum_in A (map (fun w => f_div A w (f_sum A weight)) weight).

(** *** Records, for the properties about the order of the input *)

(** No two predictions are equal. *)
Definition distinct_scores (y_pred : list Q) : Prop :=
  forall i j, (i < j < length y_pred)%nat -> ~ nth i y_pred 0 == nth j y_pred 0.

(** The (label, prediction) pairs in the order of line 72. *)
Definition sorted_records (recs : list (Z * Q)) : list (Z * Q) :=
  map (fun i => nth i recs (0%Z, 0)) (sort_indices (map snd recs)).

End Metric.

(** ** Tables *)

(** A table cell: a missing value, a number or a string. *)
Inductive cell : Type :=
| NaN
| Num (q : Q)
| Str (s : string).

(** ** The time-series compressor, first half: [transpose_data] *)

Module Transpose.

(** One feature column of the cleaned table: a [Series] indexed by
    [customer_ID], one entry per observation, in table order. *)
Definition Series : Type := list (string * cell).

(** [data.groupby("customer_ID")]: one group per customer, the groups in
    ascending key order (pandas sorts group keys by default; Python compares
    strings by code point), the rows of a group in table order. *)
Fixpoint add_to_group (cid : string) (v : cell)
         (groups : list (string * list cell)) : list (string * list cell) :=
  match groups with
  | [] => [(cid, [v])]
  | (k, vs) :: r =>
      match String_as_OT.compare cid k with
      | Eq => (k, vs ++ [v]) :: r
      | Lt => (cid, [v]) :: (k, vs) :: r
      | Gt => (k, vs) :: add_to_group cid v r
      end
  end.

Definition groupby (data : Series) : list (string * list cell) :=
  fold_left (fun groups row => add_to_group (fst row) (snd row) groups) data [].

(** Lines 141-142.  A Python list times a negative number is empty. *)
Definition pad_front (df_val : list cell) : list cell :=
  let df_len := Z.of_nat (length df_val) in
  if (df_len =? 13)%Z
  then df_val
  else repeat (Num 0) (Z.to_nat (13 - df_len)) ++ df_val.

(** Lines 139-143: [res_list], without the leading [cid] of each row, which
    is kept beside it. *)
Definition res_list (data : Series) : list (string * list cell) :=
  map (fun g => (fst g, pad_front (snd g))) (groupby data).

(** Lines 145-150: [pd.DataFrame(data=res_list, columns=["id", "series_0",
    ..., "series_12"]).set_index("id")].  The constructor refuses a row with
    more entries than the 14 column names and fills a shorter row with
    missing values. *)
Definition transpose_data (data : Series) : res (list (string * list cell)) :=
  let rows := res_list data in
  if forallb (fun row => (1 + length (snd row) <=? 14)%nat) rows
  then Ok (map (fun row =>
                  (fst row, snd row ++ repeat NaN (13 - length (snd row))))
             rows)
  else Raise ValueError.

(** The observations of one customer, in table order. *)
Definition observed (cid : string) (data : Series) : list cell :=
  map snd (filter (fun row => String.eqb (fst row) cid) data).

Fixpoint assoc (k : string) (groups : list (string * list cell))
  : option (list cell) :=
  match groups with
  | [] => None
  | (k', vs) :: r => if String.eqb k k' then Some vs else assoc k r
  end.

Definition keys_sorted (groups : list (string * list cell)) : Prop :=
  StronglySorted String_as_OT.lt (map fst groups).

End Transpose.

(** ** Preprocessing: [preprocess] *)

Module Preprocess.

Local Open Scope string_scope.
Local Open Scope list_scope.

(** A column label: a name of the input table, or the label
    [name_value] that [get_dummies] gives an indicator column. *)
Inductive label : Type :=
| Col (name : string)
| Dummy (name : string) (value : cell).

(** A table: its column labels and its rows, each row an index entry and one
    cell per column. *)
Record DataFrame : Type := mkFrame {
  columns : list label;
  rows : list (cell * list cell)
}.

(** Equality of values as pandas groups them: numbers by value. *)
Definition cell_eqb (a b : cell) : bool :=
  match a, b with
  | NaN, NaN => true
  | Num x, Num y => Qeq_bool x y
  | Str s, Str t => String.eqb s t
  | _, _ => false
  end.

Definition label_eqb (a b : label) : bool :=
  match a, b with
  | Col s, Col t => String.eqb s t
  | Dummy s v, Dummy t w => String.eqb s t && cell_eqb v w
  | _, _ => false
  end.

Definition has_label (l : label) (cols : list label) : bool :=
  existsb (label_eqb l) cols.

Fixpoint col_index (l : label) (cols : list label) : option nat :=
  match cols with
  | [] => None
  | c :: r => if label_eqb l c then Some 0%nat
              else option_map S (col_index l r)
  end.

Definition cell_at (i : nat) (r : cell * list cell) : cell := nth i (snd r) NaN.

(** The order of a sort key: numbers by value, strings by code point,
    every number before every string (pandas sorts a column that mixes them
    that way), missing values last ([na_position="last"]). *)
Definition cell_leb (a b : cell) : bool :=
  match a, b with
  | _, NaN => true
  | NaN, _ => false
  | Num x, Num y => Qle_bool x y
  | Str s, Str t => match String_as_OT.compare s t with
                    | Gt => false
                    | _ => true
                    end
  | Num _, Str _ => true
  | Str _, Num _ => false
  end.

Definition cell_ltb (a b : cell) : bool := negb (cell_leb b a).

Fixpoint lex_leb (a b : list cell) : bool :=
  match a, b with
  | x :: a', y :: b' =>
      if cell_ltb x y then true
      else if cell_ltb y x then false
      else lex_leb a' b'
  | _, _ => true
  end.

(** A stable sort: an element goes in front of the first one it does not
    exceed, elements being inserted from the last to the first. *)
Fixpoint insert_by {A : Type} (leb : A -> A -> bool) (x : A) (l : list A)
  : list A :=
  match l with
  | [] => [x]
  | y :: r => if leb x y then x :: y :: r else y :: insert_by leb x r
  end.

Fixpoint sort_by {A : Type} (leb : A -> A -> bool) (l : list A) : list A :=
  match l with
  | [] => []
  | x :: r => insert_by leb x (sort_by leb r)
  end.

Definition is_nan (c : cell) : bool :=
  match c with NaN => true | _ => false end.

Fixpoint key_positions (by_ : list string) (cols : list label)
  : res (list nat) :=
  match by_ with
  | [] => Ok []
  | name :: r =>
      match col_index (Col name) cols with
      | None => Raise KeyError
      | Some i => ps <- key_positions r cols ;; Ok (i :: ps)
      end
  end.

Definition row_key (ps : list nat) (r : cell * list cell) : list cell :=
  map (fun i => cell_at i r) ps.

Definition row_leb (ps : list nat) (r1 r2 : cell * list cell) : bool :=
  lex_leb (row_key ps r1) (row_key ps r2).

(** [df.sort_values(by)]: the rows in ascending order of their key, rows of
    equal key in table order; the index entries move with their rows. *)
Definition sort_values (by_ : list string) (df : DataFrame) : res DataFrame :=
  ps <- key_positions by_ (columns df) ;;
  Ok (mkFrame (columns df) (sort_by (row_leb ps) (rows df))).

(** [df.fillna(0)]: every missing cell becomes the number 0. *)
Definition fill_cell (c : cell) : cell :=
  match c with NaN => Num 0 | _ => c end.

Definition fillna (df : DataFrame) : DataFrame :=
  mkFrame (columns df)
          (map (fun r => (fst r, map fill_cell (snd r))) (rows df)).

(** Keeping the cells of a row whose column passes [keep]. *)
Fixpoint select (keep : list bool) (cells : list cell) : list cell :=
  match keep, cells with
  | b :: keep', c :: cells' =>
      if b then c :: select keep' cells' else select keep' cells'
  | _, _ => []
  end.

Definition named (names : list string) (l : label) : bool :=
  existsb (fun n => label_eqb (Col n) l) names.

(** [df.drop(labels, axis=1)]: a new table without the named columns; a
    label that names no column is a KeyError (the default
    [errors="raise"]). *)
Definition drop (labels : list string) (df : DataFrame) : res DataFrame :=
  if forallb (fun n => has_label (Col n) (columns df)) labels
  then
    let keep := map (fun l => negb (named labels l)) (columns df) in
    Ok (mkFrame (filter (fun l => negb (named labels l)) (columns df))
                (map (fun r => (fst r, select keep (snd r))) (rows df)))
  else Raise KeyError.

(** The distinct values of a column in order of first appearance, missing
    values left out. *)
Fixpoint distinct (vals : list cell) : list cell :=
  match vals with
  | [] => []
  | v :: r =>
      let d := distinct r in
      if is_nan v then d
      else v :: filter (fun w => negb (cell_eqb v w)) d
  end.

(** The categories of a column: its distinct values in ascending order,
    numbers before strings. *)
Definition levels (vals : list cell) : list cell :=
  sort_by cell_leb (distinct vals).

Definition indicator (c v : cell) : cell :=
  if cell_eqb c v then Num 1 else Num 0.

(** The positions and categories of the columns to encode. *)
Fixpoint encodings (names : list string) (df : DataFrame)
  : res (list (string * nat * list cell)) :=
  match names with
  | [] => Ok []
  | name :: r =>
      match col_index (Col name) (columns df) with
      | None => Raise KeyError
      | Some i =>
          es <- encodings r df ;;
          Ok ((name, i, levels (map (cell_at i) (rows df))) :: es)
      end
  end.

(** [pd.get_dummies(df, columns=names)]: a new table holding the columns not
    named, then, for each named column in turn, one indicator column per
    category; a name that is no column is a KeyError. *)
Definition get_dummies (df : DataFrame) (names : list string) : res DataFrame :=
  es <- encodings names df ;;
  let keep := map (fun l => negb (named names l)) (columns df) in
  Ok (mkFrame
        (filter (fun l => negb (named names l)) (columns df)
         ++ flat_map (fun e => map (Dummy (fst (fst e))) (snd e)) es)
        (map (fun r =>
                (fst r,
                 select keep (snd r)
                 ++ flat_map (fun e =>
                                map (indicator (cell_at (snd (fst e)) r)) (snd e))
                      es))
           (rows df))).

(** [df.set_index(name, drop=True)]: a new table whose index is the named
    column, the column itself removed. *)
Definition set_index (name : string) (df : DataFrame) : res DataFrame :=
  match col_index (Col name) (columns df) with
  | None => Raise KeyError
  | Some i =>
      let keep := map (fun l => negb (label_eqb (Col name) l)) (columns df) in
      Ok (mkFrame (filter (fun l => negb (label_eqb (Col name) l)) (columns df))
                  (map (fun r => (cell_at i r, select keep (snd r))) (rows df)))
  end.

(** *** [CFG] *)

Definition category_param : list string :=
  ["D_63"; "D_64"; "B_30"; "B_38";
   "D_114"; "D_116"; "D_117"; "D_120"; "D_126"; "D_66"; "D_68"].

Definition remove_param : list string :=
  ["S_2";
   "D_73"; "D_87"; "D_88"; "D_108"; "D_110"; "D_111"; "B_39"; "B_42"].

(** *** Objects

    A Python variable holds a reference to a table object.  The heap lists
    the objects; a reference is a position in it.  An [inplace=True] call
    overwrites the object, every other call allocates a new one. *)
Definition heap : Type := list DataFrame.

Definition st (A : Type) : Type := heap -> heap * res A.

Definition ret {A : Type} (a : A) : st A := fun h => (h, Ok a).

Definition lift {A : Type} (m : res A) : st A := fun h => (h, m).

Definition bind_st {A B : Type} (m : st A) (k : A -> st B) : st B :=
  fun h => match m h with
           | (h', Ok a) => k a h'
           | (h', Raise e) => (h', Raise e)
           end.

Notation "x <<- m ;; k" := (bind_st m (fun x => k))
  (at level 61, m at next level, right associativity).

(** Reading through a reference; a reference handed to a function always
    names an object, the fault is there to keep the model total. *)
Definition load (r : nat) : st DataFrame :=
  fun h => match nth_error h r with
           | Some df => (h, Ok df)
           | None => (h, Raise IndexError)
           end.

Fixpoint overwrite (h : heap) (r : nat) (df : DataFrame) : heap :=
  match h, r with
  | [], _ => []
  | _ :: h', O => df :: h'
  | x :: h', S r' => x :: overwrite h' r' df
  end.

Definition store (r : nat) (df : DataFrame) : st unit :=
  fun h => (overwrite h r df, Ok tt).

Definition alloc (df : DataFrame) : st nat :=
  fun h => (h ++ [df], Ok (length h)).

(** Line 112. *)
Definition sort_values_inplace (data : nat) (by_ : list string) : st unit :=
  df <<- load data ;;
  sorted <<- lift (sort_values by_ df) ;;
  store data sorted.

(** Line 113. *)
Definition fillna_inplace (data : nat) : st unit :=
  df <<- load data ;;
  store data (fillna df).

(** Lines 115-116: the local name [data] is bound to the new table when
    some column of the table is on the denylist. *)
Definition drop_denylist (data : nat) : st nat :=
  df <<- load data ;;
  if existsb (fun n => has_label (Col n) (columns df)) remove_param
  then dropped <<- lift (drop remove_param df) ;; alloc dropped
  else ret data.

(** Lines 118-123. *)
Definition encode_and_index (data : nat) : st nat :=
  df <<- load data ;;
  dummies <<- lift (get_dummies df category_param) ;;
  data' <<- alloc dummies ;;
  df' <<- load data' ;;
  indexed <<- lift (set_index "customer_ID" df') ;;
  alloc indexed.

(** Lines 110-123. *)
Definition preprocess (data : nat) : st nat :=
  _ <<- sort_values_inplace data ["customer_ID"; "S_2"] ;;
  _ <<- fillna_inplace data ;;
  data' <<- drop_denylist data ;;
  encode_and_index data'.

(** A computation that only adds objects leaves the heap it starts from as a
    prefix of the heap it ends with. *)
Definition extends (h h' : heap) : Prop := exists ext, h' = h ++ ext.

Definition allocating {A : Type} (m : st A) : Prop :=
  forall h, extends h (fst (m h)).

Definition fresh_result (m : st nat) : Prop :=
  forall h r, snd (m h) = Ok r -> (length h <= r < length (fst (m h)))%nat.

(** The order of the rows after line 112. *)
Definition key_sorted (by_ : list nat) (rs : list (cell * list cell)) : Prop :=
  Sorted (fun r1 r2 => row_leb by_ r1 r2 = true) rs.

Definition no_missing (df : DataFrame) : Prop :=
  forall r c, In r (rows df) -> In c (snd r) -> c <> NaN.

(** A table with every column [preprocess] names except the denylist
    columns listed in [absent]. *)
Definition raw_columns (absent : list string) : list label :=
  map Col (["customer_ID"]
           ++ filter (fun n => negb (existsb (String.eqb n) absent)) remove_param
           ++ category_param ++ ["P_2"]).

(** Two observations out of order, one of them with a missing value. *)
Definition sample_row (cid date : string) (p_2 : cell) : list cell :=
  [Str cid; Str date]
  ++ repeat (Num 0) 8
  ++ [Str "CO"; Str "O"] ++ repeat (Num 1) 9
  ++ [p_2].

Definition sample_table : DataFrame :=
  mkFrame (raw_columns [])
          [(Num 0, sample_row "b" "2017-03-01" (Num (1 # 2)));
           (Num 1, sample_row "a" "2017-03-02" NaN)].

Definition sample_sorted : DataFrame :=
  mkFrame (raw_columns [])
          [(Num 1, sample_row "a" "2017-03-02" NaN);
           (Num 0, sample_row "b" "2017-03-01" (Num (1 # 2)))].

(** The same table without the denylist column [D_73]. *)
Definition sample_partial : DataFrame :=
  mkFrame (raw_columns ["D_73"])
          [(Num 0, [Str "b"; Str "2017-03-01"]
                   ++ repeat (Num 0) 7
                   ++ [Str "CO"; Str "O"] ++ repeat (Num 1) 9
                   ++ [Num (1 # 2)])].

(** The columns [preprocess] leaves as they are: not on the denylist, not
    categorical, not the row key. *)
Definition kept (l : label) : bool :=
  negb (named remove_param l) && negb (named category_param l)
  && negb (label_eqb (Col "customer_ID") l).

(** The position of a named column (0 when there is none). *)
Definition position (name : string) (cols : list label) : nat :=
  match col_index (Col name) cols with
  | Some i => i
  | None => 0%nat
  end.

(** What becomes of a row [r] of the sorted, filled table [filled], whose
    columns are [cols]: its key is its [customer_ID] cell, its cells are the
    cells of the kept columns followed, for each categorical column in turn,
    by the indicators of its value against the categories of that column. *)
Definition encoded_row (cols : list label) (filled : DataFrame)
           (r : cell * list cell) : cell * list cell :=
  (cell_at (position "customer_ID" cols) r,
   select (map kept cols) (snd r)
   ++ flat_map (fun name =>
                  map (indicator (cell_at (position name cols) r))
                      (levels (map (cell_at (position name cols))
                                   (rows filled))))
        category_param).

(** Every row has one cell per column, as every pandas table has. *)
Definition well_formed (df : DataFrame) : Prop :=
  Forall (fun r => length (snd r) = length (columns df)) (rows df).

(** A block of indicator cells with exactly one 1. *)
Definition one_hot (block : list cell) : Prop :=
  Forall (fun c => c = Num 0 \/ c = Num 1) block
  /\ length (filter (cell_eqb (Num 1)) block) = 1%nat.

(** The table [preprocess] hands back, as a function of the table it is
    given: lines 112-123 without the objects. *)
Definition returned_table (df : DataFrame) : res DataFrame :=
  sorted <- sort_values ["customer_ID"; "S_2"] df ;;
  let filled := fillna sorted in
  dropped <- (if existsb (fun n => has_label (Col n) (columns filled))
                         remove_param
              then drop remove_param filled
              else Ok filled) ;;
  dummies <- get_dummies dropped category_param ;;
  set_index "customer_ID" dummies.

End Preprocess.

(** ** The time-series compressor, second half: fit and transform *)

Module Compressor.

Local Open Scope R_scope.

(** A (customers x steps) array: one row per customer. *)
Definition matrix : Type := list (list R).

Fixpoint sumR (l : list R) : R :=
  match l with
  | [] => 0
  | x :: r => x + sumR r
  end.

Definition mean (l : list R) : R := sumR l / INR (length l).

(** The variance numpy computes by default (divisor [n]). *)
Definition variance (l : list R) : R :=
  mean (map (fun x => (x - mean l) * (x - mean l)) l).

Definition n_features (X : matrix) : nat :=
  match X with
  | [] => 0%nat
  | row :: _ => length row
  end.

Definition column (j : nat) (X : matrix) : list R :=
  map (fun row => nth j row 0) X.

Definition columns_of (X : matrix) : list (list R) :=
  map (fun j => column j X) (seq 0 (n_features X)).

(** *** [sklearn.preprocessing.StandardScaler] *)

Record StandardScaler : Type := mkScaler {
  mean_ : list R;
  scale_ : list R
}.

(** A column without spread is divided by 1 instead of by 0. *)
Definition handle_zeros_in_scale (s : R) : R :=
  if Req_dec_T s 0 then 1 else s.

Definition ss_fit (X : matrix) : StandardScaler :=
  mkScaler (map mean (columns_of X))
           (map (fun c => handle_zeros_in_scale (sqrt (variance c)))
                (columns_of X)).

Fixpoint standardize (row means scales : list R) : list R :=
  match row, means, scales with
  | x :: row', m :: means', s :: scales' =>
      (x - m) / s :: standardize row' means' scales'
  | _, _, _ => []
  end.

Definition ss_transform (ss : StandardScaler) (X : matrix) : matrix :=
  map (fun row => standardize row (mean_ ss) (scale_ ss)) X.

Definition ss_fit_transform (X : matrix) : matrix :=
  ss_transform (ss_fit X) X.

(** *** [sklearn.decomposition.PCA(n_components=1)]

    A fitted model keeps the column means of the array it was fitted on and
    one axis.  The fit itself is a singular value decomposition inside the
    library; what it returns is fixed by [fitted]: a unit axis along which
    the centred data vary most. *)

Record PCA : Type := mkPCA {
  pca_mean_ : list R;
  components_ : list R
}.

Fixpoint dot (a b : list R) : R :=
  match a, b with
  | x :: a', y :: b' => x * y + dot a' b'
  | _, _ => 0
  end.

Fixpoint centre (row means : list R) : list R :=
  match row, means with
  | x :: row', m :: means' => (x - m) :: centre row' means'
  | _, _ => []
  end.

Definition project (axis : list R) (X : matrix) : list R :=
  map (fun row => dot row axis) X.

Definition fitted (X : matrix) (pca : PCA) : Prop :=
  pca_mean_ pca = map mean (columns_of X)
  /\ length (components_ pca) = n_features X
  /\ dot (components_ pca) (components_ pca) = 1
  /\ forall w,
      length w = n_features X -> dot w w = 1 ->
      variance (project w X) <= variance (project (components_ pca) X).

Definition pca_transform (pca : PCA) (X : matrix) : list R :=
  map (fun row => dot (centre row (pca_mean_ pca)) (components_ pca)) X.

(** *** The script *)

(** Lines 153-160: [pca] is a model the library may return for the
    standardized [data]; the scaler [ss] is local and is not returned. *)
Definition create_model (data : matrix) (pca : PCA) : Prop :=
  fitted (ss_fit_transform data) pca.

(** Lines 185-189, for the model of one column and its transposed data. *)
Definition compress (model : PCA) (t_data : matrix) : list R :=
  pca_transform model (ss_fit_transform t_data).

(** Lines 183-189: the loop over the columns, reading [model_dict]. *)
Definition transform_loop (model_dict : string -> option PCA)
           (cols : list (string * matrix)) : res (list (string * list R)) :=
  mapM (fun col =>
          match model_dict (fst col) with
          | None => Raise KeyError
          | Some model =>
              Ok (append "PA_" (fst col), compress model (snd col))
          end) cols.

(** What the specification describes instead: the transform-time array
    standardized with the scaler of the fit-time array. *)
Definition compress_with_fit_scale (train : matrix) (model : PCA)
           (t_data : matrix) : list R :=
  pca_transform model (ss_transform (ss_fit train) t_data).

(** *** A small population: two customers, one non-constant step *)

Definition history (x : R) : list R := x :: repeat 0 12.

Definition train_sample : matrix := [history 0; history 2].

Definition later_sample : matrix := [history 0; history 4].

Definition model_sample : PCA := mkPCA (repeat 0 13) (history 1).

(** *** Offsets, for the properties about the level of the data *)

Fixpoint add_rows (row offsets : list R) : list R :=
  match row, offsets with
  | x :: row', a :: offsets' => (x + a) :: add_rows row' offsets'
  | _, _ => []
  end.

(** The array with [offsets] added to every customer's history, step by
    step. *)
Definition translate (offsets : list R) (X : matrix) : matrix :=
  map (fun row => add_rows row offsets) X.

(** Every customer has the same number of steps. *)
Definition rectangular (X : matrix) : Prop :=
  Forall (fun row => length row = n_features X) X.

End Compressor.

(** * Facts about the metric evaluator *)

Section ArgsortFacts.

Import Metric.
Local Open Scope Q_scope.

Lemma ltQ_true (a b : Q) : ltQ a b = true <-> a < b.
Proof.
  unfold ltQ. rewrite Qlt_alt. destruct (a ?= b); split; congruence.
Qed.

Lemma ltQ_false (a b : Q) : ltQ a b = false <-> b <= a.
Proof.
  split; intro H.
  - apply Qnot_lt_le. intro Hlt. apply ltQ_true in Hlt. congruence.
  - destruct (ltQ a b) eqn:E; trivial.
    apply ltQ_true in E. exfalso. exact (Qlt_not_le _ _ E H).
Qed.

Lemma place_perm (i : nat) (v : Q) (l : list (nat * Q)) :
  Permutation (place i v l) ((i, v) :: l).
Proof.
  induction l as [|[j w] r IH]; simpl.
  - apply Permutation_refl.
  - destruct (ltQ v w).
    + apply Permutation_refl.
    + apply perm_trans with ((j, w) :: (i, v) :: r).
      * now apply perm_skip.
      * apply perm_swap.
Qed.

Lemma argsort_from_perm (y : list Q) : forall i acc,
  Permutation (argsort_from i y acc) (acc ++ combine (seq i (length y)) y).
Proof.
  induction y as [|v r IH]; intros i acc; simpl.
  - rewrite app_nil_r. apply Permutation_refl.
  - eapply perm_trans; [apply IH|].
    eapply perm_trans; [apply Permutation_app_tail, place_perm|].
    simpl. apply Permutation_middle.
Qed.

Lemma fst_combine_seq (y : list Q) : forall i,
  map fst (combine (seq i (length y)) y) = seq i (length y).
Proof.
  induction y as [|v r IH]; intro i; simpl; [reflexivity|].
  now rewrite IH.
Qed.

Lemma argsort_perm (y : list Q) :
  Permutation (argsort y) (seq 0 (length y)).
Proof.
  unfold argsort.
  rewrite <- (fst_combine_seq y 0).
  apply Permutation_map.
  exact (argsort_from_perm y 0 []).
Qed.

Lemma sort_indices_perm (y : list Q) :
  Permutation (sort_indices y) (seq 0 (length y)).
Proof.
  unfold sort_indices.
  eapply perm_trans; [apply Permutation_sym, Permutation_rev|].
  apply argsort_perm.
Qed.

Lemma sort_indices_bound (y : list Q) (i : nat) :
  In i (sort_indices y) -> (i < length y)%nat.
Proof.
  intro H.
  apply (Permutation_in _ (sort_indices_perm y)) in H.
  apply in_seq in H. lia.
Qed.

Lemma sort_indices_length (y : list Q) :
  length (sort_indices y) = length y.
Proof.
  rewrite (Permutation_length (sort_indices_perm y)). apply length_seq.
Qed.

(** Reading an array at in-range positions succeeds. *)
Lemma take_ok (a : list Z) (indices : list nat) :
  (forall i, In i indices -> (i < length a)%nat) ->
  take a indices = Ok (reorder a indices).
Proof.
  unfold take, reorder.
  induction indices as [|i r IH]; intro H; simpl; [reflexivity|].
  destruct (nth_error a i) as [t|] eqn:E.
  - simpl. rewrite IH by (intros; apply H; now right). simpl.
    now rewrite (nth_error_nth _ _ 0%Z E).
  - apply nth_error_None in E.
    specialize (H i (or_introl eq_refl)). lia.
Qed.

Lemma reorder_seq (a : list Z) :
  reorder a (seq 0 (length a)) = a.
Proof.
  unfold reorder.
  apply nth_ext with (d := 0%Z) (d' := 0%Z).
  - now rewrite length_map, length_seq.
  - intros n Hn. rewrite length_map, length_seq in Hn.
    rewrite (nth_indep _ 0%Z (nth 0 a 0%Z))
      by (now rewrite length_map, length_seq).
    rewrite (map_nth (fun i => nth i a 0%Z) (seq 0 (length a)) 0%nat n).
    now rewrite seq_nth.
Qed.

Lemma reorder_perm (a : list Z) (indices : list nat) :
  Permutation indices (seq 0 (length a)) ->
  Permutation (reorder a indices) a.
Proof.
  intro H.
  rewrite <- (reorder_seq a) at 2.
  unfold reorder. now apply Permutation_map.
Qed.

Lemma sumZ_perm (l l' : list Z) : Permutation l l' -> sumZ l = sumZ l'.
Proof.
  induction 1; simpl; lia.
Qed.

End ArgsortFacts.

Section MetricRefinement.

Import Metric.
Local Open Scope Q_scope.

Lemma fdiv_ok (a b : Q) : ~ b == 0 -> fdiv a b = Ok (a / b).
Proof.
  intro H. unfold fdiv.
  destruct (Qeq_bool b 0) eqn:E; [|reflexivity].
  apply Qeq_bool_iff in E. contradiction.
Qed.

Lemma fdiv_zero (a b : Q) : b == 0 -> fdiv a b = Raise ZeroDivide.
Proof.
  intro H. unfold fdiv.
  apply Qeq_bool_iff in H. now rewrite H.
Qed.

Lemma mapM_fdiv_ok (s : Q) (l : list Q) :
  ~ s == 0 ->
  mapM (fun w => fdiv w s) l = Ok (map (fun w => w / s) l).
Proof.
  intro H. induction l as [|w r IH]; simpl; [reflexivity|].
  rewrite (fdiv_ok w s H). simpl. now rewrite IH.
Qed.

Lemma mapM_fdiv_inj_ok (s : Q) (l : list Z) :
  ~ s == 0 ->
  mapM (fun t => fdiv (inject_Z t) s) l
  = Ok (map (fun t => inject_Z t / s) l).
Proof.
  intro H. induction l as [|w r IH]; simpl; [reflexivity|].
  rewrite (fdiv_ok _ s H). simpl. now rewrite IH.
Qed.

Lemma inject_Z_nonzero (z : Z) : z <> 0%Z -> ~ inject_Z z == 0.
Proof.
  intros Hz H. apply Hz.
  exact (proj1 (inject_Z_injective z 0) H).
Qed.

Lemma weight_of_binary (t : Z) :
  (t = 0 \/ t = 1)%Z -> 20 - inject_Z t * 19 == record_weight t.
Proof.
  intros [-> | ->]; reflexivity.
Qed.

Lemma sum_weight (target : list Z) :
  sumQ (map (fun t => 20 - inject_Z t * 19) target)
  == 20 * inject_Z (Z.of_nat (length target)) - 19 * inject_Z (sumZ target).
Proof.
  induction target as [|t r IH].
  - reflexivity.
  - cbn [map sumQ sumZ length]. rewrite IH, Nat2Z.inj_succ.
    unfold Z.succ. rewrite !inject_Z_plus. ring.
Qed.

Lemma sum_weight_total (target : list Z) :
  sumQ (map (fun t => 20 - inject_Z t * 19) target)
  == inject_Z (sumZ target)
     + 20 * inject_Z (Z.of_nat (length target) - sumZ target).
Proof.
  rewrite sum_weight. unfold Z.sub.
  rewrite inject_Z_plus, inject_Z_opp. ring.
Qed.

Lemma binary_sum_bounds (l : list Z) :
  binary l -> (0 <= sumZ l <= Z.of_nat (length l))%Z.
Proof.
  induction 1 as [|t r Ht _ IH]; cbn [sumZ length].
  - lia.
  - rewrite Nat2Z.inj_succ. destruct Ht; lia.
Qed.

Lemma binary_has_positive (l : list Z) :
  binary l -> In 1%Z l -> (1 <= sumZ l)%Z.
Proof.
  induction 1 as [|t r Ht Hr IH]; cbn [sumZ In]; [tauto|].
  pose proof (binary_sum_bounds r Hr).
  intros [-> | Hin]; [lia|].
  specialize (IH Hin). destruct Ht; lia.
Qed.

Lemma binary_has_negative (l : list Z) :
  binary l -> In 0%Z l -> (sumZ l + 1 <= Z.of_nat (length l))%Z.
Proof.
  induction 1 as [|t r Ht Hr IH]; cbn [sumZ In length]; [tauto|].
  pose proof (binary_sum_bounds r Hr).
  rewrite Nat2Z.inj_succ.
  intros [-> | Hin]; [lia|].
  specialize (IH Hin). destruct Ht; lia.
Qed.

(** The top-4% slice of the code and of the one-pass wording agree. *)
Lemma capture_refines (total s : Q) :
  ~ total == 0 -> s == total ->
  forall target acc seen_w,
    binary target -> acc == seen_w / total ->
    sumZ (masked target
            (map (fun c => Qle_bool c (4 # 100))
               (cumsum_from acc
                  (map (fun w => w / s)
                     (map (fun t => 20 - inject_Z t * 19) target)))))
    = capture_from total seen_w target.
Proof.
  intros Htot Hs.
  induction target as [|t r IH]; intros acc seen_w Hb Hacc; [reflexivity|].
  inversion Hb as [|? ? Ht Hr]; subst.
  cbn [map cumsum_from masked capture_from].
  assert (Hnext : acc + (20 - inject_Z t * 19) / s
                  == (seen_w + record_weight t) / total).
  { rewrite Hacc, (weight_of_binary t Ht), Hs. field. exact Htot. }
  rewrite (Qleb_comp _ _ Hnext _ _ (Qeq_refl _)).
  specialize (IH _ _ Hr Hnext).
  destruct (Qle_bool ((seen_w + record_weight t) / total) (4 # 100));
    cbn [sumZ]; rewrite IH; lia.
Qed.

(** The weighted sum of Lorenz gaps of the code and of the wording agree. *)
Lemma gini_refines (total s np : Q) :
  ~ total == 0 -> ~ np == 0 -> s == total ->
  forall target ap aw seen_w seen_pos,
    binary target -> ap == seen_pos / np -> aw == seen_w / total ->
    sumQ (gini_terms
            (cumsum_from ap (map (fun t => inject_Z t / np) target))
            (cumsum_from aw
               (map (fun w => w / s)
                  (map (fun t => 20 - inject_Z t * 19) target)))
            (map (fun t => 20 - inject_Z t * 19) target))
    == gini_from total np seen_w seen_pos target.
Proof.
  intros Htot Hnp Hs.
  induction target as [|t r IH]; intros ap aw seen_w seen_pos Hb Hap Haw;
    [reflexivity|].
  inversion Hb as [|? ? Ht Hr]; subst.
  cbn [map cumsum_from gini_terms gini_from sumQ].
  assert (Hw : aw + (20 - inject_Z t * 19) / s
               == (seen_w + record_weight t) / total).
  { rewrite Haw, (weight_of_binary t Ht), Hs. field. exact Htot. }
  assert (Hp : ap + inject_Z t / np == (seen_pos + inject_Z t) / np).
  { rewrite Hap. field. exact Hnp. }
  rewrite (IH _ _ _ _ Hr Hp Hw).
  rewrite Hw, Hp, (weight_of_binary t Ht). ring.
Qed.

End MetricRefinement.

Section MetricValue.

Import Metric.
Local Open Scope Q_scope.

(** With both classes present every division of the metric is defined, and
    the value is the one the one-pass wording gives on the sorted records. *)
Lemma amex_metric_at_value (indices : list nat) (y_true : list Z) :
  binary y_true ->
  Permutation indices (seq 0 (length y_true)) ->
  In 1%Z y_true -> In 0%Z y_true ->
  exists v, amex_metric_at indices y_true = Ok v
            /\ v == metric_spec (reorder y_true indices).
Proof.
  intros Hb Hperm Hpos Hneg.
  pose proof (reorder_perm y_true indices Hperm) as Hre.
  assert (Hbt : binary (reorder y_true indices)).
  { unfold binary. now rewrite Hre. }
  pose proof (sumZ_perm _ _ Hre) as Hsum.
  pose proof (Permutation_length Hre) as Hlen.
  pose proof (binary_has_positive _ Hb Hpos) as Hp.
  pose proof (binary_has_negative _ Hb Hneg) as Hn.
  unfold amex_metric_at.
  rewrite take_ok.
  2:{ intros i Hi. apply (Permutation_in _ Hperm) in Hi.
      apply in_seq in Hi. lia. }
  cbn [bind].
  set (target := reorder y_true indices) in *.
  set (n_pos := sumZ y_true) in *.
  set (n_neg := (Z.of_nat (length y_true) - n_pos)%Z) in *.
  set (total := inject_Z n_pos + 20 * inject_Z n_neg).
  assert (Hnpz : ~ inject_Z n_pos == 0).
  { apply inject_Z_nonzero. lia. }
  assert (Hnnz : ~ inject_Z n_neg == 0).
  { apply inject_Z_nonzero. lia. }
  assert (Hs : sumQ (map (fun t => 20 - inject_Z t * 19) target) == total).
  { rewrite sum_weight_total. unfold total, n_neg. now rewrite Hsum, Hlen. }
  assert (Htot_pos : 0 < total).
  { unfold total.
    assert (0 < inject_Z n_pos) by (change 0 with (inject_Z 0);
                                    rewrite <- Zlt_Qlt; lia).
    assert (0 < inject_Z n_neg) by (change 0 with (inject_Z 0);
                                    rewrite <- Zlt_Qlt; lia).
    lra. }
  assert (Htot : ~ total == 0) by lra.
  rewrite mapM_fdiv_ok by (rewrite Hs; exact Htot).
  cbn [bind].
  rewrite (fdiv_ok _ _ Hnpz). cbn [bind].
  rewrite (mapM_fdiv_inj_ok _ _ Hnpz). cbn [bind].
  unfold gini_max.
  assert (Hden : inject_Z (n_pos + 20 * n_neg) == total).
  { unfold total. rewrite inject_Z_plus, inject_Z_mult. reflexivity. }
  assert (H21 : 21 <= total).
  { rewrite <- Hden. change 21 with (inject_Z 21). rewrite <- Zle_Qle. lia. }
  rewrite fdiv_ok by (rewrite Hden; exact Htot).
  cbn [bind].
  assert (Hgm : ~ 10 * inject_Z n_neg * (1 - 19 / inject_Z (n_pos + 20 * n_neg)) == 0).
  { rewrite Hden. intro H.
    assert (Hq : (10 * inject_Z n_neg * (1 - 19 / total)) * total == 0)
      by (rewrite H; ring).
    assert (Hq' : 10 * inject_Z n_neg * (total - 19) == 0).
    { rewrite <- Hq. field. exact Htot. }
    assert (0 < inject_Z n_neg) by (change 0 with (inject_Z 0);
                                    rewrite <- Zlt_Qlt; lia).
    assert (0 < 10 * inject_Z n_neg * (total - 19)).
    { apply Qmult_lt_0_compat; lra. }
    lra. }
  rewrite (fdiv_ok _ _ Hgm). cbn [bind].
  eexists. split; [reflexivity|].
  unfold metric_spec. fold target.
  rewrite Hsum, Hlen. fold n_pos. fold n_neg. fold total.
  unfold cumsum.
  rewrite (capture_refines total _ Htot Hs target 0 0 Hbt)
    by (field; exact Htot).
  rewrite (gini_refines total _ (inject_Z n_pos) Htot Hnpz Hs target 0 0 0 0 Hbt)
    by (field; assumption).
  rewrite Hden. reflexivity.
Qed.

End MetricValue.

Section SortedFacts.

Variable A : Type.

Lemma StronglySorted_app (R : A -> A -> Prop) (l1 l2 : list A) :
  StronglySorted R l1 -> StronglySorted R l2 ->
  (forall a b, In a l1 -> In b l2 -> R a b) ->
  StronglySorted R (l1 ++ l2).
Proof.
  induction l1 as [|x r IH]; intros H1 H2 H12; simpl; [exact H2|].
  apply StronglySorted_inv in H1 as [Hr Hx].
  constructor.
  - apply IH; auto. intros a b Ha Hb. apply H12; [now right|exact Hb].
  - apply Forall_app. split; [exact Hx|].
    apply Forall_forall. intros b Hb. apply H12; [now left|exact Hb].
Qed.

Lemma StronglySorted_rev (R : A -> A -> Prop) (l : list A) :
  StronglySorted R l -> StronglySorted (fun a b => R b a) (rev l).
Proof.
  induction l as [|x r IH]; intro H; simpl; [constructor|].
  apply StronglySorted_inv in H as [Hr Hx].
  apply StronglySorted_app.
  - now apply IH.
  - repeat constructor.
  - intros a b Ha [<- | []].
    rewrite Forall_forall in Hx. apply Hx. now apply in_rev.
Qed.

Lemma StronglySorted_weaken (R S : A -> A -> Prop) (l : list A) :
  (forall a b, In a l -> In b l -> R a b -> S a b) ->
  StronglySorted R l -> StronglySorted S l.
Proof.
  induction l as [|x r IH]; intros HRS H; [constructor|].
  apply StronglySorted_inv in H as [Hr Hx].
  constructor.
  - apply IH; [|exact Hr].
    intros a b Ha Hb. apply HRS; now right.
  - rewrite Forall_forall in *. intros b Hb.
    apply HRS; [now left|now right|now apply Hx].
Qed.

Lemma StronglySorted_map (B : Type) (f : A -> B) (R : B -> B -> Prop)
      (l : list A) :
  StronglySorted (fun a b => R (f a) (f b)) l -> StronglySorted R (map f l).
Proof.
  induction 1 as [|x r Hr IH Hx]; simpl; constructor; [exact IH|].
  rewrite Forall_forall in *. intros b Hb.
  apply in_map_iff in Hb as [a [<- Ha]]. now apply Hx.
Qed.

(** Two sorted arrangements of the same elements coincide when the order
    never relates two elements both ways. *)
Lemma StronglySorted_unique (R : A -> A -> Prop) :
  (forall a b, R a b -> R b a -> False) ->
  forall l1 l2, StronglySorted R l1 -> StronglySorted R l2 ->
                Permutation l1 l2 -> l1 = l2.
Proof.
  intro Hasym.
  induction l1 as [|a r1 IH]; intros l2 H1 H2 Hp.
  - apply Permutation_nil in Hp. now subst.
  - destruct l2 as [|b r2].
    + apply Permutation_sym, Permutation_nil in Hp. discriminate.
    + apply StronglySorted_inv in H1 as [Hr1 Ha].
      apply StronglySorted_inv in H2 as [Hr2 Hb].
      rewrite Forall_forall in Ha, Hb.
      assert (Hab : a = b).
      { assert (Hin : In a (b :: r2))
          by (apply (Permutation_in _ Hp); now left).
        destruct Hin as [E | Hin]; [now symmetry|].
        assert (Hin' : In b (a :: r1))
          by (apply (Permutation_in _ (Permutation_sym Hp)); now left).
        destruct Hin' as [E | Hin']; [exact E|].
        exfalso. exact (Hasym a b (Ha b Hin') (Hb a Hin)). }
      subst b. f_equal.
      apply IH; auto. now apply Permutation_cons_inv in Hp.
Qed.

End SortedFacts.

Section TieOrder.

Import Metric.
Local Open Scope Q_scope.

Lemma place_sorted (i : nat) (v : Q) (l : list (nat * Q)) :
  StronglySorted asc_pair l ->
  Forall (fun p => (fst p < i)%nat) l ->
  StronglySorted asc_pair (place i v l).
Proof.
  induction l as [|[j w] r IH]; intros Hs Hlt; simpl.
  - repeat constructor.
  - apply StronglySorted_inv in Hs as [Hr Hj].
    inversion Hlt as [|? ? Hji Hri]; subst. simpl in Hji.
    destruct (ltQ v w) eqn:E.
    + apply ltQ_true in E.
      constructor; [constructor; assumption|].
      constructor; [left; exact E|].
      rewrite Forall_forall in *. intros [k u] Hk.
      specialize (Hj _ Hk). unfold asc_pair in *. simpl in *.
      left. destruct Hj as [Hj | [Hj _]]; lra.
    + apply ltQ_false in E.
      constructor; [now apply IH|].
      rewrite (place_perm i v r).
      constructor; [|exact Hj].
      unfold asc_pair. simpl.
      destruct (Qlt_le_dec w v) as [Hwv | Hvw]; [now left|].
      right. split; [lra|exact Hji].
Qed.

Lemma place_bound (i k : nat) (v : Q) (l : list (nat * Q)) :
  (i < k)%nat ->
  Forall (fun p => (fst p < i)%nat) l ->
  Forall (fun p => (fst p < k)%nat) (place i v l).
Proof.
  intros Hik Hl. rewrite (place_perm i v l).
  constructor; [exact Hik|].
  eapply Forall_impl; [|exact Hl]. simpl. intros; lia.
Qed.

Lemma argsort_from_sorted (y : list Q) : forall i acc,
  StronglySorted asc_pair acc ->
  Forall (fun p => (fst p < i)%nat) acc ->
  StronglySorted asc_pair (argsort_from i y acc).
Proof.
  induction y as [|v r IH]; intros i acc Hs Hb; simpl; [exact Hs|].
  apply IH.
  - now apply place_sorted.
  - apply place_bound; [lia|exact Hb].
Qed.

Lemma in_combine_seq (y : list Q) : forall i j w,
  In (j, w) (combine (seq i (length y)) y) ->
  (i <= j)%nat /\ nth (j - i) y 0 = w.
Proof.
  induction y as [|v r IH]; intros i j w H; simpl in H; [contradiction|].
  destruct H as [H | H].
  - injection H as <- <-. split; [lia|]. now rewrite Nat.sub_diag.
  - apply IH in H as [Hle Hn]. split; [lia|].
    replace (j - i)%nat with (S (j - S i)) by lia. exact Hn.
Qed.

Lemma argsort_pairs (y : list Q) (p : nat * Q) :
  In p (argsort_from 0 y []) -> snd p = nth (fst p) y 0.
Proof.
  intro H.
  apply (Permutation_in _ (argsort_from_perm y 0 [])) in H.
  simpl in H. destruct p as [j w].
  apply in_combine_seq in H as [_ H].
  rewrite Nat.sub_0_r in H. simpl. now symmetry.
Qed.

(** After line 72 the scores never increase along [indices], and two records
    with the same score stand in decreasing order of their input position. *)
Lemma sort_indices_sorted (y : list Q) :
  StronglySorted (before_reversed y) (sort_indices y).
Proof.
  unfold sort_indices, argsort.
  rewrite <- map_rev.
  apply StronglySorted_map.
  assert (Hs : StronglySorted asc_pair (argsort_from 0 y []))
    by (apply argsort_from_sorted; constructor).
  apply StronglySorted_rev in Hs.
  eapply StronglySorted_weaken; [|exact Hs].
  intros a b Ha Hb Hab. simpl in Hab.
  apply in_rev in Ha. apply in_rev in Hb.
  apply argsort_pairs in Ha. apply argsort_pairs in Hb.
  unfold before_reversed, asc_pair in *.
  rewrite <- Ha, <- Hb.
  destruct Hab as [Hab | [Hab Hlt]]; [now left|].
  right. split; [lra|exact Hlt].
Qed.

Lemma before_reversed_asym (y : list Q) (i j : nat) :
  before_reversed y i j -> before_reversed y j i -> False.
Proof.
  unfold before_reversed.
  intros [H1 | [H1 L1]] [H2 | [H2 L2]]; try lra. lia.
Qed.

Lemma place_desc_perm (i : nat) (v : Q) (l : list (nat * Q)) :
  Permutation (place_desc i v l) ((i, v) :: l).
Proof.
  induction l as [|[j w] r IH]; simpl.
  - apply Permutation_refl.
  - destruct (ltQ v w).
    + apply perm_trans with ((j, w) :: (i, v) :: r).
      * now apply perm_skip.
      * apply perm_swap.
    + apply Permutation_refl.
Qed.

Lemma place_desc_sorted (i : nat) (v : Q) (l : list (nat * Q)) :
  StronglySorted desc_pair l ->
  Forall (fun p => (i < fst p)%nat) l ->
  StronglySorted desc_pair (place_desc i v l).
Proof.
  induction l as [|[j w] r IH]; intros Hs Hlt; simpl.
  - repeat constructor.
  - apply StronglySorted_inv in Hs as [Hr Hj].
    inversion Hlt as [|? ? Hji Hri]; subst. simpl in Hji.
    destruct (ltQ v w) eqn:E.
    + apply ltQ_true in E.
      constructor; [now apply IH|].
      rewrite (place_desc_perm i v r).
      constructor; [|exact Hj].
      left. exact E.
    + apply ltQ_false in E.
      constructor; [constructor; assumption|].
      assert (Hiw : desc_pair (i, v) (j, w)).
      { unfold desc_pair. simpl.
        destruct (Qlt_le_dec w v) as [Hwv | Hvw]; [now left|].
        right. split; [lra|exact Hji]. }
      constructor; [exact Hiw|].
      rewrite Forall_forall in *. intros [k u] Hk.
      specialize (Hj _ Hk). specialize (Hri _ Hk).
      unfold desc_pair in *. simpl in *.
      destruct Hj as [Hj | [Hj Hjk]].
      * left. lra.
      * destruct (Qlt_le_dec w v) as [Hwv | Hvw]; [left; lra|].
        right. split; [lra|lia].
Qed.

End TieOrder.

Section StableOrder.

Import Metric.
Local Open Scope Q_scope.

Lemma stable_desc_from_perm (y : list Q) : forall i,
  Permutation (stable_desc_from i y) (combine (seq i (length y)) y).
Proof.
  induction y as [|v r IH]; intro i; simpl; [constructor|].
  rewrite place_desc_perm. now apply perm_skip.
Qed.

Lemma stable_desc_from_sorted (y : list Q) : forall i,
  StronglySorted desc_pair (stable_desc_from i y).
Proof.
  induction y as [|v r IH]; intro i; simpl; [constructor|].
  apply place_desc_sorted; [apply IH|].
  rewrite (stable_desc_from_perm r (S i)).
  apply Forall_forall. intros [j w] H.
  apply in_combine_seq in H as [H _]. simpl. lia.
Qed.

Lemma stable_desc_indices_perm (y : list Q) :
  Permutation (stable_desc_indices y) (seq 0 (length y)).
Proof.
  unfold stable_desc_indices.
  rewrite <- (fst_combine_seq y 0).
  apply Permutation_map, stable_desc_from_perm.
Qed.

(** [stable_desc_indices] is the descending order that keeps equal scores
    in input order. *)
Lemma stable_desc_indices_sorted (y : list Q) :
  StronglySorted (before_stable y) (stable_desc_indices y).
Proof.
  unfold stable_desc_indices.
  apply StronglySorted_map.
  eapply StronglySorted_weaken; [|apply stable_desc_from_sorted].
  intros [j w] [k u] Ha Hb Hab.
  apply (Permutation_in _ (stable_desc_from_perm y 0)) in Ha, Hb.
  apply in_combine_seq in Ha as [_ Ha]. apply in_combine_seq in Hb as [_ Hb].
  rewrite Nat.sub_0_r in Ha, Hb.
  unfold before_stable, desc_pair in *. simpl in *. subst w u.
  exact Hab.
Qed.

End StableOrder.

Section RescalingFacts.

Import Metric.
Local Open Scope Q_scope.

Variable f : Q -> Q.
Hypothesis f_order : order_preserving f.

Lemma ltQ_rescaled (a b : Q) : ltQ (f a) (f b) = ltQ a b.
Proof.
  destruct (ltQ a b) eqn:E.
  - apply ltQ_true in E. apply ltQ_true. now apply (proj1 (f_order a b)).
  - destruct (ltQ (f a) (f b)) eqn:E'; [|reflexivity].
    apply ltQ_true in E'. apply (proj2 (f_order a b)) in E'.
    apply ltQ_true in E'. congruence.
Qed.

Lemma place_rescaled (i : nat) (v : Q) (l : list (nat * Q)) :
  place i (f v) (map (rescale_pair f) l) = map (rescale_pair f) (place i v l).
Proof.
  induction l as [|[j w] r IH]; simpl; [reflexivity|].
  rewrite ltQ_rescaled.
  destruct (ltQ v w); simpl; [reflexivity|].
  now rewrite IH.
Qed.

Lemma argsort_from_rescaled (y : list Q) : forall i acc,
  argsort_from i (map f y) (map (rescale_pair f) acc)
  = map (rescale_pair f) (argsort_from i y acc).
Proof.
  induction y as [|v r IH]; intros i acc; simpl; [reflexivity|].
  now rewrite place_rescaled, IH.
Qed.

Lemma sort_indices_rescaled (y : list Q) :
  sort_indices (map f y) = sort_indices y.
Proof.
  unfold sort_indices, argsort. f_equal.
  change (@nil (nat * Q)) with (map (rescale_pair f) []) at 1.
  rewrite argsort_from_rescaled, map_map. reflexivity.
Qed.

End RescalingFacts.

Section ZeroDivisors.

Import Metric.
Local Open Scope Q_scope.

Lemma fdiv_raise (a b : Q) (e : fault) :
  fdiv a b = Raise e -> e = ZeroDivide.
Proof.
  unfold fdiv. destruct (Qeq_bool b 0); congruence.
Qed.

Lemma mapM_raise (A B : Type) (g : A -> res B) (l : list A) (e : fault) :
  (forall x e', g x = Raise e' -> e' = ZeroDivide) ->
  mapM g l = Raise e -> e = ZeroDivide.
Proof.
  intro Hg. induction l as [|x r IH]; simpl; [discriminate|].
  destruct (g x) eqn:E; simpl.
  - destruct (mapM g r); simpl; [discriminate|].
    intro H. apply IH. congruence.
  - intro H. apply (Hg x). congruence.
Qed.

Lemma take_sorted_ok (y_true : list Z) (y_pred : list Q) :
  length y_true = length y_pred ->
  take y_true (sort_indices y_pred) = Ok (reorder y_true (sort_indices y_pred)).
Proof.
  intro H. apply take_ok. intros i Hi.
  apply sort_indices_bound in Hi. lia.
Qed.

Lemma amex_metric_refines_value (y_true : list Z) (y_pred : list Q) :
  binary y_true ->
  length y_true = length y_pred ->
  In 1%Z y_true -> In 0%Z y_true ->
  exists v, amex_metric y_true y_pred = Ok v.
Proof.
  intros Hb Hlen Hpos Hneg.
  destruct (amex_metric_at_value (sort_indices y_pred) y_true) as [v [Hv _]];
    auto.
  - rewrite Hlen. apply sort_indices_perm.
  - now exists v.
Qed.

End ZeroDivisors.

(** * The metric in any arithmetic, and the order of line 72 whatever the sort *)

Section InArithmeticFacts.

Import Metric.

Variable F : Type.
Variable A : arith F.

(** On a label the expression of line 77 is the weight of the wording. *)
Lemma weight_in_binary (target : list Z) :
  weights_exact A -> binary target ->
  map (weight_in A) target = map (record_weight_in A) target.
Proof.
  intros [H0 H1] Hb. apply map_ext_in. intros t Ht.
  unfold binary in Hb. rewrite Forall_forall in Hb.
  unfold record_weight_in.
  destruct (Hb t Ht) as [-> | ->]; [exact H0|exact H1].
Qed.

(** The walk over the records yields what the arrays of lines 78-86 hold:
    the captured positives are those under the mask, the Gini terms are the
    element-wise products. *)
Lemma walk_scan (total : F) (n_pos : Z) : forall target seen_w seen_pos,
  fst (walk A total n_pos seen_w seen_pos target)
  = sumZ (masked target
            (map (fun c => f_leb A c (f_four_pct A))
                 (scan A seen_w
                    (map (fun t => f_div A (record_weight_in A t) total)
                         target))))
  /\ snd (walk A total n_pos seen_w seen_pos target)
     = gini_terms_in A
         (scan A seen_pos
            (map (fun t => f_div A (f_of_int A t) (f_of_int A n_pos)) target))
         (scan A seen_w
            (map (fun t => f_div A (record_weight_in A t) total) target))
         (map (record_weight_in A) target).
Proof.
  induction target as [|t r IH]; intros seen_w seen_pos; [now split|].
  cbn [walk map scan masked gini_terms_in fst snd].
  destruct (IH (Some (step A seen_w (f_div A (record_weight_in A t) total)))
               (Some (step A seen_pos
                        (f_div A (f_of_int A t) (f_of_int A n_pos)))))
    as [IH1 IH2].
  rewrite IH1, IH2. split; [|reflexivity].
  destruct (f_leb A _ (f_four_pct A)); cbn [sumZ]; lia.
Qed.

(** Lines 74-94 compute the value of the wording over the records in the
    order [indices], whenever [indices] arranges all positions. *)
Lemma amex_metric_in_value (indices : list nat) (y_true : list Z) :
  weights_exact A -> binary y_true ->
  Permutation indices (seq 0 (length y_true)) ->
  amex_metric_in A indices y_true
  = Ok (metric_words A y_true (reorder y_true indices)).
Proof.
  intros Hw Hb Hp.
  assert (Hbt : binary (reorder y_true indices)).
  { unfold binary.
    eapply Permutation_Forall; [|exact Hb].
    apply Permutation_sym, reorder_perm, Hp. }
  unfold amex_metric_in.
  rewrite take_ok.
  2:{ intros i Hi. apply (Permutation_in _ Hp) in Hi.
      apply in_seq in Hi. lia. }
  cbn [bind]. f_equal.
  unfold metric_words, cumsum_in.
  rewrite (weight_in_binary _ Hw Hbt), map_map.
  destruct (walk_scan
              (f_sum A (map (record_weight_in A) (reorder y_true indices)))
              (sumZ y_true) (reorder y_true indices) None None) as [H1 H2].
  now rewrite H1, H2.
Qed.

End InArithmeticFacts.

Section Line72Facts.

Import Metric.
Local Open Scope Q_scope.

Lemma line72_perm (y_pred : list Q) (indices : list nat) :
  line72 y_pred indices -> Permutation indices (seq 0 (length y_pred)).
Proof.
  intros [asc [[Hp _] ->]].
  eapply perm_trans; [apply Permutation_sym, Permutation_rev|exact Hp].
Qed.

Lemma line72_sorted (y_pred : list Q) (indices : list nat) :
  line72 y_pred indices ->
  StronglySorted (fun i j => nth j y_pred 0 <= nth i y_pred 0) indices.
Proof.
  intros [asc [[_ Hs] ->]].
  exact (StronglySorted_rev _ _ _ Hs).
Qed.

(** The stable sort of the model is one of the sorts line 72 allows. *)
Lemma argsort_stable_ascending (y_pred : list Q) :
  stable_ascending y_pred (argsort y_pred).
Proof.
  unfold stable_ascending, argsort.
  apply StronglySorted_map.
  eapply StronglySorted_weaken;
    [|apply (argsort_from_sorted y_pred 0 []); constructor].
  intros a b Ha Hb Hab.
  apply argsort_pairs in Ha. apply argsort_pairs in Hb.
  unfold asc_pair in Hab. now rewrite <- Ha, <- Hb.
Qed.

Lemma stable_ascending_ascending (y_pred : list Q) (asc : list nat) :
  stable_ascending y_pred asc ->
  StronglySorted (fun i j => nth i y_pred 0 <= nth j y_pred 0) asc.
Proof.
  apply StronglySorted_weaken.
  intros i j _ _ [H | [H _]]; lra.
Qed.

Lemma sort_indices_line72 (y_pred : list Q) :
  line72 y_pred (sort_indices y_pred).
Proof.
  exists (argsort y_pred). split; [|reflexivity].
  split; [apply argsort_perm|].
  apply stable_ascending_ascending, argsort_stable_ascending.
Qed.

(** Read backwards, a stable ascending arrangement has equal scores in
    decreasing input position. *)
Lemma stable_ascending_rev (y_pred : list Q) (asc : list nat) :
  stable_ascending y_pred asc ->
  StronglySorted (before_reversed y_pred) (rev asc).
Proof.
  intro H. apply StronglySorted_rev in H.
  eapply StronglySorted_weaken; [|exact H].
  unfold before_reversed.
  intros i j _ _ [Hlt | [Heq Hlt]]; [now left|].
  right. split; [lra|exact Hlt].
Qed.

Lemma StronglySorted_weaken_distinct (R S : nat -> nat -> Prop)
      (l : list nat) :
  NoDup l ->
  (forall a b, In a l -> In b l -> a <> b -> R a b -> S a b) ->
  StronglySorted R l -> StronglySorted S l.
Proof.
  induction l as [|x r IH]; intros Hn HRS H; [constructor|].
  apply StronglySorted_inv in H as [Hr Hx].
  apply NoDup_cons_iff in Hn as [Hnx Hn].
  constructor.
  - apply IH; [exact Hn| |exact Hr].
    intros a b Ha Hb. apply HRS; now right.
  - rewrite Forall_forall in *. intros b Hb.
    apply HRS; [now left|now right| |now apply Hx].
    intro E. subst b. contradiction.
Qed.

Lemma distinct_scores_neq (y_pred : list Q) (i j : nat) :
  distinct_scores y_pred ->
  (i < length y_pred)%nat -> (j < length y_pred)%nat -> i <> j ->
  ~ nth i y_pred 0 == nth j y_pred 0.
Proof.
  intros Hd Hi Hj Hij E.
  destruct (Nat.lt_ge_cases i j) as [L | L].
  - apply (Hd i j); [lia|exact E].
  - apply (Hd j i); [lia|]. symmetry. exact E.
Qed.

(** Without equal scores there is one descending arrangement. *)
Lemma descending_unique (y_pred : list Q) (l1 l2 : list nat) :
  distinct_scores y_pred ->
  Permutation l1 (seq 0 (length y_pred)) ->
  Permutation l2 (seq 0 (length y_pred)) ->
  StronglySorted (fun i j => nth j y_pred 0 <= nth i y_pred 0) l1 ->
  StronglySorted (fun i j => nth j y_pred 0 <= nth i y_pred 0) l2 ->
  l1 = l2.
Proof.
  intros Hd Hp1 Hp2 Hs1 Hs2.
  assert (Hstrict : forall l,
             Permutation l (seq 0 (length y_pred)) ->
             StronglySorted (fun i j => nth j y_pred 0 <= nth i y_pred 0) l ->
             StronglySorted (fun i j => nth j y_pred 0 < nth i y_pred 0) l).
  { intros l Hp. apply StronglySorted_weaken_distinct.
    - apply (Permutation_NoDup (Permutation_sym Hp)), seq_NoDup.
    - intros a b Ha Hb Hab Hle.
      apply (Permutation_in _ Hp) in Ha, Hb.
      apply in_seq in Ha, Hb.
      assert (Hne := distinct_scores_neq y_pred a b Hd
                       ltac:(lia) ltac:(lia) Hab).
      destruct (Qlt_le_dec (nth b y_pred 0) (nth a y_pred 0)) as [L | L];
        [exact L|].
      exfalso. apply Hne. lra. }
  apply (StronglySorted_unique nat
           (fun i j => nth j y_pred 0 < nth i y_pred 0)).
  - intros a b H1 H2. lra.
  - now apply Hstrict.
  - now apply Hstrict.
  - rewrite Hp1. now symmetry.
Qed.

Lemma stable_desc_indices_descending (y_pred : list Q) :
  StronglySorted (fun i j => nth j y_pred 0 <= nth i y_pred 0)
    (stable_desc_indices y_pred).
Proof.
  eapply StronglySorted_weaken; [|apply stable_desc_indices_sorted].
  unfold before_stable. intros i j _ _ [H | [H _]]; lra.
Qed.

End Line72Facts.
(** * The claims about [amex_metric] *)

Section MetricClaims.

Import Metric.
Local Open Scope Q_scope.

(** C2: for binary [y_true] and [y_pred] of the same length with at least one
    positive and one negative, in whatever arithmetic the arrays are computed
    (binary64 as well as exact numbers) and whatever order [np.argsort] gives
    equal predictions, [indices] of line 72 arranges all the records, the
    predictions never increase along it, and [amex_metric] returns the value
    of the specification's wording over the records so arranged: weight 20 for
    a negative and 1 for a positive, capture rate over the records whose
    cumulative normalized weight is at most 0.04, weighted Gini divided by
    [10 * n_neg * (1 - 19 / (n_pos + 20 * n_neg))], and half their sum. *)
Theorem amex_metric_in_refines_words
        (F : Type) (A : arith F)
        (y_true : list Z) (y_pred : list Q) (indices : list nat) :
  weights_exact A ->
  binary y_true ->
  length y_true = length y_pred ->
  In 1%Z y_true -> In 0%Z y_true ->
  line72 y_pred indices ->
  Permutation indices (seq 0 (length y_true))
  /\ StronglySorted (fun i j => nth j y_pred 0 <= nth i y_pred 0) indices
  /\ Permutation (reorder y_true indices) y_true
  /\ amex_metric_in A indices y_true
     = Ok (metric_words A y_true (reorder y_true indices)).
Proof.
  intros Hw Hb Hlen _ _ H72.
  assert (Hp : Permutation indices (seq 0 (length y_true)))
    by (rewrite Hlen; now apply line72_perm).
  split; [exact Hp|].
  split; [now apply line72_sorted|].
  split; [now apply reorder_perm|].
  now apply amex_metric_in_value.
Qed.

Lemma amex_metric_in_refines_words_witness :
  amex_metric_in f64_arith [2; 0; 1]%nat [1; 0; 0]%Z
  = Ok (metric_words f64_arith [1; 0; 0]%Z
          (reorder [1; 0; 0]%Z [2; 0; 1]%nat)).
Proof.
  apply (fun w b l p n s =>
           proj2 (proj2 (proj2
             (amex_metric_in_refines_words
                PrimFloat.float f64_arith
                [1; 0; 0]%Z [1 # 2; 1 # 3; 3 # 4] [2; 0; 1]%nat
                w b l p n s)))).
  - split; reflexivity.
  - repeat (apply Forall_cons; [lia|]). apply Forall_nil.
  - reflexivity.
  - simpl; auto.
  - simpl; auto.
  - exists [1; 0; 2]%nat. split; [|reflexivity]. split.
    + simpl. apply perm_swap.
    + repeat (apply SSorted_cons
              || apply SSorted_nil || apply Forall_cons || apply Forall_nil);
        simpl; lra.
Defined.

(** C3, as stated, fails: with two equal scores line 72 lists the later
    record first, so the order is not the stable input order, and the metric
    differs from the one computed with ties in input order (-10 against 1/2). *)
Lemma sort_indices_ties_not_in_input_order :
  sort_indices [1 # 2; 1 # 2] = [1; 0]%nat
  /\ stable_desc_indices [1 # 2; 1 # 2] = [0; 1]%nat
  /\ ~ StronglySorted (before_stable [1 # 2; 1 # 2])
         (sort_indices [1 # 2; 1 # 2])
  /\ exists a b,
      amex_metric [1; 0]%Z [1 # 2; 1 # 2] = Ok a
      /\ amex_metric_at (stable_desc_indices [1 # 2; 1 # 2]) [1; 0]%Z = Ok b
      /\ a == - (10) /\ b == 1 # 2 /\ ~ a == b.
Proof.
  split; [reflexivity|]. split; [reflexivity|]. split.
  - change (sort_indices [1 # 2; 1 # 2]) with [1; 0]%nat.
    intro H. apply StronglySorted_inv in H as [_ H].
    inversion H as [|? ? H10 _]; subst.
    unfold before_stable in H10. simpl in H10.
    destruct H10 as [H10 | [_ H10]]; [lra|lia].
  - eexists. eexists.
    split; [vm_compute; reflexivity|].
    split; [vm_compute; reflexivity|].
    split; [reflexivity|]. split; [reflexivity|].
    intro H. vm_compute in H. discriminate.
Qed.

(** C3, amended: [indices] is an ascending arrangement of all positions read
    backwards, so the predictions never increase along it; equal predictions
    stand in the reverse of the order [np.argsort] gave them, which its
    default sort does not fix.  Where that order is the input order (a stable
    sort) equal predictions stand in decreasing input position; without
    equal predictions [indices] is the stable descending order and the metric,
    in any arithmetic, is the one computed with it. *)
Theorem line72_tie_order (y_pred : list Q) (asc indices : list nat) :
  ascending y_pred asc ->
  indices = rev asc ->
  (Permutation indices (seq 0 (length y_pred))
   /\ StronglySorted (fun i j => nth j y_pred 0 <= nth i y_pred 0) indices)
  /\ (stable_ascending y_pred asc ->
      StronglySorted (before_reversed y_pred) indices
      /\ indices = sort_indices y_pred)
  /\ (distinct_scores y_pred ->
      indices = stable_desc_indices y_pred
      /\ forall (F : Type) (A : arith F) (y_true : list Z),
          amex_metric_in A indices y_true
          = amex_metric_in A (stable_desc_indices y_pred) y_true).
Proof.
  intros Hasc ->.
  assert (H72 : line72 y_pred (rev asc)) by (now exists asc).
  split; [split; [now apply line72_perm|now apply line72_sorted]|].
  split.
  - intro Hst.
    assert (Hs := stable_ascending_rev _ _ Hst).
    split; [exact Hs|].
    apply (StronglySorted_unique nat (before_reversed y_pred)).
    + apply before_reversed_asym.
    + exact Hs.
    + apply sort_indices_sorted.
    + rewrite (line72_perm _ _ H72). symmetry. apply sort_indices_perm.
  - intro Hd.
    assert (E : rev asc = stable_desc_indices y_pred).
    { apply (descending_unique y_pred); auto.
      - now apply line72_perm.
      - apply stable_desc_indices_perm.
      - now apply line72_sorted.
      - apply stable_desc_indices_descending. }
    split; [exact E|]. intros F A y_true. now rewrite E.
Qed.

Lemma line72_tie_order_witness :
  StronglySorted (before_reversed [1 # 2; 1 # 3; 1 # 2]) [2; 0; 1]%nat
  /\ [2; 0; 1]%nat = sort_indices [1 # 2; 1 # 3; 1 # 2].
Proof.
  apply (fun a e s =>
           proj1 (proj2 (line72_tie_order
                           [1 # 2; 1 # 3; 1 # 2] [1; 0; 2]%nat [2; 0; 1]%nat
                           a e)) s).
  - split.
    + simpl. apply perm_swap.
    + repeat (apply SSorted_cons
              || apply SSorted_nil || apply Forall_cons || apply Forall_nil);
        simpl; lra.
  - reflexivity.
  - repeat (apply SSorted_cons
            || apply SSorted_nil || apply Forall_cons || apply Forall_nil);
      simpl; first [left; lra | right; split; [reflexivity|lia]].
Defined.

(** C4: for binary [y_true] with both classes present and an order-preserving
    rescaling [f] of the scores, [amex_metric] returns the same value on
    [f(y_pred)] as on [y_pred]. *)
Theorem amex_metric_rescaling_invariant
        (f : Q -> Q) (y_true : list Z) (y_pred : list Q) :
  order_preserving f ->
  binary y_true ->
  length y_true = length y_pred ->
  In 1%Z y_true -> In 0%Z y_true ->
  exists v, amex_metric y_true y_pred = Ok v
            /\ amex_metric y_true (map f y_pred) = Ok v.
Proof.
  intros Hf Hb Hlen Hpos Hneg.
  destruct (amex_metric_refines_value y_true y_pred Hb Hlen Hpos Hneg)
    as [v Hv].
  exists v. split; [exact Hv|].
  unfold amex_metric in *. now rewrite (sort_indices_rescaled f Hf).
Qed.

Lemma amex_metric_rescaling_invariant_witness :
  exists v,
    amex_metric [0; 1; 0]%Z [1 # 2; 1 # 3; 3 # 4] = Ok v
    /\ amex_metric [0; 1; 0]%Z
         (map (fun x => 2 * x + 1) [1 # 2; 1 # 3; 3 # 4]) = Ok v.
Proof.
  apply (amex_metric_rescaling_invariant (fun x => 2 * x + 1)).
  - intros x y. split; intro H; lra.
  - repeat (apply Forall_cons; [lia|]). apply Forall_nil.
  - reflexivity.
  - simpl; auto.
  - simpl; auto.
Defined.

(** C6: when [y_true] sums to zero ([n_pos == 0]) the divisions by [n_pos] of
    the capture rate and of the Lorenz curve are divisions by zero, and
    [amex_metric] yields no score. *)
Theorem amex_metric_no_positive (y_true : list Z) (y_pred : list Q) :
  length y_true = length y_pred ->
  sumZ y_true = 0%Z ->
  (forall x, fdiv x (inject_Z (sumZ y_true)) = Raise ZeroDivide)
  /\ amex_metric y_true y_pred = Raise ZeroDivide.
Proof.
  intros Hlen Hz.
  assert (Hd : forall x, fdiv x (inject_Z (sumZ y_true)) = Raise ZeroDivide).
  { intro x. apply fdiv_zero. rewrite Hz. reflexivity. }
  split; [exact Hd|].
  unfold amex_metric, amex_metric_at.
  rewrite (take_sorted_ok _ _ Hlen). cbn [bind].
  match goal with
  | |- bind ?m _ = _ => destruct m as [nw | e] eqn:E
  end; cbn [bind].
  - now rewrite Hd.
  - f_equal. eapply mapM_raise; [|exact E].
    intros x e'. apply fdiv_raise.
Qed.

Lemma amex_metric_no_positive_witness :
  amex_metric [0; 0; 0]%Z [1 # 2; 1 # 3; 3 # 4] = Raise ZeroDivide.
Proof.
  apply (amex_metric_no_positive [0; 0; 0]%Z [1 # 2; 1 # 3; 3 # 4]);
    reflexivity.
Defined.

(** C8: when [y_true] has no negatives ([n_neg == 0]) the normalizing
    denominator [gini_max] is zero, the division [gini / gini_max] is a
    division by zero, and [amex_metric] yields no score. *)
Theorem amex_metric_no_negative (y_true : list Z) (y_pred : list Q) :
  length y_true = length y_pred ->
  (Z.of_nat (length y_true) - sumZ y_true = 0)%Z ->
  (sumZ y_true <> 0%Z ->
   exists gmax, gini_max (sumZ y_true) 0 = Ok gmax /\ gmax == 0)
  /\ amex_metric y_true y_pred = Raise ZeroDivide.
Proof.
  intros Hlen Hn. split.
  - intro Hp. unfold gini_max.
    rewrite fdiv_ok.
    + cbn [bind]. eexists. split; [reflexivity|].
      change (inject_Z 0) with 0. ring.
    + apply inject_Z_nonzero. lia.
  - unfold amex_metric, amex_metric_at.
    rewrite (take_sorted_ok _ _ Hlen). cbn [bind]. rewrite Hn.
    repeat match goal with
    | |- bind ?m _ = _ =>
        let E := fresh "E" in
        destruct m as [? | ?] eqn:E; cbn [bind];
        [| f_equal;
           first [ exact (fdiv_raise _ _ _ E)
                 | eapply mapM_raise; [|exact E];
                   intros ? ?; apply fdiv_raise ] ]
    end.
    unfold gini_max.
    destruct (fdiv 19 (inject_Z (sumZ y_true + 20 * 0))) as [r | e] eqn:Er;
      cbn [bind].
    + rewrite fdiv_zero; [reflexivity|].
      change (inject_Z 0) with 0. ring.
    + f_equal. exact (fdiv_raise _ _ _ Er).
Qed.

Lemma amex_metric_no_negative_witness :
  amex_metric [1; 1; 1]%Z [1 # 2; 1 # 3; 3 # 4] = Raise ZeroDivide.
Proof.
  apply (amex_metric_no_negative [1; 1; 1]%Z [1 # 2; 1 # 3; 3 # 4]);
    reflexivity.
Defined.

End MetricClaims.

(** * Further properties of [amex_metric] *)

Section MetricOutcomes.

Import Metric.
Local Open Scope Q_scope.

Lemma binary_without_positive (l : list Z) :
  binary l -> ~ In 1%Z l -> sumZ l = 0%Z.
Proof.
  induction 1 as [|t r Ht _ IH]; intro Hn; [reflexivity|].
  cbn [sumZ]. rewrite IH by (intro; apply Hn; now right).
  destruct Ht as [-> | ->]; [reflexivity|].
  exfalso. apply Hn. now left.
Qed.

Lemma binary_without_negative (l : list Z) :
  binary l -> ~ In 0%Z l -> (Z.of_nat (length l) - sumZ l = 0)%Z.
Proof.
  induction 1 as [|t r Ht _ IH]; intro Hn; [reflexivity|].
  cbn [sumZ length]. rewrite Nat2Z.inj_succ.
  assert (IH' : (Z.of_nat (length r) - sumZ r = 0)%Z)
    by (apply IH; intro; apply Hn; now right).
  destruct Ht as [-> | ->]; [|lia].
  exfalso. apply Hn. now left.
Qed.

(** Once the labels have been read, nothing but a zero divisor stops
    [amex_metric]. *)
Lemma amex_metric_at_faults (indices : list nat) (y_true target : list Z)
      (e : fault) :
  take y_true indices = Ok target ->
  amex_metric_at indices y_true = Raise e -> e = ZeroDivide.
Proof.
  intro Ht. unfold amex_metric_at. rewrite Ht. cbn [bind].
  repeat match goal with
  | |- bind ?m _ = _ -> _ =>
      let E := fresh "E" in
      destruct m as [? | ?] eqn:E; cbn [bind];
      [| intros [= <-];
         first [ exact (fdiv_raise _ _ _ E)
               | eapply mapM_raise; [|exact E];
                 intros ? ?; apply fdiv_raise ] ]
  end.
  - unfold gini_max.
    destruct (fdiv 19 _) as [r | e'] eqn:Er; cbn [bind].
    + match goal with
      | |- bind ?m _ = _ -> _ => destruct m as [g | e''] eqn:Eg
      end; cbn [bind]; [intros [=]|].
      intros [= <-]. exact (fdiv_raise _ _ _ Eg).
    + intros [= <-]. exact (fdiv_raise _ _ _ Er).
Qed.

Lemma metric_faults_without_positive (y_true : list Z) (y_pred : list Q) :
  length y_true = length y_pred ->
  sumZ y_true = 0%Z ->
  amex_metric y_true y_pred = Raise ZeroDivide.
Proof.
  intros Hlen Hz.
  unfold amex_metric, amex_metric_at.
  rewrite (take_sorted_ok _ _ Hlen). cbn [bind].
  match goal with
  | |- bind ?m _ = _ => destruct m as [nw | e] eqn:E
  end; cbn [bind].
  - rewrite fdiv_zero; [reflexivity|]. rewrite Hz. reflexivity.
  - f_equal. eapply mapM_raise; [|exact E].
    intros x e'. apply fdiv_raise.
Qed.

Lemma metric_faults_without_negative (y_true : list Z) (y_pred : list Q) :
  length y_true = length y_pred ->
  (Z.of_nat (length y_true) - sumZ y_true = 0)%Z ->
  amex_metric y_true y_pred = Raise ZeroDivide.
Proof.
  intros Hlen Hn.
  destruct (amex_metric y_true y_pred) as [v | e] eqn:E.
  - exfalso. revert E.
    unfold amex_metric, amex_metric_at.
    rewrite (take_sorted_ok _ _ Hlen). cbn [bind]. rewrite Hn.
    do 3 match goal with
    | |- bind ?m _ = _ -> _ =>
        destruct m as [? | ?]; cbn [bind]; [|discriminate]
    end.
    unfold gini_max.
    destruct (fdiv 19 _) as [r | e']; cbn [bind]; [|discriminate].
    rewrite fdiv_zero; [discriminate|].
    change (inject_Z 0) with 0. ring.
  - f_equal.
    eapply amex_metric_at_faults; [apply (take_sorted_ok _ _ Hlen)|exact E].
Qed.

(** X1: on binary labels and as many predictions, [amex_metric] returns a
    score exactly when both classes occur among the labels. *)
Theorem amex_metric_defined_iff (y_true : list Z) (y_pred : list Q) :
  binary y_true ->
  length y_true = length y_pred ->
  (exists v, amex_metric y_true y_pred = Ok v)
  <-> In 1%Z y_true /\ In 0%Z y_true.
Proof.
  intros Hb Hlen. split.
  - intros [v Hv].
    destruct (in_dec Z.eq_dec 1%Z y_true) as [H1 | H1].
    + destruct (in_dec Z.eq_dec 0%Z y_true) as [H0 | H0]; [auto|].
      rewrite metric_faults_without_negative in Hv;
        [discriminate|exact Hlen|now apply binary_without_negative].
    + rewrite metric_faults_without_positive in Hv;
        [discriminate|exact Hlen|now apply binary_without_positive].
  - intros [H1 H0]. now apply amex_metric_refines_value.
Qed.

Lemma amex_metric_defined_iff_witness :
  (exists v, amex_metric [0; 1]%Z [1 # 2; 1 # 3] = Ok v)
  <-> In 1%Z [0; 1]%Z /\ In 0%Z [0; 1]%Z.
Proof.
  apply (amex_metric_defined_iff [0; 1]%Z [1 # 2; 1 # 3]).
  - repeat (apply Forall_cons; [lia|]). apply Forall_nil.
  - reflexivity.
Defined.

Lemma take_faults (a : list Z) (indices : list nat) (e : fault) :
  take a indices = Raise e -> e = IndexError.
Proof.
  unfold take. induction indices as [|i r IH]; simpl; [discriminate|].
  destruct (nth_error a i); simpl.
  - destruct (mapM _ r); simpl; [discriminate|].
    intros [= <-]. now apply IH.
  - now intros [= <-].
Qed.

Lemma take_in_range (a : list Z) (indices : list nat) (t : list Z) :
  take a indices = Ok t ->
  forall i, In i indices -> (i < length a)%nat.
Proof.
  unfold take. revert t. induction indices as [|i r IH]; intros t H j Hj;
    [contradiction|].
  simpl in H.
  destruct (nth_error a i) eqn:E; simpl in H; [|discriminate].
  destruct (mapM _ r) as [ts |] eqn:Er; simpl in H; [|discriminate].
  destruct Hj as [<- | Hj].
  - apply nth_error_Some. congruence.
  - exact (IH ts eq_refl j Hj).
Qed.

(** X2: [amex_metric] stops with an IndexError exactly when there are more
    predictions than labels; with fewer predictions it reads only the labels
    the predictions point at. *)
Theorem amex_metric_index_error_iff (y_true : list Z) (y_pred : list Q) :
  amex_metric y_true y_pred = Raise IndexError
  <-> (length y_true < length y_pred)%nat.
Proof.
  split.
  - intro H.
    destruct (Nat.lt_ge_cases (length y_true) (length y_pred)) as [Hlt | Hge];
      [exact Hlt|].
    exfalso.
    assert (Ht : take y_true (sort_indices y_pred)
                 = Ok (reorder y_true (sort_indices y_pred))).
    { apply take_ok. intros i Hi. apply sort_indices_bound in Hi. lia. }
    pose proof (amex_metric_at_faults _ _ _ _ Ht H). discriminate.
  - intro Hlt. unfold amex_metric, amex_metric_at.
    destruct (take y_true (sort_indices y_pred)) as [t | e] eqn:E.
    + exfalso.
      assert (Hin : In (length y_true) (sort_indices y_pred)).
      { apply (Permutation_in _ (Permutation_sym (sort_indices_perm y_pred))).
        apply in_seq. lia. }
      pose proof (take_in_range _ _ _ E _ Hin). lia.
    + cbn [bind]. f_equal. exact (take_faults _ _ _ E).
Qed.

End MetricOutcomes.

Section RecordOrder.

Import Metric.
Local Open Scope Q_scope.

Lemma map_nth_seq (A : Type) (d : A) (l : list A) :
  map (fun i => nth i l d) (seq 0 (length l)) = l.
Proof.
  apply nth_ext with (d := d) (d' := d).
  - now rewrite length_map, length_seq.
  - intros n Hn. rewrite length_map, length_seq in Hn.
    rewrite (nth_indep _ d (nth 0 l d))
      by (now rewrite length_map, length_seq).
    rewrite (map_nth (fun i => nth i l d) (seq 0 (length l)) 0%nat n).
    now rewrite seq_nth.
Qed.

Lemma sorted_records_perm (recs : list (Z * Q)) :
  Permutation (sorted_records recs) recs.
Proof.
  unfold sorted_records.
  rewrite <- (map_nth_seq _ (0%Z, 0) recs) at 2.
  apply Permutation_map.
  rewrite <- (length_map snd recs). apply sort_indices_perm.
Qed.

Lemma reorder_records (recs : list (Z * Q)) :
  reorder (map fst recs) (sort_indices (map snd recs))
  = map fst (sorted_records recs).
Proof.
  unfold reorder, sorted_records. rewrite map_map.
  apply map_ext. intro i.
  exact (map_nth fst recs (0%Z, 0) i).
Qed.

Lemma distinct_scores_records (recs : list (Z * Q)) :
  distinct_scores (map snd recs) ->
  forall i j, (i < length recs)%nat -> (j < length recs)%nat ->
              snd (nth i recs (0%Z, 0)) == snd (nth j recs (0%Z, 0)) ->
              i = j.
Proof.
  intros Hd i j Hi Hj He.
  unfold distinct_scores in Hd. rewrite length_map in Hd.
  assert (Hs : forall k, nth k (map snd recs) 0 = snd (nth k recs (0%Z, 0)))
    by (intro k; exact (map_nth snd recs (0%Z, 0) k)).
  destruct (Nat.lt_trichotomy i j) as [Hlt | [Heq | Hgt]]; [|exact Heq|].
  - exfalso. apply (Hd i j); [lia|]. now rewrite !Hs.
  - exfalso. apply (Hd j i); [lia|]. rewrite !Hs. now symmetry.
Qed.

(** With distinct predictions the records come out of line 72 in strictly
    decreasing order of prediction. *)
Lemma sorted_records_sorted (recs : list (Z * Q)) :
  distinct_scores (map snd recs) ->
  StronglySorted (fun a b => snd b < snd a) (sorted_records recs).
Proof.
  intro Hd. unfold sorted_records.
  apply StronglySorted_map.
  eapply StronglySorted_weaken; [|apply sort_indices_sorted].
  intros i j Hi Hj Hij. simpl.
  apply sort_indices_bound in Hi, Hj. rewrite length_map in Hi, Hj.
  unfold before_reversed in Hij.
  rewrite !(map_nth snd recs (0%Z, 0)) in Hij.
  destruct Hij as [Hlt | [Heq Hji]]; [exact Hlt|].
  pose proof (distinct_scores_records recs Hd i j Hi Hj Heq). lia.
Qed.

Lemma distinct_scores_perm (recs recs' : list (Z * Q)) :
  Permutation recs recs' ->
  distinct_scores (map snd recs) -> distinct_scores (map snd recs').
Proof.
  intros Hp Hd.
  assert (Hinj : forall a b, In a recs -> In b recs ->
                             snd a == snd b -> a = b).
  { intros a b Ha Hb He.
    destruct (In_nth _ _ (0%Z, 0) Ha) as [i [Hi <-]].
    destruct (In_nth _ _ (0%Z, 0) Hb) as [j [Hj <-]].
    now rewrite (distinct_scores_records recs Hd i j Hi Hj He). }
  assert (Hnd : NoDup recs).
  { apply (NoDup_nth recs (0%Z, 0)). intros i j Hi Hj He.
    apply (distinct_scores_records recs Hd i j Hi Hj). now rewrite He. }
  assert (Hnd' : NoDup recs') by (eapply Permutation_NoDup; eassumption).
  intros i j Hij. rewrite length_map in Hij.
  rewrite !(map_nth snd recs' (0%Z, 0)). intro He.
  assert (Hi : In (nth i recs' (0%Z, 0)) recs) by
    (apply (Permutation_in _ (Permutation_sym Hp)), nth_In; lia).
  assert (Hj : In (nth j recs' (0%Z, 0)) recs) by
    (apply (Permutation_in _ (Permutation_sym Hp)), nth_In; lia).
  pose proof (Hinj _ _ Hi Hj He) as E.
  apply (proj1 (NoDup_nth recs' (0%Z, 0)) Hnd') in E; lia.
Qed.

(** X4: when no two predictions are equal, [amex_metric] does not depend on
    the order in which the (label, prediction) records are supplied. *)
Theorem amex_metric_record_order (recs recs' : list (Z * Q)) :
  Permutation recs recs' ->
  distinct_scores (map snd recs) ->
  amex_metric (map fst recs) (map snd recs)
  = amex_metric (map fst recs') (map snd recs').
Proof.
  intros Hp Hd.
  pose proof (distinct_scores_perm _ _ Hp Hd) as Hd'.
  assert (Hsorted : sorted_records recs = sorted_records recs').
  { apply (StronglySorted_unique _ (fun a b : Z * Q => snd b < snd a)).
    - intros a b H1 H2. lra.
    - now apply sorted_records_sorted.
    - now apply sorted_records_sorted.
    - rewrite !sorted_records_perm. exact Hp. }
  unfold amex_metric, amex_metric_at.
  rewrite !take_sorted_ok by (now rewrite !length_map).
  rewrite !reorder_records, Hsorted.
  rewrite (sumZ_perm _ _ (Permutation_map fst Hp)).
  rewrite !length_map, (Permutation_length Hp).
  reflexivity.
Qed.

Lemma amex_metric_record_order_witness :
  amex_metric (map fst [(1%Z, 1 # 2); (0%Z, 1 # 3); (0%Z, 3 # 4)])
              (map snd [(1%Z, 1 # 2); (0%Z, 1 # 3); (0%Z, 3 # 4)])
  = amex_metric (map fst [(0%Z, 1 # 3); (1%Z, 1 # 2); (0%Z, 3 # 4)])
                (map snd [(0%Z, 1 # 3); (1%Z, 1 # 2); (0%Z, 3 # 4)]).
Proof.
  apply (amex_metric_record_order
           [(1%Z, 1 # 2); (0%Z, 1 # 3); (0%Z, 3 # 4)]
           [(0%Z, 1 # 3); (1%Z, 1 # 2); (0%Z, 3 # 4)]).
  - apply perm_swap.
  - intros i j Hij. simpl in Hij.
    assert (Hc : (i = 0 /\ j = 1)%nat \/ (i = 0 /\ j = 2)%nat
                 \/ (i = 1 /\ j = 2)%nat)
      by lia.
    destruct Hc as [[-> ->] | [[-> ->] | [-> ->]]]; simpl; intro H;
      discriminate H.
Defined.

End RecordOrder.

Section Threshold.

Import Metric.
Local Open Scope Q_scope.

(** X3: on the perfectly ranked sample of ten positives and twelve negatives
    the cumulative normalized weight of the tenth positive is 10/250.  In
    exact arithmetic it passes [<= 0.04], all ten positives are captured and
    the metric is 1.  In binary64, whatever the order in which [sum] adds
    (the weights, small integers, add up to 250 exactly), the ten rounded
    additions of 1/250 end above the rounded 0.04: the tenth positive is left
    out and nine are captured; with numpy's pairwise sum the metric lies
    between 0.94 and 0.96. *)
Theorem amex_metric_threshold_rounding
        (sum : list PrimFloat.float -> PrimFloat.float) :
  sum (map (weight_in (f64_with sum)) ranked_labels) = f64_of_int 250 ->
  (sort_indices ranked_scores = seq 0 22
   /\ reorder ranked_labels (sort_indices ranked_scores) = ranked_labels)
  /\ (map (fun c => f_leb exact_arith c (f_four_pct exact_arith))
          (cum_norm_weight_in exact_arith ranked_labels)
      = repeat true 10 ++ repeat false 12
      /\ exists v, amex_metric_in exact_arith (sort_indices ranked_scores)
                     ranked_labels = Ok v /\ v == 1)
  /\ (exists v, amex_metric ranked_labels ranked_scores = Ok v /\ v == 1)
  /\ (map (fun c => f_leb (f64_with sum) c (f_four_pct (f64_with sum)))
          (cum_norm_weight_in (f64_with sum) ranked_labels)
      = repeat true 9 ++ repeat false 13
      /\ sumZ (masked ranked_labels
                 (map (fun c => f_leb (f64_with sum) c
                                      (f_four_pct (f64_with sum)))
                      (cum_norm_weight_in (f64_with sum) ranked_labels)))
         = 9%Z)
  /\ (exists v, amex_metric_in f64_arith (sort_indices ranked_scores)
                  ranked_labels = Ok v
                /\ PrimFloat.leb
                     (PrimFloat.div (f64_of_int 94) (f64_of_int 100)) v = true
                /\ PrimFloat.leb
                     v (PrimFloat.div (f64_of_int 96) (f64_of_int 100)) = true).
Proof.
  intro Hsum.
  split; [split; vm_compute; reflexivity|].
  split; [split; [vm_compute; reflexivity|]|].
  { eexists; split; [vm_compute; reflexivity|reflexivity]. }
  split; [eexists; split; [vm_compute; reflexivity|reflexivity]|].
  split.
  - assert (E : map (fun c => f_leb (f64_with sum) c
                                    (f_four_pct (f64_with sum)))
                    (cum_norm_weight_in (f64_with sum) ranked_labels)
                = repeat true 9 ++ repeat false 13).
    { unfold cum_norm_weight_in.
      change (f_sum (f64_with sum)) with sum.
      rewrite Hsum. vm_compute. reflexivity. }
    split; [exact E|]. rewrite E. reflexivity.
  - eexists. split; [vm_compute; reflexivity|].
    split; vm_compute; reflexivity.
Qed.

Lemma amex_metric_threshold_rounding_witness :
  sumZ (masked ranked_labels
          (map (fun c => f_leb f64_arith c (f_four_pct f64_arith))
               (cum_norm_weight_in f64_arith ranked_labels)))
  = 9%Z.
Proof.
  apply (fun h =>
           proj2 (proj1 (proj2 (proj2 (proj2
             (amex_metric_threshold_rounding f64_sum h)))))).
  vm_compute. reflexivity.
Defined.

End Threshold.

Section Wrapper.

Import Metric.
Local Open Scope Q_scope.

(** X17: what [lgb_amex_metric] reports to LightGBM is the same for the raw
    predictions and for any order-preserving transformation of them, whatever
    the labels: the predictions take part only through comparisons. *)
Theorem lgb_amex_metric_rescaling
        (f : Q -> Q) (y_pred : list Q) (y_true : Dataset) :
  order_preserving f ->
  lgb_amex_metric (map f y_pred) y_true = lgb_amex_metric y_pred y_true.
Proof.
  intro Hf. unfold lgb_amex_metric, amex_metric.
  now rewrite (sort_indices_rescaled f Hf).
Qed.

Lemma lgb_amex_metric_rescaling_witness :
  lgb_amex_metric (map (fun x => 3 * x - 1) [1 # 2; 1 # 3; 3 # 4])
                  (mkDataset [0; 1; 0]%Z)
  = lgb_amex_metric [1 # 2; 1 # 3; 3 # 4] (mkDataset [0; 1; 0]%Z).
Proof.
  apply (lgb_amex_metric_rescaling (fun x => 3 * x - 1)).
  intros x y. split; intro H; lra.
Defined.

End Wrapper.

(** * Facts about [transpose_data] *)

Section GroupbyFacts.

Import Transpose.

Lemma compare_lt (a b : string) :
  String_as_OT.compare a b = Lt <-> String_as_OT.lt a b.
Proof. reflexivity. Qed.

Lemma compare_gt (a b : string) :
  String_as_OT.compare a b = Gt -> String_as_OT.lt b a.
Proof.
  intro H. destruct (String_as_OT.compare_spec a b); congruence.
Qed.

Lemma compare_eq (a b : string) :
  String_as_OT.compare a b = Eq -> a = b.
Proof.
  intro H. destruct (String_as_OT.compare_spec a b); congruence.
Qed.

Lemma lt_neq (a b : string) : String_as_OT.lt a b -> a <> b.
Proof.
  intros H ->. exact (StrictOrder_Irreflexive b H).
Qed.

Lemma add_to_group_keys (cid : string) (v : cell) groups (k : string) :
  In k (map fst (add_to_group cid v groups))
  <-> k = cid \/ In k (map fst groups).
Proof.
  induction groups as [|[k' vs] r IH]; simpl.
  - intuition.
  - destruct (String_as_OT.compare cid k') eqn:E; simpl.
    + apply compare_eq in E. subst. intuition.
    + intuition.
    + rewrite IH. intuition.
Qed.

Lemma add_to_group_sorted (cid : string) (v : cell) groups :
  keys_sorted groups -> keys_sorted (add_to_group cid v groups).
Proof.
  unfold keys_sorted.
  induction groups as [|[k' vs] r IH]; intro Hs; simpl.
  - repeat constructor.
  - simpl in Hs. apply StronglySorted_inv in Hs as [Hr Hk].
    destruct (String_as_OT.compare cid k') eqn:E; simpl.
    + constructor; assumption.
    + constructor; [constructor; assumption|].
      constructor; [exact E|].
      eapply Forall_impl; [|exact Hk].
      intros a Ha. simpl in Ha.
      exact (StrictOrder_Transitive _ _ _ E Ha).
    + constructor; [now apply IH|].
      apply Forall_forall. intros a Ha.
      apply add_to_group_keys in Ha as [-> | Ha].
      * now apply compare_gt.
      * rewrite Forall_forall in Hk. now apply Hk.
Qed.

Lemma assoc_absent (k : string) groups :
  ~ In k (map fst groups) -> assoc k groups = None.
Proof.
  induction groups as [|[k' vs] r IH]; simpl; intro H; [reflexivity|].
  destruct (String.eqb_spec k k') as [-> | Hne]; [tauto|].
  apply IH. tauto.
Qed.

Lemma sorted_head_absent (k k' : string) (keys : list string) :
  String_as_OT.lt k k' ->
  Forall (String_as_OT.lt k') keys ->
  ~ In k (k' :: keys).
Proof.
  intros Hlt Hk [-> | Hin].
  - exact (StrictOrder_Irreflexive _ Hlt).
  - rewrite Forall_forall in Hk. specialize (Hk _ Hin).
    exact (StrictOrder_Irreflexive _ (StrictOrder_Transitive _ _ _ Hlt Hk)).
Qed.

Lemma add_to_group_assoc (cid : string) (v : cell) groups (k : string) :
  keys_sorted groups ->
  assoc k (add_to_group cid v groups)
  = if String.eqb k cid
    then Some (match assoc cid groups with
               | Some vs => vs ++ [v]
               | None => [v]
               end)
    else assoc k groups.
Proof.
  unfold keys_sorted.
  induction groups as [|[k' vs] r IH]; intro Hs; simpl.
  - destruct (String.eqb k cid); reflexivity.
  - simpl in Hs. apply StronglySorted_inv in Hs as [Hr Hk].
    destruct (String_as_OT.compare cid k') eqn:E; simpl.
    + apply compare_eq in E. subst k'.
      rewrite String.eqb_refl.
      destruct (String.eqb k cid); reflexivity.
    + assert (Habs : ~ In cid (k' :: map fst r))
        by (now apply sorted_head_absent).
      destruct (String.eqb_spec cid k') as [-> | Hne];
        [exfalso; apply Habs; now left|].
      rewrite (assoc_absent cid r) by (intro; apply Habs; now right).
      destruct (String.eqb k cid); reflexivity.
    + apply compare_gt in E.
      destruct (String.eqb_spec cid k') as [-> | Hne];
        [exfalso; exact (StrictOrder_Irreflexive _ E)|].
      rewrite (IH Hr).
      destruct (String.eqb_spec k k') as [-> | Hkk].
      * destruct (String.eqb_spec k' cid); [congruence|reflexivity].
      * reflexivity.
Qed.

Lemma groupby_snoc (data : Series) (row : string * cell) :
  groupby (data ++ [row])
  = add_to_group (fst row) (snd row) (groupby data).
Proof.
  unfold groupby. now rewrite fold_left_app.
Qed.

Lemma observed_snoc (cid : string) (data : Series) (row : string * cell) :
  observed cid (data ++ [row])
  = observed cid data ++ (if String.eqb (fst row) cid then [snd row] else []).
Proof.
  unfold observed. rewrite filter_app, map_app. simpl.
  destruct (String.eqb (fst row) cid); reflexivity.
Qed.

Lemma groupby_sorted (data : Series) : keys_sorted (groupby data).
Proof.
  induction data as [|row data IH] using rev_ind.
  - constructor.
  - rewrite groupby_snoc. now apply add_to_group_sorted.
Qed.

(** A customer's group holds exactly the customer's observations, in order;
    a customer without observations has no group. *)
Lemma groupby_assoc (data : Series) (k : string) :
  assoc k (groupby data)
  = match observed k data with
    | [] => None
    | vs => Some vs
    end.
Proof.
  induction data as [|row data IH] using rev_ind.
  - reflexivity.
  - rewrite groupby_snoc, observed_snoc.
    rewrite add_to_group_assoc by apply groupby_sorted.
    destruct (String.eqb_spec k (fst row)) as [-> | Hne].
    + rewrite String.eqb_refl, IH.
      destruct (observed (fst row) data); reflexivity.
    + destruct (String.eqb_spec (fst row) k) as [E | _]; [congruence|].
      rewrite app_nil_r. exact IH.
Qed.

Lemma assoc_in (k : string) (vs : list cell) groups :
  keys_sorted groups -> In (k, vs) groups -> assoc k groups = Some vs.
Proof.
  unfold keys_sorted.
  induction groups as [|[k' vs'] r IH]; intros Hs Hin; [contradiction|].
  simpl in Hs. apply StronglySorted_inv in Hs as [Hr Hk].
  simpl. destruct Hin as [E | Hin].
  - injection E as -> ->. now rewrite String.eqb_refl.
  - destruct (String.eqb_spec k k') as [-> | Hne]; [|now apply IH].
    exfalso. rewrite Forall_forall in Hk.
    apply (StrictOrder_Irreflexive k'). apply Hk.
    change k' with (fst (k', vs)). now apply in_map.
Qed.

Lemma in_assoc (k : string) (vs : list cell) groups :
  assoc k groups = Some vs -> In (k, vs) groups.
Proof.
  induction groups as [|[k' vs'] r IH]; simpl; [discriminate|].
  destruct (String.eqb_spec k k') as [-> | Hne].
  - intros [= ->]. now left.
  - intro H. right. now apply IH.
Qed.

Lemma groupby_in (data : Series) (k : string) (vs : list cell) :
  In (k, vs) (groupby data) <-> vs = observed k data /\ vs <> [].
Proof.
  split.
  - intro H. apply assoc_in in H; [|apply groupby_sorted].
    rewrite groupby_assoc in H.
    destruct (observed k data) eqn:E; [discriminate|].
    injection H as <-. split; [reflexivity|discriminate].
  - intros [-> Hne]. apply in_assoc. rewrite groupby_assoc.
    destruct (observed k data); [congruence|reflexivity].
Qed.

Lemma observed_nonempty (data : Series) (k : string) :
  observed k data <> [] <-> In k (map fst data).
Proof.
  unfold observed.
  induction data as [|[k' v] r IH]; simpl; [tauto|].
  destruct (String.eqb_spec k' k) as [-> | Hne]; simpl.
  - split; [auto|discriminate].
  - rewrite IH. intuition.
Qed.

Lemma observed_length (cid : string) (data : Series) :
  (length (observed cid data) <= length data)%nat.
Proof.
  unfold observed. rewrite length_map. apply filter_length_le.
Qed.

Lemma sorted_keys_nodup (keys : list string) :
  StronglySorted String_as_OT.lt keys -> NoDup keys.
Proof.
  induction 1 as [|k r Hr IH Hk]; constructor; [|exact IH].
  intro Hin. rewrite Forall_forall in Hk.
  exact (StrictOrder_Irreflexive k (Hk k Hin)).
Qed.

Lemma groupby_keys (data : Series) (k : string) :
  In k (map fst (groupby data)) <-> In k (map fst data).
Proof.
  rewrite <- observed_nonempty. split.
  - intro H. apply in_map_iff in H as [[k' vs] [E H]]. simpl in E. subst k'.
    apply groupby_in in H as [-> H]. exact H.
  - intro H. apply in_map_iff. exists (k, observed k data).
    split; [reflexivity|]. now apply groupby_in.
Qed.

End GroupbyFacts.

Section TransposeClaims.

Import Transpose.

Lemma pad_front_short (vs : list cell) :
  (length vs <= 13)%nat ->
  pad_front vs = repeat (Num 0) (13 - length vs) ++ vs
  /\ length (pad_front vs) = 13%nat.
Proof.
  intro H. unfold pad_front.
  destruct (Z.eqb_spec (Z.of_nat (length vs)) 13) as [E | E].
  - assert (E' : length vs = 13%nat) by lia.
    rewrite E'. simpl. auto.
  - replace (Z.to_nat (13 - Z.of_nat (length vs))) with (13 - length vs)%nat
      by lia.
    split; [reflexivity|].
    rewrite length_app, repeat_length. lia.
Qed.

Lemma pad_front_long (vs : list cell) :
  (13 < length vs)%nat -> pad_front vs = vs.
Proof.
  intro H. unfold pad_front.
  destruct (Z.eqb_spec (Z.of_nat (length vs)) 13) as [E | E]; [reflexivity|].
  replace (Z.to_nat (13 - Z.of_nat (length vs))) with 0%nat by lia.
  reflexivity.
Qed.

Lemma res_list_in (data : Series) (cid : string) (row : list cell) :
  In (cid, row) (res_list data)
  <-> row = pad_front (observed cid data) /\ observed cid data <> [].
Proof.
  unfold res_list. rewrite in_map_iff. split.
  - intros [[k vs] [E H]]. simpl in E. injection E as -> <-.
    apply groupby_in in H as [-> H]. auto.
  - intros [-> H]. exists (cid, observed cid data).
    split; [reflexivity|]. now apply groupby_in.
Qed.

(** C5: when no customer has more than 13 observations, [transpose_data]
    returns one row per customer, each of exactly 13 entries: the customer's
    observations in table order behind as many zeros as are missing. *)
Theorem transpose_data_pads_to_13 (data : Series) :
  (forall cid, (length (observed cid data) <= 13)%nat) ->
  exists rows,
    transpose_data data = Ok rows
    /\ NoDup (map fst rows)
    /\ (forall cid, In cid (map fst rows) <-> In cid (map fst data))
    /\ forall cid row,
        In (cid, row) rows ->
        length row = 13%nat
        /\ row = repeat (Num 0) (13 - length (observed cid data))
                 ++ observed cid data.
Proof.
  intro Hmax.
  assert (Hlen : forall g, In g (res_list data) -> length (snd g) = 13%nat).
  { intros [cid row] H. apply res_list_in in H as [-> _].
    apply pad_front_short, Hmax. }
  assert (Hid : map (fun row : string * list cell =>
                       (fst row, snd row ++ repeat NaN (13 - length (snd row))))
                  (res_list data) = res_list data).
  { rewrite <- (map_id (res_list data)) at 2.
    apply map_ext_in. intros [cid row] H.
    specialize (Hlen _ H). simpl in *.
    rewrite Hlen. simpl. now rewrite app_nil_r. }
  exists (res_list data). split; [|split; [|split]].
  - unfold transpose_data.
    replace (forallb _ (res_list data)) with true; [now rewrite Hid|].
    symmetry. apply forallb_forall. intros g Hg.
    apply Nat.leb_le. rewrite (Hlen _ Hg). lia.
  - unfold res_list. rewrite map_map. simpl.
    apply sorted_keys_nodup, groupby_sorted.
  - intro cid. unfold res_list. rewrite map_map. simpl.
    apply groupby_keys.
  - intros cid row H. apply res_list_in in H as [-> _].
    destruct (pad_front_short _ (Hmax cid)) as [E L]. auto.
Qed.

Lemma transpose_data_pads_to_13_witness :
  exists rows,
    transpose_data
      [("b", Num 1); ("a", Num 2); ("b", Num 3)]%string = Ok rows
    /\ NoDup (map fst rows)
    /\ (forall cid,
           In cid (map fst rows)
           <-> In cid (map fst [("b", Num 1); ("a", Num 2); ("b", Num 3)]%string))
    /\ forall cid row,
        In (cid, row) rows ->
        length row = 13%nat
        /\ row = repeat (Num 0)
                   (13 - length
                           (observed cid
                              [("b", Num 1); ("a", Num 2); ("b", Num 3)]%string))
                 ++ observed cid [("b", Num 1); ("a", Num 2); ("b", Num 3)]%string.
Proof.
  apply (transpose_data_pads_to_13
           [("b", Num 1); ("a", Num 2); ("b", Num 3)]%string).
  intro cid. eapply Nat.le_trans; [apply observed_length|]. simpl. lia.
Defined.

(** C9: a customer with more than 13 observations gets a row that is
    neither cut nor padded, so longer than 13, and building the 13-column
    frame fails. *)
Theorem transpose_data_overlong (data : Series) (cid : string) :
  (13 < length (observed cid data))%nat ->
  In (cid, observed cid data) (res_list data)
  /\ transpose_data data = Raise ValueError.
Proof.
  intro Hlong.
  assert (Hin : In (cid, observed cid data) (res_list data)).
  { apply res_list_in. split.
    - symmetry. now apply pad_front_long.
    - intro E. rewrite E in Hlong. simpl in Hlong. lia. }
  split; [exact Hin|].
  unfold transpose_data.
  destruct (forallb _ (res_list data)) eqn:E; [|reflexivity].
  exfalso. rewrite forallb_forall in E.
  specialize (E _ Hin). apply Nat.leb_le in E. simpl in E. lia.
Qed.

Lemma transpose_data_overlong_witness :
  In ("a"%string, repeat (Num 1) 14)
     (res_list (map (fun v => ("a"%string, v)) (repeat (Num 1) 14)))
  /\ transpose_data (map (fun v => ("a"%string, v)) (repeat (Num 1) 14))
     = Raise ValueError.
Proof.
  apply (transpose_data_overlong
           (map (fun v => ("a"%string, v)) (repeat (Num 1) 14)) "a"%string).
  simpl. lia.
Defined.

End TransposeClaims.

(** * Further properties of [transpose_data] *)

Section TransposeOutcomes.

Import Transpose.

Lemma transpose_data_keys (data : Series) (rows : list (string * list cell)) :
  transpose_data data = Ok rows -> map fst rows = map fst (groupby data).
Proof.
  unfold transpose_data.
  destruct (forallb _ (res_list data)); [|discriminate].
  intros [= <-]. unfold res_list. now rewrite !map_map.
Qed.

(** X5: the rows [transpose_data] returns are in strictly ascending order of
    customer identifier, whatever the order of the customers in the input. *)
Theorem transpose_data_rows_ascending
        (data : Series) (rows : list (string * list cell)) :
  transpose_data data = Ok rows ->
  StronglySorted String_as_OT.lt (map fst rows).
Proof.
  intro H. rewrite (transpose_data_keys _ _ H). apply groupby_sorted.
Qed.

Lemma transpose_data_rows_ascending_witness :
  StronglySorted String_as_OT.lt
    (map fst [("a"%string, repeat (Num 0) 12 ++ [Num 2]);
              ("b"%string, repeat (Num 0) 11 ++ [Num 1; Num 3])]).
Proof.
  apply (transpose_data_rows_ascending
           [("b", Num 1); ("a", Num 2); ("b", Num 3)]%string).
  reflexivity.
Defined.

Lemma StronglySorted_of_map (A B : Type) (f : A -> B) (R : B -> B -> Prop)
      (l : list A) :
  StronglySorted R (map f l) -> StronglySorted (fun a b => R (f a) (f b)) l.
Proof.
  induction l as [|x r IH]; simpl; intro H; [constructor|].
  apply StronglySorted_inv in H as [Hr Hx].
  constructor; [now apply IH|].
  rewrite Forall_forall in *. intros a Ha. apply Hx. now apply in_map.
Qed.

(** The groups are fixed by the observations of each customer. *)
Lemma groupby_ext (data data' : Series) :
  (forall cid, observed cid data = observed cid data') ->
  groupby data = groupby data'.
Proof.
  intro H.
  apply (StronglySorted_unique _
           (fun a b : string * list cell => String_as_OT.lt (fst a) (fst b))).
  - intros a b H1 H2.
    exact (StrictOrder_Irreflexive _ (StrictOrder_Transitive _ _ _ H1 H2)).
  - apply StronglySorted_of_map, groupby_sorted.
  - apply StronglySorted_of_map, groupby_sorted.
  - apply NoDup_Permutation.
    + apply (NoDup_map_inv fst), sorted_keys_nodup, groupby_sorted.
    + apply (NoDup_map_inv fst), sorted_keys_nodup, groupby_sorted.
    + intros [k vs]. rewrite !groupby_in, H. reflexivity.
Qed.

(** X6: [transpose_data] depends only on each customer's own sequence of
    observations: two series in which every customer has the same
    observations in the same order, however the customers are interleaved,
    give the same outcome. *)
Theorem transpose_data_interleaving (data data' : Series) :
  (forall cid, observed cid data = observed cid data') ->
  transpose_data data = transpose_data data'.
Proof.
  intro H. unfold transpose_data, res_list.
  now rewrite (groupby_ext _ _ H).
Qed.

Lemma transpose_data_interleaving_witness :
  transpose_data [("b", Num 1); ("a", Num 2); ("b", Num 3)]%string
  = transpose_data [("a", Num 2); ("b", Num 1); ("b", Num 3)]%string.
Proof.
  apply transpose_data_interleaving.
  intro cid. unfold observed. cbn [filter fst snd].
  destruct (String.eqb_spec "b" cid) as [<- | Hb]; [reflexivity|].
  destruct (String.eqb "a" cid); reflexivity.
Defined.

(** X7: padding only ever puts zeros in front: the observations are kept,
    in order, at the end of the row, the row has [max 13 len] entries, and
    padding a padded row changes nothing. *)
Theorem pad_front_keeps_observations (vs : list cell) :
  (exists k, pad_front vs = repeat (Num 0) k ++ vs)
  /\ length (pad_front vs) = Nat.max 13 (length vs)
  /\ pad_front (pad_front vs) = pad_front vs.
Proof.
  destruct (Nat.le_gt_cases (length vs) 13) as [Hle | Hgt].
  - destruct (pad_front_short vs Hle) as [E L].
    split; [now exists (13 - length vs)%nat|].
    split; [rewrite L; lia|].
    unfold pad_front at 1. rewrite L. reflexivity.
  - rewrite (pad_front_long vs) by lia.
    split; [now exists 0%nat|].
    split; [lia|].
    apply pad_front_long. lia.
Qed.

Lemma forallb_false_exists (A : Type) (f : A -> bool) (l : list A) :
  forallb f l = false -> exists x, In x l /\ f x = false.
Proof.
  induction l as [|x r IH]; simpl; [discriminate|].
  destruct (f x) eqn:E; simpl.
  - intro H. destruct (IH H) as [y [Hy Hf]]. exists y. auto.
  - intros _. exists x. auto.
Qed.

(** X8: the only way [transpose_data] fails is the ValueError of the frame
    constructor, and it fails exactly when some customer has more than 13
    observations. *)
Theorem transpose_data_fails_iff (data : Series) :
  (forall e, transpose_data data = Raise e -> e = ValueError)
  /\ (transpose_data data = Raise ValueError
      <-> exists cid, (13 < length (observed cid data))%nat).
Proof.
  split.
  - intro e. unfold transpose_data.
    destruct (forallb _ (res_list data)); [discriminate|]. now intros [= <-].
  - split.
    + unfold transpose_data.
      destruct (forallb _ (res_list data)) eqn:E; [discriminate|]. intros _.
      apply forallb_false_exists in E as [[cid row] [Hin Hlen]].
      apply Nat.leb_gt in Hlen. simpl in Hlen.
      apply res_list_in in Hin as [-> _].
      exists cid.
      destruct (Nat.le_gt_cases (length (observed cid data)) 13) as [Hle | Hgt];
        [|exact Hgt].
      destruct (pad_front_short _ Hle) as [_ L]. lia.
    + intros [cid Hlong].
      assert (Hin : In (cid, observed cid data) (res_list data)).
      { apply res_list_in. split.
        - symmetry. now apply pad_front_long.
        - intro E. rewrite E in Hlong. simpl in Hlong. lia. }
      unfold transpose_data.
      destruct (forallb _ (res_list data)) eqn:E; [|reflexivity].
      exfalso. rewrite forallb_forall in E.
      specialize (E _ Hin). apply Nat.leb_le in E. simpl in E. lia.
Qed.

Lemma transpose_data_fails_iff_witness :
  transpose_data (map (fun v => ("a"%string, v)) (repeat (Num 1) 14))
  = Raise ValueError.
Proof.
  apply (proj2 (proj2 (transpose_data_fails_iff
                         (map (fun v => ("a"%string, v)) (repeat (Num 1) 14))))).
  exists "a"%string. simpl. lia.
Defined.

End TransposeOutcomes.

(** * Facts about [preprocess] *)

Section SortFacts.

Import Preprocess.

Variable A : Type.
Variable leb : A -> A -> bool.
Hypothesis leb_total : forall a b, leb a b = false -> leb b a = true.

Lemma insert_by_perm (x : A) (l : list A) :
  Permutation (insert_by leb x l) (x :: l).
Proof.
  induction l as [|y r IH]; simpl; [apply Permutation_refl|].
  destruct (leb x y); [apply Permutation_refl|].
  apply perm_trans with (y :: x :: r); [now apply perm_skip|apply perm_swap].
Qed.

Lemma sort_by_perm (l : list A) : Permutation (sort_by leb l) l.
Proof.
  induction l as [|x r IH]; simpl; [constructor|].
  rewrite insert_by_perm. now apply perm_skip.
Qed.

Lemma insert_by_sorted (x : A) (l : list A) :
  Sorted (fun a b => leb a b = true) l ->
  Sorted (fun a b => leb a b = true) (insert_by leb x l).
Proof.
  induction l as [|y r IH]; intro Hs; simpl.
  - repeat constructor.
  - destruct (leb x y) eqn:E.
    + constructor; [exact Hs|]. constructor. exact E.
    + apply Sorted_inv in Hs as [Hr Hy].
      constructor; [now apply IH|].
      destruct r as [|z r']; simpl.
      * constructor. now apply leb_total.
      * destruct (leb x z); constructor.
        -- now apply leb_total.
        -- now apply HdRel_inv in Hy.
Qed.

Lemma sort_by_sorted (l : list A) :
  Sorted (fun a b => leb a b = true) (sort_by leb l).
Proof.
  induction l as [|x r IH]; simpl; [constructor|].
  now apply insert_by_sorted.
Qed.

End SortFacts.

Section FrameFacts.

Import Preprocess.

Lemma lex_leb_total (a b : list cell) :
  lex_leb a b = false -> lex_leb b a = true.
Proof.
  revert b. induction a as [|x a' IH]; intros [|y b']; simpl; try discriminate.
  destruct (cell_ltb x y) eqn:Exy; [discriminate|].
  destruct (cell_ltb y x) eqn:Eyx; [reflexivity|].
  apply IH.
Qed.

Lemma row_leb_total (ps : list nat) (r1 r2 : cell * list cell) :
  row_leb ps r1 r2 = false -> row_leb ps r2 r1 = true.
Proof.
  apply lex_leb_total.
Qed.

(** Sorting keeps the columns and the rows, and leaves the rows in key
    order. *)
Lemma sort_values_spec (by_ : list string) (df sorted : DataFrame) :
  sort_values by_ df = Ok sorted ->
  columns sorted = columns df
  /\ Permutation (rows sorted) (rows df)
  /\ exists ps, key_positions by_ (columns df) = Ok ps
                /\ key_sorted ps (rows sorted).
Proof.
  unfold sort_values.
  destruct (key_positions by_ (columns df)) as [ps | e]; simpl; [|discriminate].
  intros [= <-]. simpl.
  split; [reflexivity|]. split; [apply sort_by_perm|].
  exists ps. split; [reflexivity|].
  apply sort_by_sorted. apply row_leb_total.
Qed.

Lemma fillna_no_missing (df : DataFrame) : no_missing (fillna df).
Proof.
  intros r c Hr Hc. unfold fillna in Hr. simpl in Hr.
  apply in_map_iff in Hr as [r0 [<- _]]. simpl in Hc.
  apply in_map_iff in Hc as [c0 [<- _]].
  destruct c0; discriminate.
Qed.

Lemma col_index_has_label (l : label) (cols : list label) (i : nat) :
  col_index l cols = Some i -> has_label l cols = true.
Proof.
  revert i. induction cols as [|c r IH]; intro i; simpl; [discriminate|].
  destruct (label_eqb l c); [reflexivity|].
  destruct (col_index l r) as [j|]; [|discriminate].
  intros _. simpl. exact (IH j eq_refl).
Qed.

End FrameFacts.

Section HeapFacts.

Import Preprocess.

Lemma overwrite_length (h : heap) (r : nat) (df : DataFrame) :
  length (overwrite h r df) = length h.
Proof.
  revert r. induction h as [|x h IH]; intros [|r]; simpl; auto.
Qed.

Lemma overwrite_same (h : heap) (r : nat) (df : DataFrame) :
  (r < length h)%nat -> nth_error (overwrite h r df) r = Some df.
Proof.
  revert r. induction h as [|x h IH]; intros [|r] H; simpl in *; try lia.
  - reflexivity.
  - apply IH. lia.
Qed.

Lemma overwrite_twice (h : heap) (r : nat) (df df' : DataFrame) :
  overwrite (overwrite h r df) r df' = overwrite h r df'.
Proof.
  revert r. induction h as [|x h IH]; intros [|r]; simpl; auto.
  now rewrite IH.
Qed.

Lemma extends_refl (h : heap) : extends h h.
Proof. exists []. now rewrite app_nil_r. Qed.

Lemma extends_trans (h1 h2 h3 : heap) :
  extends h1 h2 -> extends h2 h3 -> extends h1 h3.
Proof.
  intros [e1 ->] [e2 ->]. exists (e1 ++ e2). now rewrite app_assoc.
Qed.

Lemma extends_lookup (h h' : heap) (r : nat) :
  extends h h' -> (r < length h)%nat -> nth_error h' r = nth_error h r.
Proof.
  intros [ext ->] H. now apply nth_error_app1.
Qed.

Lemma extends_length (h h' : heap) :
  extends h h' -> (length h <= length h')%nat.
Proof.
  intros [ext ->]. rewrite length_app. lia.
Qed.

Lemma allocating_ret (A : Type) (a : A) : allocating (ret a).
Proof. intro h. apply extends_refl. Qed.

Lemma allocating_lift (A : Type) (m : res A) : allocating (lift m).
Proof. intro h. apply extends_refl. Qed.

Lemma allocating_load (r : nat) : allocating (load r).
Proof.
  intro h. unfold load. destruct (nth_error h r); apply extends_refl.
Qed.

Lemma allocating_alloc (df : DataFrame) : allocating (alloc df).
Proof. intro h. now exists [df]. Qed.

Lemma allocating_bind (A B : Type) (m : st A) (k : A -> st B) :
  allocating m -> (forall a, allocating (k a)) -> allocating (bind_st m k).
Proof.
  intros Hm Hk h. unfold bind_st.
  specialize (Hm h). destruct (m h) as [h' [a | e]]; simpl in *.
  - eapply extends_trans; [exact Hm|apply Hk].
  - exact Hm.
Qed.

Lemma allocating_drop_denylist (data : nat) : allocating (drop_denylist data).
Proof.
  unfold drop_denylist.
  apply allocating_bind; [apply allocating_load|].
  intro df. destruct (existsb _ remove_param).
  - apply allocating_bind; [apply allocating_lift|].
    intro. apply allocating_alloc.
  - apply allocating_ret.
Qed.

Lemma fresh_alloc (df : DataFrame) : fresh_result (alloc df).
Proof.
  intros h r. unfold alloc. simpl. intros [= <-].
  rewrite length_app. simpl. lia.
Qed.

Lemma fresh_bind (A : Type) (m : st A) (k : A -> st nat) :
  allocating m -> (forall a, fresh_result (k a)) ->
  fresh_result (bind_st m k).
Proof.
  intros Hm Hk h r. unfold bind_st.
  specialize (Hm h). destruct (m h) as [h' [a | e]]; simpl in *.
  - intro H. specialize (Hk a h' r H).
    apply extends_length in Hm. lia.
  - discriminate.
Qed.

End HeapFacts.

Section PreprocessClaims.

Import Preprocess.
Local Open Scope string_scope.
Local Open Scope list_scope.

Lemma sort_values_inplace_ok (h : heap) (data : nat) (by_ : list string)
      (df sorted : DataFrame) :
  nth_error h data = Some df ->
  sort_values by_ df = Ok sorted ->
  sort_values_inplace data by_ h = (overwrite h data sorted, Ok tt).
Proof.
  intros Hd Hs. unfold sort_values_inplace, bind_st, load, lift, store.
  now rewrite Hd, Hs.
Qed.

Lemma fillna_inplace_ok (h : heap) (data : nat) (df : DataFrame) :
  nth_error h data = Some df ->
  fillna_inplace data h = (overwrite h data (fillna df), Ok tt).
Proof.
  intro Hd. unfold fillna_inplace, bind_st, load, store. now rewrite Hd.
Qed.

Lemma allocating_encode_and_index (data : nat) :
  allocating (encode_and_index data).
Proof.
  unfold encode_and_index.
  repeat (apply allocating_bind;
          [ first [ apply allocating_load | apply allocating_lift
                  | apply allocating_alloc ] | intro ]).
  apply allocating_alloc.
Qed.

Lemma fresh_encode_and_index (data : nat) :
  fresh_result (encode_and_index data).
Proof.
  unfold encode_and_index.
  repeat (apply fresh_bind;
          [ first [ apply allocating_load | apply allocating_lift
                  | apply allocating_alloc ] | intro ]).
  apply fresh_alloc.
Qed.

(** What [preprocess] does after the two in-place calls. *)
Lemma preprocess_unfold (h : heap) (data : nat) (df sorted : DataFrame) :
  nth_error h data = Some df ->
  sort_values ["customer_ID"; "S_2"] df = Ok sorted ->
  preprocess data h
  = bind_st (drop_denylist data) encode_and_index
      (overwrite h data (fillna sorted)).
Proof.
  intros Hd Hs.
  assert (Hlt : (data < length h)%nat)
    by (apply nth_error_Some; congruence).
  unfold preprocess. unfold bind_st at 1.
  rewrite (sort_values_inplace_ok _ _ _ _ _ Hd Hs).
  unfold bind_st at 1.
  rewrite (fillna_inplace_ok _ _ sorted) by (now apply overwrite_same).
  now rewrite overwrite_twice.
Qed.

(** C10: [preprocess] changes the object it is given: after the call that
    object holds the rows sorted by (customer_ID, S_2) with every missing value
    replaced by zero, while the table returned is another, new object; an
    input with a missing value is therefore not left as it was. *)
Theorem preprocess_mutates_argument
        (h : heap) (data : nat) (df sorted : DataFrame) :
  nth_error h data = Some df ->
  sort_values ["customer_ID"; "S_2"] df = Ok sorted ->
  nth_error (fst (preprocess data h)) data = Some (fillna sorted)
  /\ columns (fillna sorted) = columns df
  /\ Permutation (rows sorted) (rows df)
  /\ (exists ps, key_positions ["customer_ID"; "S_2"] (columns df) = Ok ps
                 /\ key_sorted ps (rows sorted))
  /\ no_missing (fillna sorted)
  /\ (forall r, snd (preprocess data h) = Ok r ->
                r <> data
                /\ exists out, nth_error (fst (preprocess data h)) r = Some out)
  /\ ((exists r, In r (rows df) /\ In NaN (snd r)) ->
      nth_error (fst (preprocess data h)) data <> Some df).
Proof.
  intros Hd Hs.
  assert (Hlt : (data < length h)%nat)
    by (apply nth_error_Some; congruence).
  destruct (sort_values_spec _ _ _ Hs) as [Hcols [Hperm Hsorted]].
  rewrite (preprocess_unfold _ _ _ _ Hd Hs).
  set (h2 := overwrite h data (fillna sorted)).
  assert (Hlen2 : length h2 = length h) by apply overwrite_length.
  assert (Hext : extends h2 (fst (bind_st (drop_denylist data)
                                           encode_and_index h2))).
  { apply allocating_bind; [apply allocating_drop_denylist|].
    apply allocating_encode_and_index. }
  assert (Hobj : nth_error (fst (bind_st (drop_denylist data)
                                           encode_and_index h2)) data
                 = Some (fillna sorted)).
  { rewrite (extends_lookup _ _ _ Hext) by lia.
    now apply overwrite_same. }
  split; [exact Hobj|].
  split; [exact Hcols|].
  split; [exact Hperm|].
  split; [exact Hsorted|].
  split; [apply fillna_no_missing|].
  split.
  - intros r Hr.
    assert (Hfresh : fresh_result (bind_st (drop_denylist data)
                                           encode_and_index)).
    { apply fresh_bind; [apply allocating_drop_denylist|].
      apply fresh_encode_and_index. }
    specialize (Hfresh h2 r Hr).
    split; [lia|].
    destruct (nth_error _ r) as [out|] eqn:E; [now exists out|].
    apply nth_error_None in E. lia.
  - intros [r [Hr Hnan]]. rewrite Hobj. intros [= E].
    pose proof (fillna_no_missing sorted) as Hno.
    rewrite E in Hno. exact (Hno r NaN Hr Hnan eq_refl).
Qed.

Lemma preprocess_mutates_argument_witness :
  nth_error (fst (preprocess 0 [sample_table])) 0 = Some (fillna sample_sorted)
  /\ fillna sample_sorted <> sample_table.
Proof.
  pose proof (preprocess_mutates_argument
                [sample_table] 0 sample_table sample_sorted
                eq_refl eq_refl) as H.
  split; [exact (proj1 H)|].
  intro E. discriminate E.
Defined.

(** When [drop] succeeds, the table it returns has none of the named
    columns and every other column of the input. *)
Lemma drop_columns (labels : list string) (df dropped : DataFrame) :
  drop labels df = Ok dropped ->
  (forall n, In n labels -> has_label (Col n) (columns dropped) = false)
  /\ forall l, In l (columns dropped)
               <-> In l (columns df) /\ named labels l = false.
Proof.
  unfold drop. destruct (forallb _ labels); [|discriminate].
  intros [= <-]. simpl. split.
  - intros n Hn. unfold has_label.
    destruct (existsb _ _) eqn:E; [|reflexivity].
    apply existsb_exists in E as [c [Hc Hnc]].
    apply filter_In in Hc as [_ Hc].
    assert (Hnamed : named labels c = true)
      by (apply existsb_exists; now exists n).
    rewrite Hnamed in Hc. discriminate.
  - intro l. rewrite filter_In.
    destruct (named labels l); simpl; intuition congruence.
Qed.

(** With the whole denylist present the call goes through. *)
Lemma preprocess_full_denylist_succeeds :
  snd (preprocess 0 [sample_table]) = Ok 3%nat.
Proof.
  reflexivity.
Qed.

(** C7, at the inputs where the code departs from it: when the table holds
    some denylist column but lacks another, [preprocess] removes nothing and
    stops with the KeyError of [drop]. *)
Theorem preprocess_partial_denylist_raises
        (h : heap) (data : nat) (df sorted : DataFrame)
        (present absent : string) :
  nth_error h data = Some df ->
  sort_values ["customer_ID"; "S_2"] df = Ok sorted ->
  In present remove_param ->
  has_label (Col present) (columns df) = true ->
  In absent remove_param ->
  has_label (Col absent) (columns df) = false ->
  snd (preprocess data h) = Raise KeyError.
Proof.
  intros Hd Hs Hp Hpc Ha Hac.
  assert (Hlt : (data < length h)%nat)
    by (apply nth_error_Some; congruence).
  destruct (sort_values_spec _ _ _ Hs) as [Hcols _].
  rewrite (preprocess_unfold _ _ _ _ Hd Hs).
  unfold bind_st at 1. unfold drop_denylist, bind_st, load, lift.
  rewrite (overwrite_same _ _ _ Hlt).
  change (columns (fillna sorted)) with (columns sorted). rewrite Hcols.
  replace (existsb _ remove_param) with true.
  2:{ symmetry. apply existsb_exists. now exists present. }
  unfold drop.
  change (columns (fillna sorted)) with (columns sorted). rewrite Hcols.
  destruct (forallb _ remove_param) eqn:E; [|reflexivity].
  rewrite forallb_forall in E. specialize (E absent Ha). congruence.
Qed.

Lemma preprocess_partial_denylist_raises_witness :
  snd (preprocess 0 [sample_partial]) = Raise KeyError.
Proof.
  apply (preprocess_partial_denylist_raises
           [sample_partial] 0 sample_partial sample_partial "S_2" "D_73");
    try reflexivity.
  - simpl. auto.
  - simpl. auto.
Defined.

End PreprocessClaims.

(** * Further properties of [preprocess] *)

Section PreprocessRuns.

Import Preprocess.
Local Open Scope string_scope.
Local Open Scope list_scope.

Lemma load_new (h : heap) (df : DataFrame) :
  load (length h) (h ++ [df]) = (h ++ [df], Ok df).
Proof.
  unfold load. rewrite nth_error_app2 by lia.
  now rewrite Nat.sub_diag.
Qed.

Lemma lookup_new (h : heap) (df : DataFrame) :
  nth_error (h ++ [df]) (length h) = Some df.
Proof.
  rewrite nth_error_app2 by lia. now rewrite Nat.sub_diag.
Qed.

Lemma bind_st_ok (A B : Type) (m : st A) (k : A -> st B)
      (h h' : heap) (a : A) :
  m h = (h', Ok a) -> bind_st m k h = k a h'.
Proof.
  intro H. unfold bind_st. now rewrite H.
Qed.

Lemma bind_st_raise (A B : Type) (m : st A) (k : A -> st B)
      (h h' : heap) (e : fault) :
  m h = (h', Raise e) -> bind_st m k h = (h', Raise e).
Proof.
  intro H. unfold bind_st. now rewrite H.
Qed.

Lemma load_ok (h : heap) (r : nat) (df : DataFrame) :
  nth_error h r = Some df -> load r h = (h, Ok df).
Proof.
  intro H. unfold load. now rewrite H.
Qed.

(** Lines 118-123 started on an object holding [df]. *)
Lemma encode_and_index_runs (h : heap) (data : nat) (df : DataFrame) :
  nth_error h data = Some df ->
  match (dummies <- get_dummies df category_param ;;
         set_index "customer_ID" dummies) with
  | Ok out =>
      exists r, snd (encode_and_index data h) = Ok r
                /\ nth_error (fst (encode_and_index data h)) r = Some out
  | Raise e => snd (encode_and_index data h) = Raise e
  end.
Proof.
  intro Hd. unfold encode_and_index.
  rewrite (bind_st_ok _ _ _ _ _ _ _ (load_ok _ _ _ Hd)).
  destruct (get_dummies df category_param) as [dummies | e] eqn:Eg;
    cbn [bind].
  - rewrite (bind_st_ok _ _ (lift (Ok dummies)) _ h h dummies eq_refl).
    rewrite (bind_st_ok _ _ (alloc dummies) _ h (h ++ [dummies]) (length h)
               eq_refl).
    rewrite (bind_st_ok _ _ _ _ _ _ _ (load_new h dummies)).
    destruct (set_index "customer_ID" dummies) as [out | e] eqn:Es.
    + rewrite (bind_st_ok _ _ (lift (Ok out)) _ _ _ out eq_refl).
      exists (length (h ++ [dummies])). cbn [alloc fst snd].
      split; [reflexivity|apply lookup_new].
    + now rewrite (bind_st_raise _ _ (lift (Raise e)) _ _ _ e eq_refl).
  - now rewrite (bind_st_raise _ _ (lift (Raise e)) _ h h e eq_refl).
Qed.

(** The call returns a reference to [returned_table] of the table it was
    given, and fails where [returned_table] fails. *)
Lemma preprocess_runs (h : heap) (data : nat) (df : DataFrame) :
  nth_error h data = Some df ->
  match returned_table df with
  | Ok out =>
      exists r, snd (preprocess data h) = Ok r
                /\ nth_error (fst (preprocess data h)) r = Some out
  | Raise e => snd (preprocess data h) = Raise e
  end.
Proof.
  intro Hd. unfold returned_table.
  destruct (sort_values ["customer_ID"; "S_2"] df) as [sorted | e] eqn:Hs;
    cbn [bind].
  - assert (Hlt : (data < length h)%nat)
      by (apply nth_error_Some; congruence).
    rewrite (preprocess_unfold _ _ _ _ Hd Hs).
    set (h2 := overwrite h data (fillna sorted)).
    assert (H2 : nth_error h2 data = Some (fillna sorted))
      by (now apply overwrite_same).
    assert (Hdrop : drop_denylist data h2
                    = if existsb (fun n => has_label (Col n)
                                             (columns (fillna sorted)))
                                 remove_param
                      then match drop remove_param (fillna sorted) with
                           | Ok dropped => (h2 ++ [dropped], Ok (length h2))
                           | Raise e => (h2, Raise e)
                           end
                      else (h2, Ok data)).
    { unfold drop_denylist.
      rewrite (bind_st_ok _ _ _ _ _ _ _ (load_ok _ _ _ H2)).
      destruct (existsb _ remove_param); [|reflexivity].
      destruct (drop remove_param (fillna sorted)) as [dropped | e].
      - now rewrite (bind_st_ok _ _ (lift (Ok dropped)) _ _ _ dropped eq_refl).
      - now rewrite (bind_st_raise _ _ (lift (Raise e)) _ _ _ e eq_refl). }
    destruct (existsb _ remove_param).
    + destruct (drop remove_param (fillna sorted)) as [dropped | e];
        cbn [bind].
      * rewrite (bind_st_ok _ _ _ _ _ _ _ Hdrop).
        apply (encode_and_index_runs (h2 ++ [dropped]) (length h2) dropped).
        apply lookup_new.
      * now rewrite (bind_st_raise _ _ _ _ _ _ _ Hdrop).
    + cbn [bind]. rewrite (bind_st_ok _ _ _ _ _ _ _ Hdrop).
      exact (encode_and_index_runs h2 data (fillna sorted) H2).
  - unfold preprocess.
    rewrite (bind_st_raise _ _ _ _ h h e); [reflexivity|].
    unfold sort_values_inplace.
    rewrite (bind_st_ok _ _ _ _ _ _ _ (load_ok _ _ _ Hd)).
    rewrite Hs.
    now rewrite (bind_st_raise _ _ (lift (Raise e)) _ h h e eq_refl).
Qed.

Lemma preprocess_result (h : heap) (data r : nat) (df out : DataFrame) :
  nth_error h data = Some df ->
  snd (preprocess data h) = Ok r ->
  nth_error (fst (preprocess data h)) r = Some out ->
  returned_table df = Ok out.
Proof.
  intros Hd Hr Hout. pose proof (preprocess_runs h data df Hd) as H.
  destruct (returned_table df) as [out' | e].
  - destruct H as [r' [Hr' Hout']]. congruence.
  - congruence.
Qed.

End PreprocessRuns.

Section LabelFacts.

Import Preprocess.
Local Open Scope string_scope.
Local Open Scope list_scope.

Lemma label_eqb_Col (n : string) (l : label) :
  label_eqb (Col n) l = true <-> l = Col n.
Proof.
  destruct l as [m | m v]; simpl.
  - rewrite String.eqb_eq. split; congruence.
  - split; discriminate.
Qed.

Lemma has_label_In (n : string) (cols : list label) :
  has_label (Col n) cols = true <-> In (Col n) cols.
Proof.
  unfold has_label. rewrite existsb_exists. split.
  - intros [l [Hl He]]. apply label_eqb_Col in He. now subst.
  - intro H. exists (Col n). split; [exact H|]. now apply label_eqb_Col.
Qed.

Lemma named_In (names : list string) (n : string) :
  named names (Col n) = true <-> In n names.
Proof.
  unfold named. rewrite existsb_exists. split.
  - intros [m [Hm He]]. apply label_eqb_Col in He. congruence.
  - intro H. exists n. split; [exact H|]. now apply label_eqb_Col.
Qed.

Lemma has_label_false_col_index (l : label) (cols : list label) :
  has_label l cols = false -> col_index l cols = None.
Proof.
  unfold has_label. induction cols as [|c r IH]; simpl; [reflexivity|].
  destruct (label_eqb l c); simpl; [discriminate|].
  intro H. now rewrite (IH H).
Qed.

Lemma has_label_true_col_index (l : label) (cols : list label) :
  has_label l cols = true -> exists i, col_index l cols = Some i.
Proof.
  intro H. destruct (col_index l cols) as [i|] eqn:E; [now exists i|].
  destruct (has_label l cols) eqn:E'; [|discriminate].
  assert (Hn : has_label l cols = false -> False) by congruence.
  destruct (existsb (label_eqb l) cols) eqn:Ex.
  - clear H Hn E'. exfalso. revert E. unfold has_label in *.
    induction cols as [|c r IH]; simpl in *; [discriminate|].
    destruct (label_eqb l c); [discriminate|]. simpl in Ex.
    destruct (col_index l r); [discriminate|]. intros _. now apply IH.
  - unfold has_label in E'. congruence.
Qed.

Lemma in_filter_named (names : list string) (n : string) (cols : list label) :
  In (Col n) (filter (fun l => negb (named names l)) cols)
  <-> In (Col n) cols /\ ~ In n names.
Proof.
  rewrite filter_In, <- named_In.
  destruct (named names (Col n)); simpl; intuition congruence.
Qed.

Lemma not_in_dummies (n : string) (es : list (string * nat * list cell)) :
  ~ In (Col n) (flat_map (fun e => map (Dummy (fst (fst e))) (snd e)) es).
Proof.
  intro H. apply in_flat_map in H as [e [_ H]].
  apply in_map_iff in H as [v [H _]]. discriminate.
Qed.

(** The categorical columns are encoded exactly when all of them exist. *)
Lemma encodings_ok (names : list string) (df : DataFrame) :
  (forall n, In n names -> In (Col n) (columns df)) ->
  exists es, encodings names df = Ok es.
Proof.
  induction names as [|n r IH]; intro H; simpl; [now exists []|].
  destruct (has_label_true_col_index (Col n) (columns df)) as [i Hi].
  { apply has_label_In, H. now left. }
  rewrite Hi.
  destruct IH as [es Hes]; [intros m Hm; apply H; now right|].
  rewrite Hes. simpl. eauto.
Qed.

Lemma encodings_present (names : list string) (df : DataFrame)
      (es : list (string * nat * list cell)) :
  encodings names df = Ok es ->
  forall n, In n names -> In (Col n) (columns df).
Proof.
  revert es. induction names as [|n r IH]; intros es H m Hm; [contradiction|].
  simpl in H.
  destruct (col_index (Col n) (columns df)) as [i|] eqn:Hi; [|discriminate].
  destruct (encodings r df) as [es'|] eqn:Hes; simpl in H; [|discriminate].
  destruct Hm as [<- | Hm].
  - apply has_label_In. eapply col_index_has_label. exact Hi.
  - exact (IH es' eq_refl m Hm).
Qed.

Lemma encodings_faults (names : list string) (df : DataFrame) (e : fault) :
  encodings names df = Raise e -> e = KeyError.
Proof.
  induction names as [|n r IH]; simpl; [discriminate|].
  destruct (col_index (Col n) (columns df)); [|now intros [= <-]].
  destruct (encodings r df); simpl; [discriminate|].
  intros [= <-]. now apply IH.
Qed.

Lemma key_positions_present (by_ : list string) (cols : list label)
      (ps : list nat) :
  key_positions by_ cols = Ok ps ->
  forall n, In n by_ -> In (Col n) cols.
Proof.
  revert ps. induction by_ as [|n r IH]; intros ps H m Hm; [contradiction|].
  simpl in H.
  destruct (col_index (Col n) cols) as [i|] eqn:Hi; [|discriminate].
  destruct (key_positions r cols) as [ps'|] eqn:Hps; simpl in H;
    [|discriminate].
  destruct Hm as [<- | Hm].
  - apply has_label_In. eapply col_index_has_label. exact Hi.
  - exact (IH ps' eq_refl m Hm).
Qed.

Lemma key_positions_missing (by_ : list string) (cols : list label)
      (n : string) :
  In n by_ -> ~ In (Col n) cols -> key_positions by_ cols = Raise KeyError.
Proof.
  induction by_ as [|m r IH]; intros Hn Hc; [contradiction|].
  simpl.
  destruct (col_index (Col m) cols) as [i|] eqn:Hi; [|reflexivity].
  destruct Hn as [-> | Hn].
  - exfalso. apply Hc, has_label_In. eapply col_index_has_label. exact Hi.
  - now rewrite (IH Hn Hc).
Qed.

Lemma sort_values_present (by_ : list string) (df sorted : DataFrame) :
  sort_values by_ df = Ok sorted ->
  forall n, In n by_ -> In (Col n) (columns df).
Proof.
  unfold sort_values.
  destruct (key_positions by_ (columns df)) as [ps|] eqn:E; simpl;
    [|discriminate].
  intros _. exact (key_positions_present _ _ _ E).
Qed.

End LabelFacts.

Section PreprocessOutcomes.

Import Preprocess.
Local Open Scope string_scope.
Local Open Scope list_scope.

Lemma config_disjoint (n : string) :
  In n category_param -> ~ In n remove_param.
Proof.
  intros Hc Hr.
  assert (H : forallb (fun m => negb (existsb (String.eqb m) remove_param))
                      category_param = true) by reflexivity.
  rewrite forallb_forall in H. specialize (H n Hc).
  apply negb_true_iff in H.
  assert (H' : existsb (String.eqb n) remove_param = true).
  { apply existsb_exists. exists n. split; [exact Hr|apply String.eqb_refl]. }
  congruence.
Qed.

Lemma customer_ID_kept :
  ~ In "customer_ID" remove_param /\ ~ In "customer_ID" category_param.
Proof.
  split; intro H; simpl in H;
    repeat (destruct H as [H | H]; [discriminate H|]); exact H.
Qed.

Lemma drop_spec (labels : list string) (df dropped : DataFrame) :
  drop labels df = Ok dropped ->
  (forall n, In n labels -> In (Col n) (columns df))
  /\ columns dropped = filter (fun l => negb (named labels l)) (columns df)
  /\ rows dropped
     = map (fun r => (fst r,
                      select (map (fun l => negb (named labels l)) (columns df))
                             (snd r)))
           (rows df).
Proof.
  unfold drop.
  destruct (forallb _ labels) eqn:E; [|discriminate].
  intros [= <-]. simpl. split; [|auto].
  rewrite forallb_forall in E. intros n Hn. apply has_label_In. auto.
Qed.

Lemma get_dummies_spec (names : list string) (df dummies : DataFrame) :
  get_dummies df names = Ok dummies ->
  exists es,
    encodings names df = Ok es
    /\ columns dummies
       = filter (fun l => negb (named names l)) (columns df)
         ++ flat_map (fun e => map (Dummy (fst (fst e))) (snd e)) es
    /\ rows dummies
       = map (fun r =>
                (fst r,
                 select (map (fun l => negb (named names l)) (columns df))
                        (snd r)
                 ++ flat_map (fun e =>
                                map (indicator (cell_at (snd (fst e)) r)) (snd e))
                      es))
             (rows df).
Proof.
  unfold get_dummies.
  destruct (encodings names df) as [es|]; simpl; [|discriminate].
  intros [= <-]. exists es. auto.
Qed.

Lemma set_index_spec (name : string) (df out : DataFrame) :
  set_index name df = Ok out ->
  exists i,
    col_index (Col name) (columns df) = Some i
    /\ columns out
       = filter (fun l => negb (label_eqb (Col name) l)) (columns df)
    /\ rows out
       = map (fun r =>
                (cell_at i r,
                 select (map (fun l => negb (label_eqb (Col name) l))
                             (columns df))
                        (snd r)))
             (rows df).
Proof.
  unfold set_index.
  destruct (col_index (Col name) (columns df)) as [i|]; [|discriminate].
  intros [= <-]. exists i. auto.
Qed.

(** A successful call has gone through all four stages: the branch that
    skips [drop] is never taken, [S_2] being both a sort key and on the
    denylist. *)
Lemma returned_table_stages (df out : DataFrame) :
  returned_table df = Ok out ->
  exists sorted dropped dummies,
    sort_values ["customer_ID"; "S_2"] df = Ok sorted
    /\ drop remove_param (fillna sorted) = Ok dropped
    /\ get_dummies dropped category_param = Ok dummies
    /\ set_index "customer_ID" dummies = Ok out.
Proof.
  unfold returned_table.
  destruct (sort_values ["customer_ID"; "S_2"] df) as [sorted|] eqn:Hs;
    cbn [bind]; [|discriminate].
  assert (Hex : existsb (fun n => has_label (Col n) (columns (fillna sorted)))
                        remove_param = true).
  { apply existsb_exists. exists "S_2". split; [simpl; auto|].
    apply has_label_In.
    destruct (sort_values_spec _ _ _ Hs) as [Hc _].
    change (columns (fillna sorted)) with (columns sorted). rewrite Hc.
    apply (sort_values_present _ _ _ Hs). simpl. auto. }
  rewrite Hex.
  destruct (drop remove_param (fillna sorted)) as [dropped|] eqn:Hd;
    cbn [bind]; [|discriminate].
  destruct (get_dummies dropped category_param) as [dummies|] eqn:Hg;
    cbn [bind]; [|discriminate].
  intro Hi. exists sorted, dropped, dummies. auto.
Qed.

(** X9: when the table lacks [customer_ID] or [S_2], [preprocess] stops with
    a KeyError before it has changed anything: the heap, and with it the
    caller's table, is as it was. *)
Theorem preprocess_missing_key_changes_nothing
        (h : heap) (data : nat) (df : DataFrame) :
  nth_error h data = Some df ->
  ~ In (Col "customer_ID") (columns df) \/ ~ In (Col "S_2") (columns df) ->
  preprocess data h = (h, Raise KeyError).
Proof.
  intros Hd Hmiss.
  assert (Hs : sort_values ["customer_ID"; "S_2"] df = Raise KeyError).
  { unfold sort_values.
    destruct Hmiss as [Hc | Hc];
      [rewrite (key_positions_missing _ _ "customer_ID")
      |rewrite (key_positions_missing _ _ "S_2")];
      simpl; auto. }
  unfold preprocess.
  apply bind_st_raise. unfold sort_values_inplace.
  rewrite (bind_st_ok _ _ _ _ _ _ _ (load_ok _ _ _ Hd)).
  rewrite Hs.
  now rewrite (bind_st_raise _ _ (lift (Raise KeyError)) _ h h KeyError eq_refl).
Qed.

Lemma preprocess_missing_key_changes_nothing_witness :
  preprocess 0 [mkFrame [Col "customer_ID"; Col "P_2"]
                        [(Num 0, [Str "a"; NaN])]]
  = ([mkFrame [Col "customer_ID"; Col "P_2"] [(Num 0, [Str "a"; NaN])]],
     Raise KeyError).
Proof.
  apply (preprocess_missing_key_changes_nothing
           [mkFrame [Col "customer_ID"; Col "P_2"] [(Num 0, [Str "a"; NaN])]]
           0 (mkFrame [Col "customer_ID"; Col "P_2"] [(Num 0, [Str "a"; NaN])])).
  - reflexivity.
  - right. simpl. intros [H | [H | []]]; discriminate H.
Defined.

End PreprocessOutcomes.

Section PreprocessResult.

Import Preprocess.
Local Open Scope string_scope.
Local Open Scope list_scope.

Lemma preprocess_ok_iff (h : heap) (data : nat) (df : DataFrame) :
  nth_error h data = Some df ->
  ((exists r, snd (preprocess data h) = Ok r)
   <-> exists out, returned_table df = Ok out).
Proof.
  intro Hd. pose proof (preprocess_runs h data df Hd) as H.
  destruct (returned_table df) as [out | e].
  - destruct H as [r [Hr _]]. split; eauto.
  - split; intros [x Hx]; congruence.
Qed.

Lemma select_In (keep : list bool) (cells : list cell) (c : cell) :
  In c (select keep cells) -> In c cells.
Proof.
  revert cells. induction keep as [|b keep IH]; intros [|x cells]; simpl;
    try contradiction.
  destruct b; simpl; intuition.
Qed.

(** X10: [preprocess] succeeds exactly when the table can be sorted by
    (customer_ID, S_2) and has every column of the denylist and every
    categorical column; a table that lacks any of them makes it fail. *)
Theorem preprocess_succeeds_iff (h : heap) (data : nat) (df : DataFrame) :
  nth_error h data = Some df ->
  ((exists r, snd (preprocess data h) = Ok r)
   <-> (exists sorted, sort_values ["customer_ID"; "S_2"] df = Ok sorted)
       /\ (forall n, In n remove_param -> In (Col n) (columns df))
       /\ (forall n, In n category_param -> In (Col n) (columns df))).
Proof.
  intro Hd. rewrite (preprocess_ok_iff h data df Hd). split.
  - intros [out Hout].
    destruct (returned_table_stages _ _ Hout)
      as [sorted [dropped [dummies [Hs [Hdr [Hg _]]]]]].
    destruct (sort_values_spec _ _ _ Hs) as [Hc _].
    destruct (drop_spec _ _ _ Hdr) as [Hall [Hcd _]].
    change (columns (fillna sorted)) with (columns sorted) in Hall, Hcd.
    rewrite Hc in Hall, Hcd.
    split; [now exists sorted|]. split; [exact Hall|].
    intros n Hn.
    destruct (get_dummies_spec _ _ _ Hg) as [es [He _]].
    pose proof (encodings_present _ _ _ He n Hn) as Hin.
    rewrite Hcd in Hin. now apply in_filter_named in Hin.
  - intros [[sorted Hs] [Hrem Hcat]].
    destruct (sort_values_spec _ _ _ Hs) as [Hc _].
    unfold returned_table. rewrite Hs. cbn [bind].
    change (columns (fillna sorted)) with (columns sorted). rewrite Hc.
    replace (existsb _ remove_param) with true.
    2:{ symmetry. apply existsb_exists. exists "S_2".
        split; [simpl; auto|]. apply has_label_In, Hrem. simpl. auto. }
    unfold drop.
    change (columns (fillna sorted)) with (columns sorted). rewrite Hc.
    replace (forallb _ remove_param) with true.
    2:{ symmetry. apply forallb_forall. intros n Hn.
        apply has_label_In. auto. }
    cbn [bind]. unfold get_dummies.
    match goal with
    | |- context [encodings category_param ?d] =>
        destruct (encodings_ok category_param d) as [es He]
    end.
    { intros n Hn. cbn [columns]. apply in_filter_named.
      split; [auto|now apply config_disjoint]. }
    rewrite He. cbn [bind]. unfold set_index. cbn [columns].
    match goal with
    | |- context [col_index ?l ?cols] =>
        destruct (has_label_true_col_index l cols) as [i Hi]
    end.
    { apply has_label_In, in_or_app. left.
      destruct customer_ID_kept as [Hr Hk].
      apply in_filter_named. split; [|exact Hk].
      apply in_filter_named. split; [|exact Hr].
      apply (sort_values_present _ _ _ Hs). simpl. auto. }
    rewrite Hi. eauto.
Qed.

Lemma preprocess_succeeds_iff_witness :
  (exists r, snd (preprocess 0 [sample_table]) = Ok r)
  <-> (exists sorted,
          sort_values ["customer_ID"; "S_2"] sample_table = Ok sorted)
      /\ (forall n, In n remove_param -> In (Col n) (columns sample_table))
      /\ (forall n, In n category_param -> In (Col n) (columns sample_table)).
Proof.
  apply (preprocess_succeeds_iff [sample_table] 0 sample_table).
  reflexivity.
Defined.

(** X11: the table a successful call returns has none of the denylist
    columns, none of the categorical columns as such and no [customer_ID]
    column, and it has every other column of the input. *)
Theorem preprocess_result_columns
        (h : heap) (data r : nat) (df out : DataFrame) :
  nth_error h data = Some df ->
  snd (preprocess data h) = Ok r ->
  nth_error (fst (preprocess data h)) r = Some out ->
  forall n,
    In (Col n) (columns out)
    <-> In (Col n) (columns df)
        /\ ~ In n remove_param /\ ~ In n category_param
        /\ n <> "customer_ID".
Proof.
  intros Hd Hr Hout n.
  pose proof (preprocess_result _ _ _ _ _ Hd Hr Hout) as Ht.
  destruct (returned_table_stages _ _ Ht)
    as [sorted [dropped [dummies [Hs [Hdr [Hg Hi]]]]]].
  destruct (sort_values_spec _ _ _ Hs) as [Hc _].
  destruct (drop_spec _ _ _ Hdr) as [_ [Hcd _]].
  change (columns (fillna sorted)) with (columns sorted) in Hcd.
  rewrite Hc in Hcd.
  destruct (get_dummies_spec _ _ _ Hg) as [es [_ [Hcg _]]].
  destruct (set_index_spec _ _ _ Hi) as [i [_ [Hco _]]].
  rewrite Hco, filter_In, Hcg, in_app_iff, Hcd, !in_filter_named.
  assert (Hne : negb (label_eqb (Col "customer_ID") (Col n)) = true
                <-> n <> "customer_ID").
  { rewrite negb_true_iff.
    change (label_eqb (Col "customer_ID") (Col n))
      with (String.eqb "customer_ID" n).
    destruct (String.eqb_spec "customer_ID" n) as [E | E];
      split; intro H; congruence. }
  rewrite Hne. split.
  - intros [[H | H] Hn]; [tauto|].
    exfalso. exact (not_in_dummies n es H).
  - tauto.
Qed.

Lemma preprocess_result_columns_witness :
  In (Col "P_2")
     (columns (nth 3 (fst (preprocess 0 [sample_table])) sample_table))
  <-> In (Col "P_2") (columns sample_table)
      /\ ~ In "P_2" remove_param /\ ~ In "P_2" category_param
      /\ "P_2" <> "customer_ID".
Proof.
  apply (preprocess_result_columns [sample_table] 0 3 sample_table);
    reflexivity.
Defined.

Lemma no_missing_rows (df : DataFrame) (f : cell * list cell -> cell)
      (g : cell * list cell -> list cell) (cols : list label) :
  no_missing df ->
  (forall r c, In r (rows df) -> In c (g r) -> In c (snd r) \/ c <> NaN) ->
  no_missing (mkFrame cols (map (fun r => (f r, g r)) (rows df))).
Proof.
  intros Hn Hg r c Hr Hc. simpl in Hr.
  apply in_map_iff in Hr as [r0 [<- Hr0]]. simpl in Hc.
  destruct (Hg r0 c Hr0 Hc) as [H | H]; [exact (Hn r0 c Hr0 H)|exact H].
Qed.

Lemma frame_eta (df : DataFrame) : df = mkFrame (columns df) (rows df).
Proof. now destruct df. Qed.

(** X12: the table a successful call returns has one row per row of the
    input, and none of its cells is missing. *)
Theorem preprocess_result_rows
        (h : heap) (data r : nat) (df out : DataFrame) :
  nth_error h data = Some df ->
  snd (preprocess data h) = Ok r ->
  nth_error (fst (preprocess data h)) r = Some out ->
  length (rows out) = length (rows df) /\ no_missing out.
Proof.
  intros Hd Hr Hout.
  pose proof (preprocess_result _ _ _ _ _ Hd Hr Hout) as Ht.
  destruct (returned_table_stages _ _ Ht)
    as [sorted [dropped [dummies [Hs [Hdr [Hg Hi]]]]]].
  destruct (sort_values_spec _ _ _ Hs) as [_ [Hperm _]].
  destruct (drop_spec _ _ _ Hdr) as [_ [_ Hrd]].
  destruct (get_dummies_spec _ _ _ Hg) as [es [_ [_ Hrg]]].
  destruct (set_index_spec _ _ _ Hi) as [i [_ [_ Hro]]].
  split.
  - rewrite Hro, length_map, Hrg, length_map, Hrd, length_map.
    unfold fillna. cbn [rows]. rewrite length_map.
    exact (Permutation_length Hperm).
  - assert (N1 : no_missing dropped).
    { rewrite (frame_eta dropped), Hrd.
      apply no_missing_rows; [apply fillna_no_missing|].
      intros r0 c _ Hc. left. exact (select_In _ _ _ Hc). }
    assert (N2 : no_missing dummies).
    { rewrite (frame_eta dummies), Hrg.
      apply no_missing_rows; [exact N1|].
      intros r0 c _ Hc. apply in_app_or in Hc as [Hc | Hc].
      - left. exact (select_In _ _ _ Hc).
      - right. apply in_flat_map in Hc as [e [_ Hc]].
        apply in_map_iff in Hc as [v [<- _]].
        unfold indicator. destruct (cell_eqb _ v); discriminate. }
    rewrite (frame_eta out), Hro.
    apply no_missing_rows; [exact N2|].
    intros r0 c _ Hc. left. exact (select_In _ _ _ Hc).
Qed.

Lemma preprocess_result_rows_witness :
  length (rows (nth 3 (fst (preprocess 0 [sample_table])) sample_table))
  = length (rows sample_table)
  /\ no_missing (nth 3 (fst (preprocess 0 [sample_table])) sample_table).
Proof.
  apply (preprocess_result_rows [sample_table] 0 3 sample_table);
    reflexivity.
Defined.

End PreprocessResult.

Section OneHot.

Import Preprocess.
Local Open Scope string_scope.
Local Open Scope list_scope.

Lemma cell_eqb_sym (a b : cell) : cell_eqb a b = cell_eqb b a.
Proof.
  destruct a, b; simpl; try reflexivity.
  - apply Qeq_bool_comm.
  - apply String.eqb_sym.
Qed.

Lemma cell_eqb_trans (a b c : cell) :
  cell_eqb a b = true -> cell_eqb b c = true -> cell_eqb a c = true.
Proof.
  destruct a, b, c; simpl; try discriminate; auto.
  - apply Qeq_bool_trans.
  - rewrite !String.eqb_eq. congruence.
Qed.

Lemma cell_eqb_refl (a : cell) : cell_eqb a a = true.
Proof.
  destruct a; simpl; [reflexivity|apply Qeq_bool_refl|apply String.eqb_refl].
Qed.

Lemma filter_none (A : Type) (f : A -> bool) (l : list A) :
  (forall x, In x l -> f x = false) -> filter f l = [].
Proof.
  induction l as [|x r IH]; intro H; simpl; [reflexivity|].
  rewrite (H x (or_introl eq_refl)). apply IH. intros; apply H; now right.
Qed.

Lemma filter_filter_same (A : Type) (f g : A -> bool) (l : list A) :
  (forall x, In x l -> f x = true -> g x = true) ->
  filter f (filter g l) = filter f l.
Proof.
  induction l as [|x r IH]; intro H; simpl; [reflexivity|].
  destruct (g x) eqn:Eg; simpl.
  - destruct (f x); rewrite IH; auto; intros; apply H; auto; now right.
  - destruct (f x) eqn:Ef.
    + rewrite (H x (or_introl eq_refl) Ef) in Eg. discriminate.
    + apply IH. intros; apply H; auto; now right.
Qed.

(** Among the distinct values of a column, exactly one equals a given
    value of the column. *)
Lemma distinct_one_match (vals : list cell) (c : cell) :
  c <> NaN -> In c vals ->
  length (filter (cell_eqb c) (distinct vals)) = 1%nat.
Proof.
  intros Hc. induction vals as [|v r IH]; intro Hin; [contradiction|].
  cbn [distinct].
  destruct (cell_eqb c v) eqn:Ecv.
  - assert (Hv : is_nan v = false)
      by (destruct c, v; simpl in *; congruence).
    rewrite Hv. cbn [filter]. rewrite Ecv.
    rewrite filter_none; [reflexivity|].
    intros w Hw. apply filter_In in Hw as [_ Hw].
    apply negb_true_iff in Hw.
    destruct (cell_eqb c w) eqn:Ecw; [|reflexivity].
    rewrite cell_eqb_sym in Ecv.
    rewrite (cell_eqb_trans _ _ _ Ecv Ecw) in Hw. discriminate.
  - assert (Hr : In c r).
    { destruct Hin as [-> | Hin]; [|exact Hin].
      rewrite cell_eqb_refl in Ecv. discriminate. }
    specialize (IH Hr).
    destruct (is_nan v); [exact IH|].
    cbn [filter]. rewrite Ecv.
    rewrite filter_filter_same; [exact IH|].
    intros w _ Hw. apply negb_true_iff.
    destruct (cell_eqb v w) eqn:Evw; [|reflexivity].
    rewrite cell_eqb_sym in Evw.
    rewrite (cell_eqb_trans _ _ _ Hw Evw) in Ecv. discriminate.
Qed.

Lemma filter_length_perm (A : Type) (f : A -> bool) (l l' : list A) :
  Permutation l l' -> length (filter f l) = length (filter f l').
Proof.
  induction 1; simpl; auto.
  - destruct (f x); simpl; auto.
  - destruct (f x), (f y); reflexivity.
  - congruence.
Qed.

Lemma levels_one_match (vals : list cell) (c : cell) :
  c <> NaN -> In c vals ->
  length (filter (cell_eqb c) (levels vals)) = 1%nat.
Proof.
  intros Hc Hin. unfold levels.
  rewrite (filter_length_perm _ _ _ _ (sort_by_perm _ cell_leb _)).
  now apply distinct_one_match.
Qed.

Lemma indicator_block_one_hot (vals : list cell) (c : cell) :
  c <> NaN -> In c vals ->
  one_hot (map (indicator c) (levels vals)).
Proof.
  intros Hc Hin. split.
  - apply Forall_forall. intros x Hx.
    apply in_map_iff in Hx as [v [<- _]].
    unfold indicator. destruct (cell_eqb c v); auto.
  - rewrite <- (levels_one_match vals c Hc Hin).
    induction (levels vals) as [|v r IH]; [reflexivity|].
    cbn [map filter]. unfold indicator at 1.
    destruct (cell_eqb c v); simpl; now rewrite IH.
Qed.

End OneHot.

Section EncodedRows.

Import Preprocess.
Local Open Scope string_scope.
Local Open Scope list_scope.

Lemma select_length (A : Type) (f : A -> bool) (cols : list A)
      (cells : list cell) :
  length cells = length cols ->
  length (select (map f cols) cells) = length (filter f cols).
Proof.
  revert cells. induction cols as [|c cols IH]; intros [|x cells] H;
    simpl in *; try reflexivity; try discriminate.
  destruct (f c); simpl; rewrite IH by lia; reflexivity.
Qed.

Lemma select_app (k k' : list bool) (a b : list cell) :
  length k = length a ->
  select (k ++ k') (a ++ b) = select k a ++ select k' b.
Proof.
  revert a. induction k as [|x k IH]; intros [|y a] H; simpl in *;
    try discriminate; [reflexivity|].
  destruct x; simpl; rewrite IH by lia; reflexivity.
Qed.

Lemma select_all (k : list bool) (b : list cell) :
  Forall (fun x => x = true) k -> length k = length b -> select k b = b.
Proof.
  revert b. induction k as [|x k IH]; intros [|y b] Hk H; simpl in *;
    try discriminate; [reflexivity|].
  inversion Hk as [|? ? -> Hk']; subst. rewrite IH by (auto; lia).
  reflexivity.
Qed.

Lemma filter_all (A : Type) (f : A -> bool) (l : list A) :
  Forall (fun x => f x = true) l -> filter f l = l.
Proof.
  induction 1 as [|x r Hx _ IH]; simpl; [reflexivity|].
  now rewrite Hx, IH.
Qed.

Lemma col_index_bound (l : label) (cols : list label) (i : nat) :
  col_index l cols = Some i -> (i < length cols)%nat.
Proof.
  revert i. induction cols as [|c r IH]; intro i; simpl; [discriminate|].
  destruct (label_eqb l c); [intros [= <-]; lia|].
  destruct (col_index l r) as [j|]; simpl; [|discriminate].
  intros [= <-]. specialize (IH j eq_refl). lia.
Qed.

Lemma encodings_spec (names : list string) (df : DataFrame)
      (es : list (string * nat * list cell)) :
  encodings names df = Ok es ->
  map (fun e => fst (fst e)) es = names
  /\ Forall (fun e =>
               (snd (fst e) < length (columns df))%nat
               /\ snd e = levels (map (cell_at (snd (fst e))) (rows df)))
            es.
Proof.
  revert es. induction names as [|n r IH]; intros es H; simpl in H.
  - injection H as <-. split; [reflexivity|constructor].
  - destruct (col_index (Col n) (columns df)) as [i|] eqn:Hi; [|discriminate].
    destruct (encodings r df) as [es'|]; simpl in H; [|discriminate].
    injection H as <-. destruct (IH es' eq_refl) as [Hn Hall].
    split; [simpl; now rewrite Hn|].
    constructor; [|exact Hall]. simpl.
    split; [exact (col_index_bound _ _ _ Hi)|reflexivity].
Qed.

Lemma flat_map_length_eq (A B C : Type) (f : A -> list B) (g : A -> list C)
      (l : list A) :
  (forall x, length (f x) = length (g x)) ->
  length (flat_map f l) = length (flat_map g l).
Proof.
  intro H. induction l as [|x r IH]; simpl; [reflexivity|].
  now rewrite !length_app, H, IH.
Qed.

Lemma Forall2_map_right (A B : Type) (P : A -> B -> Prop) (f : A -> B)
      (l : list A) :
  (forall x, In x l -> P x (f x)) -> Forall2 P l (map f l).
Proof.
  induction l as [|x r IH]; intro H; simpl; constructor.
  - apply H. now left.
  - apply IH. intros; apply H; now right.
Qed.

(** After [fillna] and [drop] the table is well formed and has no missing
    cell. *)
Lemma dropped_table (df sorted dropped : DataFrame) :
  well_formed df ->
  sort_values ["customer_ID"; "S_2"] df = Ok sorted ->
  drop remove_param (fillna sorted) = Ok dropped ->
  well_formed dropped /\ no_missing dropped.
Proof.
  intros Hwf Hs Hdr.
  destruct (sort_values_spec _ _ _ Hs) as [Hc [Hperm _]].
  destruct (drop_spec _ _ _ Hdr) as [_ [Hcd Hrd]].
  change (columns (fillna sorted)) with (columns sorted) in Hcd, Hrd.
  split.
  - unfold well_formed. rewrite Hrd, Hcd. apply Forall_forall.
    intros r Hr. apply in_map_iff in Hr as [r0 [<- Hr0]]. simpl.
    apply select_length.
    unfold fillna in Hr0. simpl in Hr0.
    apply in_map_iff in Hr0 as [r1 [<- Hr1]]. simpl.
    rewrite length_map, Hc.
    unfold well_formed in Hwf. rewrite Forall_forall in Hwf.
    apply Hwf. exact (Permutation_in _ Hperm Hr1).
  - rewrite (frame_eta dropped), Hrd.
    apply no_missing_rows; [apply fillna_no_missing|].
    intros r0 c _ H. left. exact (select_In _ _ _ H).
Qed.

(** X13: in the table a successful call returns, the columns end with one
    group of indicator columns per categorical column, and in every row each
    group holds exactly one 1: a missing categorical value, turned into 0 by
    line 113, is a category of its own and never an all-zero group. *)
Theorem preprocess_result_one_hot
        (h : heap) (data r : nat) (df out : DataFrame) :
  nth_error h data = Some df ->
  snd (preprocess data h) = Ok r ->
  nth_error (fst (preprocess data h)) r = Some out ->
  well_formed df ->
  exists es kept_cols,
    map (fun e : string * nat * list cell => fst (fst e)) es = category_param
    /\ columns out
       = kept_cols ++ flat_map (fun e => map (Dummy (fst (fst e))) (snd e)) es
    /\ forall row,
        In row (rows out) ->
        exists kept blocks,
          snd row = kept ++ concat blocks
          /\ length kept = length kept_cols
          /\ Forall2 (fun e b => length b = length (snd e) /\ one_hot b)
                     es blocks.
Proof.
  intros Hd Hr Hout Hwf.
  pose proof (preprocess_result _ _ _ _ _ Hd Hr Hout) as Ht.
  destruct (returned_table_stages _ _ Ht)
    as [sorted [dropped [dummies [Hs [Hdr [Hg Hi]]]]]].
  destruct (dropped_table _ _ _ Hwf Hs Hdr) as [Hwd Hnd].
  destruct (get_dummies_spec _ _ _ Hg) as [es [He [Hcg Hrg]]].
  destruct (set_index_spec _ _ _ Hi) as [i [_ [Hco Hro]]].
  destruct (encodings_spec _ _ _ He) as [Hnames Hes].
  set (f2 := fun l => negb (named category_param l)) in *.
  set (f3 := fun l => negb (label_eqb (Col "customer_ID") l)) in *.
  set (dl := flat_map (fun e : string * nat * list cell =>
                         map (Dummy (fst (fst e))) (snd e)) es) in *.
  assert (Hdl : Forall (fun l => f3 l = true) dl).
  { apply Forall_forall. intros l Hl. unfold dl in Hl.
    apply in_flat_map in Hl as [e [_ Hl]].
    apply in_map_iff in Hl as [v [<- _]]. reflexivity. }
  exists es, (filter f3 (filter f2 (columns dropped))).
  split; [exact Hnames|]. split.
  - rewrite Hco, Hcg, filter_app. f_equal. now apply filter_all.
  - intros row Hrow. rewrite Hro in Hrow.
    apply in_map_iff in Hrow as [rd' [<- Hrd']]. rewrite Hrg in Hrd'.
    apply in_map_iff in Hrd' as [rd [<- Hrd]]. cbn [snd].
    unfold well_formed in Hwd. rewrite Forall_forall in Hwd.
    pose proof (Hwd rd Hrd) as Hlen.
    set (blocks := map (fun e : string * nat * list cell =>
                          map (indicator (cell_at (snd (fst e)) rd)) (snd e))
                       es).
    exists (select (map f3 (filter f2 (columns dropped)))
                   (select (map f2 (columns dropped)) (snd rd))), blocks.
    split; [|split].
    + rewrite Hcg, map_app.
      rewrite select_app
        by (rewrite length_map; symmetry; now apply select_length).
      f_equal. unfold blocks. rewrite <- flat_map_concat_map.
      apply select_all.
      * apply Forall_forall. intros b Hb.
        apply in_map_iff in Hb as [l [<- Hl]].
        rewrite Forall_forall in Hdl. now apply Hdl.
      * rewrite length_map. unfold dl. apply flat_map_length_eq.
        intro e. now rewrite !length_map.
    + apply select_length. now apply select_length.
    + unfold blocks. apply Forall2_map_right. intros e Hin.
      rewrite Forall_forall in Hes. destruct (Hes e Hin) as [Hbound Hlev].
      split; [now rewrite length_map|].
      rewrite Hlev. apply indicator_block_one_hot.
      * apply (Hnd rd); [exact Hrd|].
        unfold cell_at. apply nth_In. rewrite Hlen. exact Hbound.
      * apply in_map. exact Hrd.
Qed.

Lemma sample_table_well_formed : well_formed sample_table.
Proof.
  repeat constructor.
Qed.

Lemma preprocess_result_one_hot_witness :
  exists es kept_cols,
    map (fun e : string * nat * list cell => fst (fst e)) es = category_param
    /\ columns (nth 3 (fst (preprocess 0 [sample_table])) sample_table)
       = kept_cols ++ flat_map (fun e => map (Dummy (fst (fst e))) (snd e)) es
    /\ forall row,
        In row (rows (nth 3 (fst (preprocess 0 [sample_table])) sample_table)) ->
        exists kept blocks,
          snd row = kept ++ concat blocks
          /\ length kept = length kept_cols
          /\ Forall2 (fun e b => length b = length (snd e) /\ one_hot b)
                     es blocks.
Proof.
  apply (preprocess_result_one_hot [sample_table] 0 3 sample_table);
    try reflexivity.
  exact sample_table_well_formed.
Defined.

End EncodedRows.

Section ResultIndex.

Import Preprocess.
Local Open Scope string_scope.
Local Open Scope list_scope.

(** A kept column keeps its cell when columns are removed. *)
Lemma cell_at_select (f : label -> bool) (n : string) (cols : list label) :
  f (Col n) = true ->
  forall i, col_index (Col n) cols = Some i ->
  exists i',
    col_index (Col n) (filter f cols) = Some i'
    /\ forall cells, length cells = length cols ->
                     nth i' (select (map f cols) cells) NaN = nth i cells NaN.
Proof.
  intro Hf. induction cols as [|c cols IH]; intros i Hi; [discriminate|].
  cbn [col_index] in Hi. destruct (label_eqb (Col n) c) eqn:E.
  - injection Hi as <-. apply label_eqb_Col in E. subst c.
    exists 0%nat. cbn [filter map]. rewrite Hf. cbn [col_index].
    rewrite (proj2 (label_eqb_Col n (Col n)) eq_refl).
    split; [reflexivity|].
    intros [|x cells] H; [discriminate|reflexivity].
  - destruct (col_index (Col n) cols) as [j|]; [|discriminate].
    injection Hi as <-. destruct (IH j eq_refl) as [j' [Hj' Hnth]].
    cbn [filter map]. destruct (f c).
    + exists (S j'). cbn [col_index]. rewrite E, Hj'. split; [reflexivity|].
      intros [|x cells] H; [discriminate|]. cbn [select nth]. apply Hnth.
      simpl in H. lia.
    + exists j'. split; [exact Hj'|].
      intros [|x cells] H; [discriminate|]. cbn [select]. apply Hnth.
      simpl in H. lia.
Qed.

Lemma col_index_app (l : label) (a b : list label) (i : nat) :
  col_index l a = Some i -> col_index l (a ++ b) = Some i.
Proof.
  revert i. induction a as [|c a IH]; intro i; simpl; [discriminate|].
  destruct (label_eqb l c); [auto|].
  destruct (col_index l a) as [j|]; [|discriminate].
  intros [= <-]. now rewrite (IH j eq_refl).
Qed.

Lemma select_nil (keep : list bool) : select keep [] = [].
Proof.
  destruct keep; reflexivity.
Qed.

Lemma select_select (f g : label -> bool) (cols : list label)
      (cells : list cell) :
  select (map g (filter f cols)) (select (map f cols) cells)
  = select (map (fun l => f l && g l) cols) cells.
Proof.
  revert cells. induction cols as [|c cols IH]; intros [|x cells];
    cbn [map filter select]; try (now rewrite ?select_nil).
  destruct (f c) eqn:Ef; cbn [map select andb].
  - destruct (g c); now rewrite IH.
  - apply IH.
Qed.

Lemma position_col_index (name : string) (cols : list label) (i : nat) :
  col_index (Col name) cols = Some i -> position name cols = i.
Proof.
  intro H. unfold position. now rewrite H.
Qed.

(** The encodings list the categorical columns in turn, each with its
    position and its categories. *)
Lemma encodings_as_map (names : list string) (df : DataFrame)
      (es : list (string * nat * list cell)) :
  encodings names df = Ok es ->
  es = map (fun name =>
              (name, position name (columns df),
               levels (map (cell_at (position name (columns df))) (rows df))))
           names.
Proof.
  revert es. induction names as [|n r IH]; intros es H; simpl in H.
  - now injection H as <-.
  - destruct (col_index (Col n) (columns df)) as [i|] eqn:Hi; [|discriminate].
    destruct (encodings r df) as [es'|]; simpl in H; [|discriminate].
    injection H as <-. cbn [map].
    rewrite (position_col_index _ _ _ Hi), (IH es' eq_refl). reflexivity.
Qed.

Lemma flat_map_map (A B C : Type) (f : B -> list C) (g : A -> B)
      (l : list A) :
  flat_map f (map g l) = flat_map (fun x => f (g x)) l.
Proof.
  induction l as [|x l IH]; simpl; [reflexivity|]. now rewrite IH.
Qed.

Lemma flat_map_ext_in (A B : Type) (f g : A -> list B) (l : list A) :
  (forall x, In x l -> f x = g x) -> flat_map f l = flat_map g l.
Proof.
  induction l as [|x l IH]; intro H; simpl; [reflexivity|].
  rewrite (H x (or_introl eq_refl)), IH; [reflexivity|].
  intros; apply H; now right.
Qed.

(** X16: the rows of the returned table are the rows of the sorted, filled
    input, one for one and in that order: row [k] is keyed by the
    [customer_ID] cell of sorted row [k], holds its cells in the kept columns
    and then, for each categorical column, the indicators of its value. *)
Theorem preprocess_result_index
        (h : heap) (data r : nat) (df out sorted : DataFrame) (i : nat) :
  nth_error h data = Some df ->
  snd (preprocess data h) = Ok r ->
  nth_error (fst (preprocess data h)) r = Some out ->
  well_formed df ->
  sort_values ["customer_ID"; "S_2"] df = Ok sorted ->
  col_index (Col "customer_ID") (columns df) = Some i ->
  rows out
  = map (encoded_row (columns df) (fillna sorted)) (rows (fillna sorted))
  /\ map fst (rows out)
     = map (fun row => fill_cell (cell_at i row)) (rows sorted).
Proof.
  intros Hd Hr Hout Hwf Hs Hi.
  pose proof (preprocess_result _ _ _ _ _ Hd Hr Hout) as Ht.
  destruct (returned_table_stages _ _ Ht)
    as [sorted' [dropped [dummies [Hs' [Hdr [Hg Hix]]]]]].
  rewrite Hs in Hs'. injection Hs' as <-.
  destruct (sort_values_spec _ _ _ Hs) as [Hc [Hperm _]].
  destruct (dropped_table _ _ _ Hwf Hs Hdr) as [Hwd _].
  destruct (drop_spec _ _ _ Hdr) as [_ [Hcd Hrd]].
  change (columns (fillna sorted)) with (columns sorted) in Hcd, Hrd.
  rewrite Hc in Hcd, Hrd.
  destruct (get_dummies_spec _ _ _ Hg) as [es [He [Hcg Hrg]]].
  destruct (set_index_spec _ _ _ Hix) as [i3 [Hi3 [_ Hro]]].
  destruct customer_ID_kept as [Hkr Hkc].
  set (f1 := fun l => negb (named remove_param l)) in *.
  set (f2 := fun l => negb (named category_param l)) in *.
  set (f3 := fun l => negb (label_eqb (Col "customer_ID") l)) in *.
  assert (Hf1 : forall n, ~ In n remove_param -> f1 (Col n) = true).
  { intros n Hn. unfold f1. apply negb_true_iff.
    destruct (named remove_param (Col n)) eqn:E; [|reflexivity].
    apply named_In in E. contradiction. }
  assert (Hf2 : f2 (Col "customer_ID") = true).
  { unfold f2. apply negb_true_iff.
    destruct (named category_param (Col "customer_ID")) eqn:E; [|reflexivity].
    apply named_In in E. contradiction. }
  (* every filled row has one cell per column *)
  assert (Hlenf : forall fr, In fr (rows (fillna sorted)) ->
                             length (snd fr) = length (columns df)).
  { intros fr Hfr. unfold fillna in Hfr. cbn [rows] in Hfr.
    apply in_map_iff in Hfr as [r0 [<- Hr0]]. cbn [snd].
    rewrite length_map.
    unfold well_formed in Hwf. rewrite Forall_forall in Hwf.
    apply Hwf. exact (Permutation_in _ Hperm Hr0). }
  (* a column outside the denylist is read at the same place after [drop] *)
  assert (Hread : forall n fr,
             ~ In n remove_param -> In (Col n) (columns df) ->
             In fr (rows (fillna sorted)) ->
             cell_at (position n (columns dropped))
                     (fst fr, select (map f1 (columns df)) (snd fr))
             = cell_at (position n (columns df)) fr).
  { intros n fr Hn Hin Hfr.
    destruct (has_label_true_col_index (Col n) (columns df)) as [j Hj];
      [now apply has_label_In|].
    destruct (cell_at_select f1 n (columns df) (Hf1 n Hn) j Hj)
      as [j' [Hj' Hnth]].
    rewrite <- Hcd in Hj'.
    rewrite (position_col_index _ _ _ Hj), (position_col_index _ _ _ Hj').
    unfold cell_at. cbn [snd]. apply Hnth. now apply Hlenf. }
  assert (Hrows : rows out
                  = map (encoded_row (columns df) (fillna sorted))
                        (rows (fillna sorted))).
  { rewrite Hro, Hrg, Hrd, !map_map.
    apply map_ext_in. intros fr Hfr. cbn [fst snd].
    pose proof (Hlenf fr Hfr) as Hlen.
    assert (Hlen1 : length (select (map f1 (columns df)) (snd fr))
                    = length (columns dropped))
      by (rewrite Hcd; now apply select_length).
    assert (Hcid : In (Col "customer_ID") (columns df))
      by (apply has_label_In; eapply col_index_has_label; exact Hi).
    unfold encoded_row. f_equal.
    - (* the key *)
      destruct (cell_at_select f1 "customer_ID" (columns df)
                  (Hf1 _ Hkr) i Hi) as [i1 [Hi1 Hn1]].
      rewrite <- Hcd in Hi1.
      destruct (cell_at_select f2 "customer_ID" (columns dropped) Hf2 i1 Hi1)
        as [i2 [Hi2 Hn2]].
      rewrite Hcg, (col_index_app _ _ _ _ Hi2) in Hi3. injection Hi3 as <-.
      rewrite (position_col_index _ _ _ Hi).
      unfold cell_at. cbn [snd].
      rewrite app_nth1.
      2:{ rewrite (select_length _ _ _ _ Hlen1).
          exact (col_index_bound _ _ _ Hi2). }
      rewrite (Hn2 _ Hlen1). now apply Hn1.
    - (* the cells *)
      rewrite Hcg, map_app.
      rewrite select_app
        by (rewrite length_map; symmetry; now apply select_length).
      f_equal.
      + rewrite Hcd, !select_select. f_equal.
        apply map_ext. intro l. unfold kept, f1, f2, f3.
        apply andb_assoc.
      + rewrite select_all.
        * rewrite (encodings_as_map _ _ _ He), flat_map_map. cbn [fst snd].
          apply flat_map_ext_in. intros n Hn.
          assert (Hnr : ~ In n remove_param) by (now apply config_disjoint).
          assert (Hnin : In (Col n) (columns df)).
          { pose proof (encodings_present _ _ _ He n Hn) as H.
            rewrite Hcd in H. unfold f1 in H.
            now apply in_filter_named in H. }
          rewrite (Hread n fr Hnr Hnin Hfr).
          f_equal. f_equal. rewrite Hrd, map_map.
          apply map_ext_in. intros fr' Hfr'.
          exact (Hread n fr' Hnr Hnin Hfr').
        * apply Forall_forall. intros b Hb.
          apply in_map_iff in Hb as [l [<- Hl]].
          apply in_flat_map in Hl as [e [_ Hl]].
          apply in_map_iff in Hl as [v [<- _]]. reflexivity.
        * rewrite length_map. apply flat_map_length_eq.
          intro e. now rewrite !length_map. }
  split; [exact Hrows|].
  rewrite Hrows, map_map. unfold fillna. cbn [rows]. rewrite map_map.
  apply map_ext_in. intros row Hrow. unfold encoded_row. cbn [fst].
  rewrite (position_col_index _ _ _ Hi). unfold cell_at. cbn [snd].
  rewrite (nth_indep _ NaN (fill_cell NaN)).
  - apply map_nth.
  - rewrite length_map.
    unfold well_formed in Hwf. rewrite Forall_forall in Hwf.
    rewrite (Hwf row (Permutation_in _ Hperm Hrow)).
    exact (col_index_bound _ _ _ Hi).
Qed.

Lemma preprocess_result_index_witness :
  rows (nth 3 (fst (preprocess 0 [sample_table])) sample_table)
  = map (encoded_row (columns sample_table) (fillna sample_sorted))
        (rows (fillna sample_sorted))
  /\ map fst (rows (nth 3 (fst (preprocess 0 [sample_table])) sample_table))
     = map (fun row => fill_cell (cell_at 0 row)) (rows sample_sorted).
Proof.
  apply (preprocess_result_index [sample_table] 0 3 sample_table
           (nth 3 (fst (preprocess 0 [sample_table])) sample_table)
           sample_sorted 0);
    try reflexivity.
  exact sample_table_well_formed.
Defined.

End ResultIndex.

(** * Facts about the compressor *)

Section CompressorFacts.

Import Compressor.
Local Open Scope R_scope.

Lemma mean_pair (a b : R) : mean [a; b] = (a + b) / 2.
Proof.
  unfold mean. simpl. field.
Qed.

Lemma variance_pair (a b : R) :
  variance [a; b] = ((b - a) / 2) * ((b - a) / 2).
Proof.
  unfold variance. rewrite mean_pair. simpl map. rewrite mean_pair. field.
Qed.

Lemma scale_pair (a b : R) :
  a < b ->
  handle_zeros_in_scale (sqrt (variance [a; b])) = (b - a) / 2.
Proof.
  intro H. rewrite variance_pair, sqrt_square by lra.
  unfold handle_zeros_in_scale.
  destruct (Req_dec_T ((b - a) / 2) 0); [lra|reflexivity].
Qed.

Lemma scale_constant (a : R) :
  handle_zeros_in_scale (sqrt (variance [a; a])) = 1.
Proof.
  rewrite variance_pair.
  replace ((a - a) / 2 * ((a - a) / 2)) with 0 by field.
  rewrite sqrt_0. unfold handle_zeros_in_scale.
  destruct (Req_dec_T 0 0); [reflexivity|contradiction].
Qed.

Lemma columns_history (a b : R) :
  columns_of [history a; history b] = [a; b] :: repeat [0; 0] 12.
Proof.
  reflexivity.
Qed.

Lemma ss_fit_history (a b : R) :
  a < b ->
  ss_fit [history a; history b]
  = mkScaler ((a + b) / 2 :: repeat 0 12) ((b - a) / 2 :: repeat 1 12).
Proof.
  intro H. unfold ss_fit. rewrite columns_history.
  cbv [map repeat].
  rewrite (scale_pair a b H), (scale_constant 0), !mean_pair.
  replace ((0 + 0) / 2) with 0 by field.
  reflexivity.
Qed.

Lemma standardize_history (x m s : R) :
  standardize (history x) (m :: repeat 0 12) (s :: repeat 1 12)
  = history ((x - m) / s).
Proof.
  cbv [history repeat standardize].
  replace ((0 - 0) / 1) with 0 by field.
  reflexivity.
Qed.

Lemma ss_transform_history (a b m s : R) :
  ss_transform (mkScaler (m :: repeat 0 12) (s :: repeat 1 12))
               [history a; history b]
  = [history ((a - m) / s); history ((b - m) / s)].
Proof.
  unfold ss_transform. cbv [map mean_ scale_].
  now rewrite !standardize_history.
Qed.

Lemma dot_zeros (n : nat) (w : list R) : dot (repeat 0 n) w = 0.
Proof.
  revert w. induction n as [|n IH]; intros [|y w]; simpl; try reflexivity.
  rewrite IH. ring.
Qed.

Lemma dot_history (x y : R) (w : list R) : dot (history x) (y :: w) = x * y.
Proof.
  unfold history. cbn [dot]. rewrite dot_zeros. ring.
Qed.

Lemma dot_self_nonneg (w : list R) : 0 <= dot w w.
Proof.
  induction w as [|x w IH]; simpl; [lra|].
  pose proof (Rle_0_sqr x) as Hx. unfold Rsqr in Hx. lra.
Qed.

Lemma centre_history (x : R) : centre (history x) (repeat 0 13) = history x.
Proof.
  cbv [history repeat centre].
  replace (x - 0) with x by ring.
  replace (0 - 0) with 0 by ring.
  reflexivity.
Qed.

Lemma pca_transform_history (a b : R) :
  pca_transform model_sample [history a; history b] = [a; b].
Proof.
  unfold pca_transform, model_sample. cbv [map pca_mean_ components_].
  rewrite !centre_history. unfold history at 2 4.
  rewrite !dot_history. f_equal; [ring|]. f_equal. ring.
Qed.

Lemma standardized_train_sample :
  ss_fit_transform train_sample = [history (-1); history 1].
Proof.
  unfold ss_fit_transform, train_sample.
  rewrite ss_fit_history by lra.
  rewrite ss_transform_history.
  f_equal; [f_equal; field|]. f_equal. f_equal. field.
Qed.

(** [model_sample] is a model the library may return for [train_sample]:
    the only step that varies is the first, so the first axis carries all the
    variance. *)
Lemma model_sample_fitted : create_model train_sample model_sample.
Proof.
  unfold create_model. rewrite standardized_train_sample.
  unfold fitted, model_sample. cbv [pca_mean_ components_].
  rewrite columns_history.
  split.
  - cbv [map repeat]. rewrite !mean_pair.
    replace ((-1 + 1) / 2) with 0 by field.
    replace ((0 + 0) / 2) with 0 by field.
    reflexivity.
  - split; [reflexivity|].
    split; [unfold history at 2; rewrite dot_history; ring|].
    intros [|y w] Hlen Hunit; [discriminate|].
    unfold project. cbv [map].
    change (history 1) with (1 :: repeat 0 12) at 2 4.
    rewrite !dot_history, !variance_pair.
    cbn [dot] in Hunit.
    pose proof (dot_self_nonneg w) as Hw.
    nra.
Qed.

End CompressorFacts.
Section CompressorClaims.

Import Compressor.
Local Open Scope R_scope.

Lemma compress_later_sample :
  compress model_sample later_sample = [-1; 1].
Proof.
  unfold compress, ss_fit_transform, later_sample.
  rewrite ss_fit_history by lra.
  rewrite ss_transform_history, pca_transform_history.
  f_equal; [field|]. f_equal. field.
Qed.

Lemma compress_with_fit_scale_later_sample :
  compress_with_fit_scale train_sample model_sample later_sample = [-1; 3].
Proof.
  unfold compress_with_fit_scale, train_sample, later_sample.
  rewrite ss_fit_history by lra.
  rewrite ss_transform_history, pca_transform_history.
  f_equal; [field|]. f_equal. field.
Qed.

(** C1, as stated, fails: with a model fitted on [train_sample], the second
    customer of [later_sample] gets 1 from the transform step of the script
    and 3 from a standardization with the fit-time scale. *)
Lemma compress_differs_from_fit_scale :
  create_model train_sample model_sample
  /\ compress model_sample later_sample = [-1; 1]
  /\ compress_with_fit_scale train_sample model_sample later_sample = [-1; 3]
  /\ compress model_sample later_sample
     <> compress_with_fit_scale train_sample model_sample later_sample.
Proof.
  split; [apply model_sample_fitted|].
  split; [apply compress_later_sample|].
  split; [apply compress_with_fit_scale_later_sample|].
  rewrite compress_later_sample, compress_with_fit_scale_later_sample.
  intro H. injection H as H. lra.
Qed.

(** The step agrees with the fit-time scale on every array that has the
    column statistics of the fit-time array. *)
Lemma compress_agrees_on_same_scale (train t_data : matrix) (model : PCA) :
  ss_fit t_data = ss_fit train ->
  compress model t_data = compress_with_fit_scale train model t_data.
Proof.
  intro H. unfold compress, compress_with_fit_scale, ss_fit_transform.
  now rewrite H.
Qed.

(** C1, amended: for every feature column the transform loop standardizes
    the column's (customers x 13) array with a scaler fitted on that very
    array, then projects with the axis stored for the column; the scalar is
    the projection under the fit-time scale whenever the array has the column
    means and deviations of the fit-time array, as the training array itself
    has. *)
Theorem transform_loop_refits_scaler
        (model_dict : string -> option PCA) (cols : list (string * matrix)) :
  (forall col, In col cols ->
               exists model, model_dict (fst col) = Some model) ->
  exists comp_dict,
    transform_loop model_dict cols = Ok comp_dict
    /\ Forall2
         (fun col entry =>
            exists model,
              model_dict (fst col) = Some model
              /\ fst entry = append "PA_" (fst col)
              /\ snd entry
                 = pca_transform model
                     (ss_transform (ss_fit (snd col)) (snd col))
              /\ forall train,
                  ss_fit (snd col) = ss_fit train ->
                  snd entry = compress_with_fit_scale train model (snd col))
         cols comp_dict.
Proof.
  unfold transform_loop.
  induction cols as [|col r IH]; intro H.
  - exists []. split; [reflexivity|constructor].
  - destruct (H col (or_introl eq_refl)) as [model Hm].
    destruct IH as [rest [Hrest Hall]];
      [intros c Hc; apply H; now right|].
    exists ((append "PA_" (fst col), compress model (snd col)) :: rest).
    split.
    + cbn [mapM]. rewrite Hm. cbn [bind]. rewrite Hrest. reflexivity.
    + constructor; [|exact Hall].
      exists model. split; [exact Hm|].
      split; [reflexivity|]. split; [reflexivity|].
      intros train Ht. now apply compress_agrees_on_same_scale.
Qed.

Lemma transform_loop_refits_scaler_witness :
  exists comp_dict,
    transform_loop (fun _ => Some model_sample)
                   [("P_2"%string, train_sample)] = Ok comp_dict
    /\ Forall2
         (fun col entry =>
            exists model,
              Some model_sample = Some model
              /\ fst entry = append "PA_" (fst col)
              /\ snd entry
                 = pca_transform model
                     (ss_transform (ss_fit (snd col)) (snd col))
              /\ forall train,
                  ss_fit (snd col) = ss_fit train ->
                  snd entry = compress_with_fit_scale train model (snd col))
         [("P_2"%string, train_sample)] comp_dict.
Proof.
  apply (transform_loop_refits_scaler
           (fun _ => Some model_sample) [("P_2"%string, train_sample)]).
  intros col _. exists model_sample. reflexivity.
Defined.

End CompressorClaims.

(** * Further properties of the compressor *)

Section Offsets.

Import Compressor.
Local Open Scope R_scope.

Lemma sumR_shift (a : R) (l : list R) :
  sumR (map (fun x => x + a) l) = sumR l + INR (length l) * a.
Proof.
  induction l as [|x l IH]; [simpl; ring|].
  cbn [map sumR length]. rewrite IH, S_INR. ring.
Qed.

Lemma mean_shift (a : R) (l : list R) :
  l <> [] -> mean (map (fun x => x + a) l) = mean l + a.
Proof.
  intro Hl. unfold mean. rewrite sumR_shift, length_map.
  field. apply not_0_INR. destruct l; [congruence|discriminate].
Qed.

Lemma variance_shift (a : R) (l : list R) :
  l <> [] -> variance (map (fun x => x + a) l) = variance l.
Proof.
  intro Hl. unfold variance. rewrite (mean_shift a l Hl), map_map.
  unfold mean at 1 4. rewrite !length_map. f_equal. f_equal.
  apply map_ext. intro x. ring.
Qed.

Lemma add_rows_length (row offsets : list R) :
  length offsets = length row -> length (add_rows row offsets) = length row.
Proof.
  revert offsets. induction row as [|x row IH]; intros [|a offsets] H;
    simpl in *; try discriminate; [reflexivity|].
  rewrite IH by lia. reflexivity.
Qed.

Lemma add_rows_nth (row offsets : list R) (j : nat) :
  length offsets = length row -> (j < length row)%nat ->
  nth j (add_rows row offsets) 0 = nth j row 0 + nth j offsets 0.
Proof.
  revert offsets j. induction row as [|x row IH]; intros [|a offsets] j H Hj;
    simpl in *; try discriminate; try lia.
  destruct j as [|j]; [reflexivity|]. apply IH; lia.
Qed.

Lemma n_features_translate (offsets : list R) (X : matrix) :
  length offsets = n_features X ->
  n_features (translate offsets X) = n_features X.
Proof.
  destruct X as [|row X]; [reflexivity|]. simpl. apply add_rows_length.
Qed.

Lemma column_translate (offsets : list R) (X : matrix) (j : nat) :
  rectangular X -> length offsets = n_features X ->
  (j < n_features X)%nat ->
  column j (translate offsets X)
  = map (fun x => x + nth j offsets 0) (column j X).
Proof.
  intros Hr Hlen Hj. unfold column, translate. rewrite !map_map.
  apply map_ext_in. intros row Hrow.
  unfold rectangular in Hr. rewrite Forall_forall in Hr.
  apply add_rows_nth; rewrite (Hr row Hrow); assumption.
Qed.

(** Standardizing a shifted row with shifted means. *)
Lemma standardize_shift (m m' s s' : nat -> R) (row : list R) :
  forall offsets i,
    length offsets = length row ->
    (forall j, (i <= j < i + length row)%nat ->
               m' j = m j + nth (j - i) offsets 0 /\ s' j = s j) ->
    standardize (add_rows row offsets)
                (map m' (seq i (length row))) (map s' (seq i (length row)))
    = standardize row
                  (map m (seq i (length row))) (map s (seq i (length row))).
Proof.
  induction row as [|x row IH]; intros [|a offsets] i Hlen H;
    simpl in Hlen; try discriminate; [reflexivity|].
  cbn [length seq map add_rows standardize].
  destruct (H i) as [Hm Hs]; [simpl; lia|].
  rewrite Nat.sub_diag in Hm. simpl in Hm.
  rewrite Hm, Hs. f_equal; [unfold Rdiv; ring|].
  apply IH; [lia|].
  intros j Hj. destruct (H j) as [Hm' Hs']; [simpl; lia|].
  replace (j - i)%nat with (S (j - S i)) in Hm' by lia.
  split; assumption.
Qed.

Lemma ss_fit_transform_translate (offsets : list R) (X : matrix) :
  rectangular X -> length offsets = n_features X ->
  ss_fit_transform (translate offsets X) = ss_fit_transform X.
Proof.
  intros Hr Hlen.
  unfold ss_fit_transform, ss_transform, ss_fit. cbn [mean_ scale_].
  unfold columns_of. rewrite (n_features_translate _ _ Hlen), !map_map.
  unfold translate at 3. rewrite map_map.
  apply map_ext_in. intros row Hrow.
  assert (Hne : X <> []) by (intros ->; contradiction).
  assert (Hn : length row = n_features X).
  { unfold rectangular in Hr. rewrite Forall_forall in Hr. now apply Hr. }
  rewrite <- Hn.
  apply standardize_shift; [lia|].
  intros j Hj. rewrite Nat.sub_0_r.
  assert (Hc : column j X <> []).
  { unfold column. destruct X; [congruence|discriminate]. }
  rewrite (column_translate offsets X j Hr Hlen) by lia.
  split.
  - now apply mean_shift.
  - now rewrite variance_shift.
Qed.

(** X15: the transform step does not see the level of the data: adding an
    offset to every customer's value at each step leaves every compressed
    scalar as it was, because the scaler is fitted on the array it
    standardizes. *)
Theorem compress_ignores_offsets
        (model : PCA) (offsets : list R) (t_data : matrix) :
  rectangular t_data ->
  length offsets = n_features t_data ->
  compress model (translate offsets t_data) = compress model t_data.
Proof.
  intros Hr Hlen. unfold compress.
  now rewrite ss_fit_transform_translate.
Qed.

Lemma compress_ignores_offsets_witness :
  compress model_sample (translate (repeat 5 13) train_sample)
  = compress model_sample train_sample.
Proof.
  apply (compress_ignores_offsets model_sample (repeat 5 13) train_sample).
  - repeat constructor.
  - reflexivity.
Defined.

End Offsets.

